(** * BitAstro on-device generation core: tokenizer and engine

    A shallow embedding of [frontend/src/lib/tokenizer.ts] (class
    [BPETokenizer]) and [frontend/src/services/AstroEngine.ts] (class
    [AstroEngine]), and the properties of the design document checked
    against it.

    Modelling conventions.
    - A JavaScript string is the list of its code points ([text]); a lone
      surrogate is a code point in D800..DFFF.
    - A JavaScript number holding an integer is a [Z]; [num] adds [NaN],
      which [parseInt] returns on unparsable input. Integers are not rounded
      to 53 bits, so the model agrees with the code on numerals of size up
      to [Number.MAX_SAFE_INTEGER]; [reads_safe_integers] says that a line
      holds only such numerals.
    - A [Uint8Array] is a [list Z] of bytes.
    - A [number[]] array is an object: it lives in a [heap] and is passed
      around by location, so that two holders of one array see each
      other's [push].
    - A [Map] keyed by the string [`${a},${b}`] is a [gmap] keyed by the pair
      [(a, b)]: number-to-string conversion is injective and the key is only
      ever split back at its comma.
    - A number used as a score, and an element of a [Float32Array], is an
      IEEE 754 binary64 value in canonical form ([spec_float], operations at
      precision 53); a store into a [Float32Array] rounds to binary32.
      [Math.exp] and [Math.random] are parameters. [maxTokens] and [topK]
      are integers.
    - An [async] function is cut at its [await]s into steps of a transition
      system; a promise is a term that is fulfilled or not in a given
      state. *)

From Stdlib Require Import ZArith List Lia Bool String Ascii SpecFloat.
From stdpp Require Import gmap list option sorting.

Local Open Scope Z_scope.

(** ** Strings and numbers *)

Abbreviation text := (list Z).

Definition text_of_string (s : string) : text :=
  map (fun a => Z.of_N (N_of_ascii a)) (list_ascii_of_string s).

Inductive num := NaN | Int (z : Z).

#[global] Instance num_eq_dec : EqDecision num.
Proof. solve_decision. Defined.

Definition num_to_option (n : num) : option Z :=
  match n with NaN => None | Int z => Some z end.

Definition num_of_option (o : option Z) : num :=
  match o with None => NaN | Some z => Int z end.

#[global] Instance num_countable : Countable num.
Proof.
  apply (inj_countable' num_to_option num_of_option).
  intros []; reflexivity.
Defined.

(** ** UTF-8, as [TextEncoder] and [TextDecoder('utf-8', {fatal: false})]
    implement it (WHATWG Encoding Standard) *)

Definition is_surrogate (c : Z) : bool := (0xD800 <=? c) && (c <=? 0xDFFF).

Definition is_scalar (c : Z) : bool :=
  (0 <=? c) && (c <=? 0x10FFFF) && negb (is_surrogate c).

(** The encoder proper, on a scalar value. *)
Definition utf8_encode_scalar (c : Z) : list Z :=
  if c <? 0x80 then [c]
  else if c <? 0x800 then
    [Z.shiftr c 6 + 0xC0; Z.lor 0x80 (Z.land c 0x3F)]
  else if c <? 0x10000 then
    [Z.shiftr c 12 + 0xE0; Z.lor 0x80 (Z.land (Z.shiftr c 6) 0x3F);
     Z.lor 0x80 (Z.land c 0x3F)]
  else
    [Z.shiftr c 18 + 0xF0; Z.lor 0x80 (Z.land (Z.shiftr c 12) 0x3F);
     Z.lor 0x80 (Z.land (Z.shiftr c 6) 0x3F); Z.lor 0x80 (Z.land c 0x3F)].

(** Converting the string to scalar values replaces a lone surrogate by
    U+FFFD. *)
Definition utf8_encode_cp (c : Z) : list Z :=
  utf8_encode_scalar (if is_scalar c then c else 0xFFFD).

Definition TextEncoder_encode (t : text) : list Z :=
  flat_map utf8_encode_cp t.

(** The decoder's state between two bytes. *)
Record utf8_state := {
  code_point : Z;
  bytes_needed : nat;
  lower_boundary : Z;
  upper_boundary : Z;
}.

Inductive utf8_step_result :=
  | Emit (c : Z)
  | Continue (s : utf8_state)
  | Error.

(** A byte read when no sequence is in progress. *)
Definition utf8_lead (b : Z) : utf8_step_result :=
  if (0x00 <=? b) && (b <=? 0x7F) then Emit b
  else if (0xC2 <=? b) && (b <=? 0xDF) then
    Continue {| code_point := Z.land b 0x1F; bytes_needed := 1;
                lower_boundary := 0x80; upper_boundary := 0xBF |}
  else if (0xE0 <=? b) && (b <=? 0xEF) then
    Continue {| code_point := Z.land b 0xF; bytes_needed := 2;
                lower_boundary := if b =? 0xE0 then 0xA0 else 0x80;
                upper_boundary := if b =? 0xED then 0x9F else 0xBF |}
  else if (0xF0 <=? b) && (b <=? 0xF4) then
    Continue {| code_point := Z.land b 0x7; bytes_needed := 3;
                lower_boundary := if b =? 0xF0 then 0x90 else 0x80;
                upper_boundary := if b =? 0xF4 then 0x8F else 0xBF |}
  else Error.

(** [utf8_decode st bs]: [st] is [None] when no sequence is in progress.
    A byte outside the boundaries ends the sequence with U+FFFD and is then
    read again as a lead byte; the end of input inside a sequence gives
    U+FFFD. *)
Fixpoint utf8_decode (st : option utf8_state) (bs : list Z) : text :=
  match bs with
  | [] => match st with None => [] | Some _ => [0xFFFD] end
  | b :: rest =>
    let lead (prefix : text) :=
      match utf8_lead b with
      | Emit c => prefix ++ c :: utf8_decode None rest
      | Continue s => prefix ++ utf8_decode (Some s) rest
      | Error => prefix ++ 0xFFFD :: utf8_decode None rest
      end in
    match st with
    | None => lead []
    | Some s =>
      if (lower_boundary s <=? b) && (b <=? upper_boundary s) then
        let cp := Z.lor (Z.shiftl (code_point s) 6) (Z.land b 0x3F) in
        match bytes_needed s with
        | S (S n) =>
          utf8_decode (Some {| code_point := cp; bytes_needed := S n;
                               lower_boundary := 0x80;
                               upper_boundary := 0xBF |}) rest
        | _ => cp :: utf8_decode None rest
        end
      else lead [0xFFFD]
    end
  end.

(** [ignoreBOM] is left at its default: a leading U+FEFF is dropped. *)
Definition strip_bom (t : text) : text :=
  match t with
  | 0xFEFF :: rest => rest
  | _ => t
  end.

Definition TextDecoder_decode (bs : list Z) : text :=
  strip_bom (utf8_decode None bs).

(** ** Pieces of the JavaScript library used by [load] *)

(** [WhiteSpace] and [LineTerminator] code points, which [trim] and
    [parseInt] strip. *)
Definition is_js_space (c : Z) : bool :=
  ((0x09 <=? c) && (c <=? 0x0D)) || (c =? 0x20) || (c =? 0xA0)
  || (c =? 0x1680) || ((0x2000 <=? c) && (c <=? 0x200A))
  || (c =? 0x2028) || (c =? 0x2029) || (c =? 0x202F) || (c =? 0x205F)
  || (c =? 0x3000) || (c =? 0xFEFF).

(** [!line.trim()]: the trimmed line is the empty string. *)
Definition trim_is_empty (line : text) : bool := forallb is_js_space line.

(** [s.split(sep)] for a one-character separator; never the empty list. *)
Fixpoint split (sep : Z) (s : text) : list text :=
  match s with
  | [] => [[]]
  | c :: rest =>
    if c =? sep then [] :: split sep rest
    else match split sep rest with
         | seg :: segs => (c :: seg) :: segs
         | [] => [[c]]
         end
  end.

Definition digit_value (radix c : Z) : option Z :=
  let d := if (48 <=? c) && (c <=? 57) then c - 48
           else if (97 <=? c) && (c <=? 122) then c - 97 + 10
           else if (65 <=? c) && (c <=? 90) then c - 65 + 10
           else radix in
  if d <? radix then Some d else None.

(** The longest prefix of digits, read in the radix; [None] when empty. *)
Fixpoint parse_digits (radix : Z) (acc : option Z) (s : text) : option Z :=
  match s with
  | [] => acc
  | c :: rest =>
    match digit_value radix c with
    | Some d => parse_digits radix (Some (default 0 acc * radix + d)) rest
    | None => acc
    end
  end.

Fixpoint skip_space (s : text) : text :=
  match s with
  | c :: rest => if is_js_space c then skip_space rest else s
  | [] => []
  end.

(** [parseInt(s)] with no radix argument. *)
Definition parseInt (s : text) : num :=
  let s := skip_space s in
  let '(sign, s) := match s with
                    | 45 :: rest => (-1, rest)
                    | 43 :: rest => (1, rest)
                    | _ => (1, s)
                    end in
  let '(radix, s) := match s with
                     | 48 :: 120 :: rest | 48 :: 88 :: rest => (16, rest)
                     | _ => (10, s)
                     end in
  match parse_digits radix None s with
  | None => NaN
  | Some n => Int (sign * n)
  end.

(** ** The tokenizer object *)

Abbreviation loc := nat.

(** The [number[]] arrays allocated so far, by location. *)
Abbreviation heap := (list (list Z)).

Definition alloc (h : heap) (a : list Z) : loc * heap :=
  (length h, h ++ [a]).

Definition array_at (h : heap) (l : loc) : list Z := default [] (h !! l).

Definition array_push (h : heap) (l : loc) (x : Z) : heap :=
  <[l := array_at h l ++ [x]]> h.

Record BPETokenizer := {
  merges : gmap (num * num) num;
  vocab : gmap num (list Z);
  vocabSize : nat;
  cache : gmap text loc;
}.

Definition base_vocab : gmap num (list Z) :=
  list_to_map (map (fun i => (Int i, [i])) (map Z.of_nat (seq 0 256))).

(** [constructor] *)
Definition new_BPETokenizer : BPETokenizer :=
  {| merges := ∅; vocab := base_vocab; vocabSize := 256; cache := ∅ |}.

(** *** [load] *)

(** What the three awaited steps at the top of [load] can do. *)
Inductive fetched :=
  | FetchRejected
  | Response (ok : bool) (body : option text).

Inductive error :=
  | FetchError
  | FailedToLoadMerges (url : text)
  | BodyError
  | EngineNotInitialized
  | SessionError (code : Z).

Inductive outcome (A : Type) :=
  | Returns (a : A)
  | Throws (e : error).
Arguments Returns {A} a.
Arguments Throws {A} e.

Inductive console_entry :=
  | LogTokenizerLoaded (size : nat)
  | ErrorLoadingTokenizer (e : error).

(** Lines 28-34: the rule a line is read as, if it is not skipped. *)
Definition parse_line (line : text) : option (num * num * num) :=
  if trim_is_empty line then None
  else match split 32 line with
       | [a; b; c] => Some (parseInt a, parseInt b, parseInt c)
       | _ => None
       end.

(** Lines 36-46. *)
Definition register_rule (tk : BPETokenizer) (r : num * num * num)
    : BPETokenizer :=
  let '(p0, p1, idx) := r in
  let merges' := <[(p0, p1) := idx]> (merges tk) in
  let vocab' := match vocab tk !! p0, vocab tk !! p1 with
                | Some v0, Some v1 => <[idx := v0 ++ v1]> (vocab tk)
                | _, _ => vocab tk
                end in
  {| merges := merges'; vocab := vocab';
     vocabSize := vocabSize tk; cache := cache tk |}.

Definition load_line (tk : BPETokenizer) (line : text) : BPETokenizer :=
  match parse_line line with
  | Some r => register_rule tk r
  | None => tk
  end.

Definition load_lines (tk : BPETokenizer) (lines : list text)
    : BPETokenizer :=
  fold_left load_line lines tk.

(** The body of the [try] block. *)
Definition load_body (url : text) (f : fetched) (tk : BPETokenizer)
    : BPETokenizer * list console_entry * outcome unit :=
  match f with
  | FetchRejected => (tk, [], Throws FetchError)
  | Response false _ => (tk, [], Throws (FailedToLoadMerges url))
  | Response true None => (tk, [], Throws BodyError)
  | Response true (Some body) =>
    let tk1 := load_lines tk (split 10 body) in
    let size := (256 + size (merges tk1))%nat in
    ({| merges := merges tk1; vocab := vocab tk1;
        vocabSize := size; cache := cache tk1 |},
     [LogTokenizerLoaded size], Returns tt)
  end.

(** [load]: the [catch] clause logs the error and falls through, so the
    promise of [load] is fulfilled either way. *)
Definition load (url : text) (f : fetched) (tk : BPETokenizer)
    : BPETokenizer * list console_entry * outcome unit :=
  match load_body url f tk with
  | (tk', out, Returns tt) => (tk', out, Returns tt)
  | (tk', out, Throws e) => (tk', out ++ [ErrorLoadingTokenizer e], Returns tt)
  end.

Definition default_url : text := text_of_string "/models/tokenizer.merges".

(** *** [encode] *)

(** [counts.set(key, (counts.get(key) || 0) + 1)] on a [Map] kept in
    insertion order: a key already there keeps its place. *)
Fixpoint bump (key : Z * Z) (counts : list (Z * Z * nat))
    : list (Z * Z * nat) :=
  match counts with
  | [] => [(key, 1%nat)]
  | (k, n) :: rest =>
    if decide (k = key) then (k, S n) :: rest else (k, n) :: bump key rest
  end.

(** [getStats]: the loop runs over [i] from the left, so the pairs are
    bumped in order of position. *)
Fixpoint getStats_from (ids : list Z) (counts : list (Z * Z * nat))
    : list (Z * Z * nat) :=
  match ids with
  | a :: (b :: _) as tl => getStats_from tl (bump (a, b) counts)
  | _ => counts
  end.

Definition getStats (ids : list Z) : list (Z * Z * nat) :=
  getStats_from ids [].

(** The state of the scan of lines 66-85: [None] is the initial
    [bestPair = null, minIdx = Infinity]. *)
Definition scan_step (M : gmap (num * num) num)
    (best : option (Z * Z * Z)) (entry : Z * Z * nat)
    : option (Z * Z * Z) :=
  let '(a, b, _) := entry in
  match M !! (Int a, Int b) with
  | Some (Int idx) =>
    match best with
    | None => Some (a, b, idx)
    | Some (_, _, minIdx) =>
      if idx <? minIdx then Some (a, b, idx) else best
    end
  | Some NaN => best
  | None => best
  end.

Definition best_pair (M : gmap (num * num) num) (ids : list Z)
    : option (Z * Z * Z) :=
  fold_left (scan_step M) (getStats ids) None.

(** [merge] *)
Fixpoint merge (ids : list Z) (pair : Z * Z) (idx : Z) : list Z :=
  match ids with
  | a :: (b :: rest) as tl =>
    if (a =? pair.1) && (b =? pair.2) then idx :: merge rest pair idx
    else a :: merge tl pair idx
  | _ => ids
  end.

(** The [while] loop of lines 64-90, with a bound on the number of rounds;
    [None] when the bound is reached before the loop exits. *)
Fixpoint merge_rounds (M : gmap (num * num) num) (fuel : nat)
    (ids : list Z) : option (list Z) :=
  if (length ids <? 2)%nat then Some ids
  else match best_pair M ids with
       | None => Some ids
       | Some (a, b, minIdx) =>
         match fuel with
         | O => None
         | S fuel' => merge_rounds M fuel' (merge ids (a, b) minIdx)
         end
       end.

(** Every round shortens the sequence, so its length bounds the rounds
    (lemma [merge_rounds_terminates] below). *)
Definition bpe (M : gmap (num * num) num) (ids : list Z) : list Z :=
  default ids (merge_rounds M (length ids) ids).

(** [encode] returns the array it has stored in the cache, not a copy. *)
Definition encode (t : text) (tk : BPETokenizer) (h : heap)
    : loc * BPETokenizer * heap :=
  match cache tk !! t with
  | Some l => (l, tk, h)
  | None =>
    let ids := bpe (merges tk) (TextEncoder_encode t) in
    let '(l, h') := alloc h ids in
    (l, {| merges := merges tk; vocab := vocab tk;
           vocabSize := vocabSize tk; cache := <[t := l]> (cache tk) |}, h')
  end.

(** The ids an [encode] call hands back, read at the time of the return. *)
Definition encode_ids (t : text) (tk : BPETokenizer) (h : heap) : list Z :=
  let '(l, _, h') := encode t tk h in array_at h' l.

(** *** [decode] *)

Definition decode_bytes (tk : BPETokenizer) (ids : list Z) : list Z :=
  flat_map (fun id => default [] (vocab tk !! Int id)) ids.

Definition decode (tk : BPETokenizer) (ids : list Z) : text :=
  TextDecoder_decode (decode_bytes tk ids).

(** ** Floating-point scores *)

Definition f64_add := SFadd 53 1024.
Definition f64_sub := SFsub 53 1024.
Definition f64_mul := SFmul 53 1024.
Definition f64_div := SFdiv 53 1024.

Definition f64_zero : spec_float := S754_zero false.
Definition f64_one : spec_float := S754_finite false 4503599627370496 (-52).
Definition neg_infinity : spec_float := S754_infinity true.

(** [1e-8], that is 0x1.5798ee2308c3ap-27. *)
Definition temperature_floor : spec_float :=
  S754_finite false 6044629098073146 (-79).

(** [0.8], that is 0x1.999999999999ap-1. *)
Definition default_temperature : spec_float :=
  S754_finite false 7205759403792794 (-53).

(** A store into a [Float32Array]: round to nearest-even in binary32, kept
    as the binary64 value a later read gives. *)
Definition fround (x : spec_float) : spec_float :=
  match x with
  | S754_finite s m e =>
    match binary_round 24 128 s m e with
    | S754_finite s' m' e' => binary_round 53 1024 s' m' e'
    | y => y
    end
  | _ => x
  end.

(** [Math.max] of two numbers. *)
Definition Math_max (a b : spec_float) : spec_float :=
  match a, b with
  | S754_nan, _ | _, S754_nan => S754_nan
  | _, _ =>
    if SFltb a b then b
    else if SFltb b a then a
    else match a with S754_zero true => b | _ => a end
  end.

(** [Array.prototype.sort] is stable; [before a b] says the comparator is
    negative on [(a, b)]. Each element goes in front of the first one it
    is strictly before. Where the comparator is a consistent order, this
    is the order every conforming [sort] gives; the comparator of
    [sample] is one when no score is NaN, and the properties of the order
    are stated for such scores. *)
Fixpoint sort_insert {A} (before : A -> A -> bool) (x : A) (l : list A)
    : list A :=
  match l with
  | [] => [x]
  | y :: rest =>
    if before x y then x :: l else y :: sort_insert before x rest
  end.

Definition sort {A} (before : A -> A -> bool) (l : list A) : list A :=
  fold_left (fun sorted x => sort_insert before x sorted) l [].

(** [a.slice(start, end)] on an array of length [length a]. *)
Definition slice_index (len i : Z) : Z :=
  if i <? 0 then Z.max (len + i) 0 else Z.min i len.

Definition slice {A} (a : list A) (start stop : Z) : list A :=
  let len := Z.of_nat (length a) in
  let k := slice_index len start in
  let final := slice_index len stop in
  take (Z.to_nat (final - k)) (drop (Z.to_nat k) a).

(** [BigInt64Array.from]: an element is reduced to a signed 64-bit
    integer. *)
Definition to_int64 (z : Z) : Z := (z + 2 ^ 63) mod 2 ^ 64 - 2 ^ 63.

(** ** [AstroEngine.sample] *)

Section Sampling.

Variable Math_exp : spec_float -> spec_float.

Definition read (a : list spec_float) (i : nat) : spec_float :=
  default S754_nan (a !! i).

(** Lines 183-186. *)
Definition scale (logits : list spec_float) (temperature : spec_float)
    : list spec_float :=
  map (fun x => fround (f64_div x (Math_max temperature temperature_floor)))
      logits.

(** The comparator of line 191 is negative. *)
Definition score_before (scaledLogits : list spec_float) (a b : nat)
    : bool :=
  SFltb (f64_sub (read scaledLogits b) (read scaledLogits a)) f64_zero.

Definition sorted_indices (scaledLogits : list spec_float) : list nat :=
  sort (score_before scaledLogits) (seq 0 (length scaledLogits)).

(** Lines 189-196. *)
Definition top_k_filter (scaledLogits : list spec_float) (topK : Z)
    : list spec_float :=
  if (0 <? topK) && (topK <? Z.of_nat (length scaledLogits)) then
    fold_left (fun s i => <[i := neg_infinity]> s)
              (drop (Z.to_nat topK) (sorted_indices scaledLogits))
              scaledLogits
  else scaledLogits.

(** Lines 199-202. *)
Definition max_logit (scaledLogits : list spec_float) : spec_float :=
  fold_left (fun maxLogit x => if SFltb maxLogit x then x else maxLogit)
            scaledLogits neg_infinity.

(** Lines 205-214: the element of [probs] for one score. *)
Definition prob (maxLogit x : spec_float) : spec_float :=
  if SFeqb x neg_infinity then f64_zero
  else fround (Math_exp (f64_sub x maxLogit)).

Definition softmax (scaledLogits : list spec_float) : list spec_float :=
  map (prob (max_logit scaledLogits)) scaledLogits.

Definition sum_exp (scaledLogits : list spec_float) : spec_float :=
  let maxLogit := max_logit scaledLogits in
  fold_left (fun sumExp x =>
               if SFeqb x neg_infinity then sumExp
               else f64_add sumExp (prob maxLogit x))
            scaledLogits f64_zero.

(** Lines 219-222: [Some i] when the loop returns at index [i]. *)
Fixpoint walk (r cumulative : spec_float) (i : nat)
    (probs : list spec_float) : option nat :=
  match probs with
  | [] => None
  | p :: rest =>
    let cumulative := f64_add cumulative p in
    if SFltb r cumulative then Some i else walk r cumulative (S i) rest
  end.

(** [sample]; [u] is the value [Math.random()] returns in this call. *)
Definition sample (logits : list spec_float) (temperature : spec_float)
    (topK : Z) (u : spec_float) : Z :=
  let scaledLogits := top_k_filter (scale logits temperature) topK in
  let probs := softmax scaledLogits in
  let r := f64_mul u (sum_exp scaledLogits) in
  match walk r f64_zero 0 probs with
  | Some i => Z.of_nat i
  | None => Z.of_nat (length probs) - 1
  end.

End Sampling.

(** ** The engine *)

Record GenerationOptions := {
  maxTokens : option Z;
  temperature : option spec_float;
  topK : option Z;
}.

(** The [logits] output of a run: [dims] is [1, seq_len, vocab_size]. *)
Record tensor := {
  dims : Z * Z * Z;
  data : list spec_float;
}.

(** What [session.run] settles to on its [n]-th invocation, given the
    ids. *)
Definition InferenceSession := nat -> list Z -> outcome tensor.

(** A promise of the mutex chain. [Deferred n] is the [next] promise whose
    resolver is the [n]-th [release] function; [Then p q] is
    [p.then(() => q)], fulfilled once [p] and then [q] are. *)
Inductive promise :=
  | Resolved
  | Deferred (n : nat)
  | Then (p q : promise).

Fixpoint fulfilled (released : list nat) (p : promise) : bool :=
  match p with
  | Resolved => true
  | Deferred n => bool_decide (n ∈ released)
  | Then p q => fulfilled released p && fulfilled released q
  end.

(** Where one [generate] call is suspended. In [AwaitRun], [n] numbers
    the invocation and [pending] is what it will settle to. *)
Inductive phase :=
  | AwaitMutex
  | AwaitRun (tokens : loc) (generatedTokens : list Z) (i : nat)
             (n : nat) (pending : outcome tensor)
  | Finishing (result : outcome text)
  | Settled (result : outcome text).

Record call := {
  prompt : text;
  options : GenerationOptions;
  current : promise;
  release : nat;
  state : phase;
}.

Inductive event :=
  | RunInvoked (c : nat) (input : list Z)
  | RunSettled (c : nat).

Definition event_call (ev : event) : nat :=
  match ev with RunInvoked c _ => c | RunSettled c => c end.

(** The engine, the objects it shares with its callers, and the calls in
    flight; [trace] is in order of occurrence. *)
Record AstroEngine := {
  session : option InferenceSession;
  tokenizer : BPETokenizer;
  isInitialized : bool;
  generationMutex : promise;
  arrays : heap;
  released : list nat;
  calls : list call;
  runs : nat;
  trace : list event;
}.

Definition with_state (k : call) (ph : phase) : call :=
  {| prompt := prompt k; options := options k; current := current k;
     release := release k; state := ph |}.

(** The next state of call [c], with whatever else the step changes. *)
Definition suspend (c : nat) (ph : phase) (h : heap) (n : nat)
    (evs : list event) (e : AstroEngine) : AstroEngine :=
  {| session := session e; tokenizer := tokenizer e;
     isInitialized := isInitialized e;
     generationMutex := generationMutex e;
     arrays := h; released := released e;
     calls := alter (fun k => with_state k ph) c (calls e);
     runs := n; trace := trace e ++ evs |}.

(** [generate] up to its first [await], with [acquireMutex] inlined: the
    call queues behind the mutex as it stands. *)
Definition generate_call (p : text) (o : GenerationOptions)
    (e : AstroEngine) : AstroEngine :=
  let n := length (calls e) in
  let next := Deferred n in
  let current := generationMutex e in
  {| session := session e; tokenizer := tokenizer e;
     isInitialized := isInitialized e;
     generationMutex := Then (generationMutex e) next;
     arrays := arrays e; released := released e;
     calls := calls e ++ [{| prompt := p; options := o; current := current;
                             release := n; state := AwaitMutex |}];
     runs := runs e; trace := trace e |}.

Definition iterations (o : GenerationOptions) : nat :=
  Z.to_nat (default 100 (maxTokens o)).

(** The loop test of line 137, then either lines 139-144 up to the [await]
    (the session is invoked on the current contents of [tokens]) or the
    [return] of line 165. [evs] is what has happened since the call
    resumed. *)
Definition loop_head (c : nat) (o : GenerationOptions) (tokens : loc)
    (generatedTokens : list Z) (i : nat) (h : heap) (evs : list event)
    (e : AstroEngine) : AstroEngine :=
  if (i <? iterations o)%nat then
    let input := map to_int64 (array_at h tokens) in
    let pending := match session e with
                   | Some run => run (runs e) input
                   | None => Throws EngineNotInitialized (* not reached *)
                   end in
    suspend c (AwaitRun tokens generatedTokens i (runs e) pending)
            h (S (runs e)) (evs ++ [RunInvoked c input]) e
  else
    suspend c (Finishing (Returns (decode (tokenizer e) generatedTokens)))
            h (runs e) evs e.

Definition with_tokenizer (tk : BPETokenizer) (e : AstroEngine)
    : AstroEngine :=
  {| session := session e; tokenizer := tk;
     isInitialized := isInitialized e;
     generationMutex := generationMutex e;
     arrays := arrays e; released := released e;
     calls := calls e; runs := runs e; trace := trace e |}.

(** [_init] once the session has been created: lines 68-70. *)
Definition initialized (run : InferenceSession) (e : AstroEngine)
    : AstroEngine :=
  {| session := Some run; tokenizer := tokenizer e;
     isInitialized := true;
     generationMutex := generationMutex e;
     arrays := arrays e; released := released e;
     calls := calls e; runs := runs e; trace := trace e |}.

(** [_generate] from its entry to its first [await]. *)
Definition enter (c : nat) (k : call) (e : AstroEngine) : AstroEngine :=
  match session e, isInitialized e with
  | Some _, true =>
    let '(tokens, tk, h) := encode (prompt k) (tokenizer e) (arrays e) in
    loop_head c (options k) tokens [] 0 h [] (with_tokenizer tk e)
  | _, _ =>
    suspend c (Finishing (Throws EngineNotInitialized))
            (arrays e) (runs e) [] e
  end.

(** The [finally] block of [generate]: [release()], after which the
    promise of [generate] settles as [_generate] did. *)
Definition finally (c : nat) (k : call) (result : outcome text)
    (e : AstroEngine) : AstroEngine :=
  {| session := session e; tokenizer := tokenizer e;
     isInitialized := isInitialized e;
     generationMutex := generationMutex e;
     arrays := arrays e; released := release k :: released e;
     calls := alter (fun k => with_state k (Settled result)) c (calls e);
     runs := runs e; trace := trace e |}.

Definition result_of (c : nat) (e : AstroEngine) : option (outcome text) :=
  match calls e !! c with
  | Some k => match state k with Settled r => Some r | _ => None end
  | None => None
  end.

Section Engine.

Variable Math_exp : spec_float -> spec_float.

(** The value of the [Math.random()] that follows the [n]-th run. *)
Variable Math_random : nat -> spec_float.

(** Lines 147-159, on the logits a run has returned. *)
Definition next_token (o : GenerationOptions) (logits : tensor)
    (n : nat) : Z :=
  let '(_, seqLen, vocabSize) := dims logits in
  let startIdx := (seqLen - 1) * vocabSize in
  let lastTokenLogits :=
    slice (data logits) startIdx (startIdx + vocabSize) in
  sample Math_exp lastTokenLogits
         (default default_temperature (temperature o))
         (default 40 (topK o)) (Math_random n).

(** The pending run of call [c] settles: a rejection leaves [_generate];
    a result is sampled from, the token pushed on both arrays, and the
    loop goes on. *)
Definition resume (c : nat) (k : call) (tokens : loc)
    (generatedTokens : list Z) (i n : nat) (pending : outcome tensor)
    (e : AstroEngine) : AstroEngine :=
  match pending with
  | Throws err =>
    suspend c (Finishing (Throws err)) (arrays e) (runs e)
            [RunSettled c] e
  | Returns logits =>
    let nextToken := next_token (options k) logits n in
    loop_head c (options k) tokens (generatedTokens ++ [nextToken]) (S i)
              (array_push (arrays e) tokens nextToken) [RunSettled c] e
  end.

(** One step of the event loop: the [load] awaited by [_init] completes,
    the session is created, [generate] is called, or a call in flight
    resumes at the [await] it is suspended at. *)
Inductive step : AstroEngine -> AstroEngine -> Prop :=
  | step_tokenizer_loaded url f e :
      step e (with_tokenizer (load url f (tokenizer e)).1.1 e)
  | step_initialized run e :
      step e (initialized run e)
  | step_generate p o e :
      step e (generate_call p o e)
  | step_acquired c k e :
      calls e !! c = Some k ->
      state k = AwaitMutex ->
      fulfilled (released e) (current k) = true ->
      step e (enter c k e)
  | step_run_settled c k tokens generatedTokens i n pending e :
      calls e !! c = Some k ->
      state k = AwaitRun tokens generatedTokens i n pending ->
      step e (resume c k tokens generatedTokens i n pending e)
  | step_finally c k result e :
      calls e !! c = Some k ->
      state k = Finishing result ->
      step e (finally c k result e).

Inductive steps : AstroEngine -> AstroEngine -> Prop :=
  | steps_refl e : steps e e
  | steps_step e1 e2 e3 : steps e1 e2 -> step e2 e3 -> steps e1 e3.

(** The decode loop of call [c] with nothing else interleaved. *)
Fixpoint run_loop (fuel : nat) (c : nat) (e : AstroEngine) : AstroEngine :=
  match fuel with
  | O => e
  | S fuel' =>
    match calls e !! c with
    | Some k =>
      match state k with
      | AwaitRun tokens generatedTokens i n pending =>
        run_loop fuel' c (resume c k tokens generatedTokens i n pending e)
      | _ => e
      end
    | None => e
    end
  end.

(** A [generate] call run to its end with nothing else interleaved. When
    the mutex is held by an earlier call, it stays queued. *)
Definition generate (p : text) (o : GenerationOptions) (e : AstroEngine)
    : AstroEngine :=
  let c := length (calls e) in
  let e1 := generate_call p o e in
  match calls e1 !! c with
  | Some k =>
    if fulfilled (released e1) (current k) then
      let e2 := run_loop (iterations o) c (enter c k e1) in
      match calls e2 !! c with
      | Some k2 =>
        match state k2 with
        | Finishing result => finally c k2 result e2
        | _ => e2
        end
      | None => e2
      end
    else e1
  | None => e1
  end.

End Engine.

(** A new engine whose [init] has completed with the given session. *)
Definition ready_engine (tk : BPETokenizer) (run : InferenceSession)
    : AstroEngine :=
  {| session := Some run; tokenizer := tk; isInitialized := true;
     generationMutex := Resolved; arrays := []; released := [];
     calls := []; runs := 0; trace := [] |}.

(** * Notions the properties are stated with *)

(** ** The tokenizer *)

(** The pairs [(ids[i], ids[i + 1])], by position. *)
Definition adjacent_pairs (ids : list Z) : list (Z * Z) :=
  zip ids (tail ids).

(** The pass as the design document words it, with a cursor [i]. *)
Fixpoint replace_pass (fuel : nat) (ids : list Z) (pair : Z * Z) (idx : Z)
    (i : nat) : list Z :=
  match fuel with
  | O => []
  | S fuel' =>
    match ids !! i with
    | None => []
    | Some x =>
      if bool_decide (x = pair.1 /\ ids !! S i = Some pair.2)
      then idx :: replace_pass fuel' ids pair idx (i + 2)
      else x :: replace_pass fuel' ids pair idx (i + 1)
    end
  end.

(** What the scan has found so far is a registered pair with an id no
    larger than any registered pair among the entries read. *)
Definition lowest_of (M : gmap (num * num) num) (seen : list (Z * Z))
    (best : option (Z * Z * Z)) : Prop :=
  match best with
  | Some (a, b, idx) =>
    (a, b) ∈ seen /\ M !! (Int a, Int b) = Some (Int idx) /\
    forall a' b' idx', (a', b') ∈ seen ->
      M !! (Int a', Int b') = Some (Int idx') -> idx <= idx'
  | None =>
    forall a' b' idx', (a', b') ∈ seen ->
      M !! (Int a', Int b') <> Some (Int idx')
  end.

(** A rule of three integers, as [parse_line] gives it. *)
Definition as_rule (r : Z * Z * Z) : num * num * num :=
  (Int r.1.1, Int r.1.2, Int r.2).

(** The selection as the design document words it: the earliest-defined
    rule, in definition order, whose pair is adjacent in the sequence. *)
Definition earliest_defined (rules : list (Z * Z * Z)) (ids : list Z)
    : option (Z * Z * Z) :=
  find (fun r => bool_decide (r.1 ∈ adjacent_pairs ids)) rules.

(** Ids strictly increase in definition order, and no pair is defined
    twice. *)
Definition ids_follow_definition_order (rules : list (Z * Z * Z)) : Prop :=
  StronglySorted (fun r r' => r.2 < r'.2) rules /\ NoDup rules.*1.

(** A printable character is a scalar value that is neither a control
    character nor the byte order mark; the predicate asks no more. *)
Definition is_printable (c : Z) : bool :=
  is_scalar c && (0x20 <=? c) && negb ((0x7F <=? c) && (c <=? 0x9F))
  && negb (c =? 0xFEFF).

(** Every cached array is the encoding of its text under the merge table
    of the tokenizer. *)
Definition cache_consistent (tk : BPETokenizer) (h : heap) : Prop :=
  forall t l, cache tk !! t = Some l ->
    h !! l = Some (bpe (merges tk) (TextEncoder_encode t)).

(** A line that is read as a rule defines an id the vocabulary does not
    have yet. *)
Definition defines_new_id (tk : BPETokenizer) (line : text) : Prop :=
  match parse_line line with
  | Some (_, _, idx) => vocab tk !! idx = None
  | None => True
  end.

(** Every line does, in the state [load] has reached when it reads it. *)
Fixpoint all_define_new_ids (tk : BPETokenizer) (lines : list text) : Prop :=
  match lines with
  | [] => True
  | line :: rest =>
    defines_new_id tk line /\ all_define_new_ids (load_line tk line) rest
  end.

(** The ways the awaited steps at the top of [load] fail. *)
Definition load_fails (f : fetched) : Prop :=
  match f with
  | FetchRejected | Response false _ | Response true None => True
  | Response true (Some _) => False
  end.

(** The ids of the base vocabulary. *)
Definition is_byte (id : Z) : bool := (0 <=? id) && (id <? 256).

(** ** The mutex *)

(** The mutex after [n] calls of [generate]. *)
Fixpoint chain (n : nat) : promise :=
  match n with
  | O => Resolved
  | S n' => Then (chain n') (Deferred n')
  end.

(** A call that has the mutex: it is inside [_generate], or between the
    end of [_generate] and its [release()]. *)
Definition holding (ph : phase) : bool :=
  match ph with
  | AwaitRun _ _ _ _ _ | Finishing _ => true
  | AwaitMutex | Settled _ => false
  end.

(** A call whose promise has settled. *)
Definition settled (ph : phase) : bool :=
  match ph with
  | Settled _ => true
  | _ => false
  end.

(** The events of call [c]: runs it has invoked, runs of it that have
    settled. *)
Definition is_invocation (c : nat) (ev : event) : bool :=
  match ev with
  | RunInvoked c' _ => bool_decide (c' = c)
  | RunSettled _ => false
  end.

Definition is_settlement (c : nat) (ev : event) : bool :=
  match ev with
  | RunSettled c' => bool_decide (c' = c)
  | RunInvoked _ _ => false
  end.

Fixpoint count_events (f : event -> bool) (tr : list event) : nat :=
  match tr with
  | [] => 0
  | ev :: rest => (if f ev then 1 else 0) + count_events f rest
  end.

(** The runs a call is waiting for. *)
Definition pending_runs (ph : phase) : nat :=
  match ph with
  | AwaitRun _ _ _ _ _ => 1
  | _ => 0
  end.

(** An engine on which [generate] has not been called yet. *)
Definition idle (e : AstroEngine) : Prop :=
  calls e = [] /\ generationMutex e = Resolved /\ released e = [] /\
  trace e = [].

(** What every state reached from an idle engine satisfies. *)
Record mutex_invariant (e : AstroEngine) : Prop := {
  inv_mutex : generationMutex e = chain (length (calls e));
  inv_current : forall c k, calls e !! c = Some k ->
    current k = chain c /\ release k = c;
  inv_released : forall c, c ∈ released e <->
    exists k, calls e !! c = Some k /\ settled (state k) = true;
  inv_holder : forall c k, calls e !! c = Some k ->
    holding (state k) = true ->
    forall c', (c' < c)%nat -> c' ∈ released e;
  inv_trace : forall ev, ev ∈ trace e ->
    forall c', (c' < event_call ev)%nat -> c' ∈ released e;
  inv_sorted : forall i j ev1 ev2, (i < j)%nat ->
    trace e !! i = Some ev1 -> trace e !! j = Some ev2 ->
    (event_call ev1 <= event_call ev2)%nat;
  inv_closed : forall c c', c ∈ released e -> (c' < c)%nat ->
    c' ∈ released e;
  inv_known : forall ev, ev ∈ trace e ->
    (event_call ev < length (calls e))%nat;
  inv_balance : forall c k, calls e !! c = Some k ->
    count_events (is_invocation c) (trace e) =
    (count_events (is_settlement c) (trace e) + pending_runs (state k))%nat;
}.

(** What the decode loop of call [c] keeps true: the array [l] the cache
    holds for the prompt starts with [ids] and has grown. *)
Definition grown (tk : BPETokenizer) (l : loc) (ids : list Z) (c : nat)
    (e : AstroEngine) : Prop :=
  tokenizer e = tk /\
  (exists extra, extra <> [] /\ arrays e !! l = Some (ids ++ extra)) /\
  (forall k t g i n pd, calls e !! c = Some k ->
     state k = AwaitRun t g i n pd -> t = l).


(** ** Sampling *)

(** A number that is not below zero: a zero of either sign, a positive
    number, +Infinity, or NaN. *)
Definition not_negative (x : spec_float) : bool := negb (SFltb x f64_zero).

(** A number other than NaN and the infinities. *)
Definition is_finite (x : spec_float) : bool :=
  match x with
  | S754_zero _ | S754_finite _ _ _ => true
  | S754_infinity _ | S754_nan => false
  end.

(** The sign bit of a number, if it has one. *)
Definition sign_of (x : spec_float) : option bool :=
  match x with
  | S754_zero s | S754_infinity s | S754_finite s _ _ => Some s
  | S754_nan => None
  end.

(** The indices the top-K filter keeps and the ones it suppresses. *)
Definition kept_indices (scaledLogits : list spec_float) (topK : Z)
    : list nat :=
  take (Z.to_nat topK) (sorted_indices scaledLogits).

Definition suppressed_indices (scaledLogits : list spec_float) (topK : Z)
    : list nat :=
  drop (Z.to_nat topK) (sorted_indices scaledLogits).

(** ** Stand-ins to run the engine on *)

(** [Math.exp] at the arguments where ECMAScript fixes its value: NaN,
    the zeros and the infinities. Elsewhere an engine returns an
    approximation, for which 1 stands here; the examples do not depend
    on it. *)
Definition exp_at_fixed_points (x : spec_float) : spec_float :=
  match x with
  | S754_nan => S754_nan
  | S754_infinity false => x
  | S754_infinity true => f64_zero
  | _ => f64_one
  end.

Definition f64_half : spec_float := S754_finite false 4503599627370496 (-53).

(** A [Math.random] that returns 0.5 every time. *)
Definition always_half (n : nat) : spec_float := f64_half.

(** A session over a vocabulary of three ids that scores id 1 highest at
    every position, and raises on the run numbered [fail_at]. *)
Definition stub_session (fail_at : option nat) : InferenceSession :=
  fun n ids =>
    if bool_decide (fail_at = Some n) then Throws (SessionError 7)
    else Returns {| dims := (1, Z.of_nat (length ids), 3);
                    data := concat (map (fun _ => [f64_zero; f64_one; f64_zero])
                                        ids) |}.

(** ** Inputs of the examples *)

Definition one_token : GenerationOptions :=
  {| maxTokens := Some 1; temperature := None; topK := Some 1 |}.

Definition two_tokens : GenerationOptions :=
  {| maxTokens := Some 2; temperature := None; topK := Some 1 |}.

(** Two calls made in a row on a new engine. *)
Definition two_queued : AstroEngine :=
  generate_call (text_of_string "b") two_tokens
    (generate_call (text_of_string "a") two_tokens
       (ready_engine new_BPETokenizer (stub_session None))).

Definition first_call : call :=
  {| prompt := text_of_string "a"; options := two_tokens;
     current := Resolved; release := 0; state := AwaitMutex |}.

(** An engine whose session raises on its second run. *)
Definition failing_engine : AstroEngine :=
  ready_engine new_BPETokenizer (stub_session (Some 1%nat)).

Definition queued_on_failing : AstroEngine :=
  generate_call (text_of_string "b") two_tokens
    (generate_call (text_of_string "a") two_tokens failing_engine).

(** The first call once it has entered its decode loop, and the engine
    once the first run has settled and the second is pending. *)
Definition first_call_running : call :=
  with_state first_call
    (AwaitRun 0 [] 0 0
       (Returns {| dims := (1, 1, 3);
                   data := [f64_zero; f64_one; f64_zero] |})).

Definition before_failure : AstroEngine :=
  resume exp_at_fixed_points always_half 0 first_call_running 0 [] 0 0
    (Returns {| dims := (1, 1, 3); data := [f64_zero; f64_one; f64_zero] |})
    (enter 0 first_call queued_on_failing).

(** Two rules whose ids decrease in definition order. *)
Definition rules_300_256 : list (Z * Z * Z) := [(97, 98, 300); (98, 99, 256)].

Definition lines_300_256 : list text :=
  [text_of_string "97 98 300"; text_of_string "98 99 256"].

(** The logits [0.1, 5.0, 0.2] as a [Float32Array] holds them. *)
Definition example_logits : list spec_float :=
  [S754_finite false 7205759511166976 (-56);
   S754_finite false 5629499534213120 (-50);
   S754_finite false 7205759511166976 (-55)].

(** The temperature 2^200, about 1.6e60. *)
Definition temperature_2_200 : spec_float :=
  S754_finite false 4503599627370496 148.

(** The logits [2^127, 0, 0]; 2^127 is about 1.7e38, a [Float32Array]
    holds it exactly. *)
Definition overflowing_logits : list spec_float :=
  [S754_finite false 4503599627370496 75; f64_zero; f64_zero].

(** ** [init] and the life of the engine object *)

(** Where a call of [_init] is: at one of its two [await]s, returned,
    thrown with the [catch] handler that [init] has attached still to
    run, or thrown with that handler run. *)
Inductive init_phase :=
  | AwaitLoad
  | AwaitCreate
  | InitFulfilled
  | InitRejected (err : error)
  | InitReset (err : error).

(** What a call of [init] has returned: at once (line 44), or the promise
    made for the [n]-th call of [_init] (lines 45-51). *)
Inductive init_result :=
  | AtOnce
  | Shared (n : nat).

(** The engine object with the part of it that [init] works on; the
    calls of [_init] and of [init] made so far are kept in order. *)
Record Lifecycle := {
  engine : AstroEngine;
  initPromise : option nat;
  attempts : list init_phase;
  init_calls : list init_result;
}.

(** [new AstroEngine()] *)
Definition new_AstroEngine : AstroEngine :=
  {| session := None; tokenizer := new_BPETokenizer; isInitialized := false;
     generationMutex := Resolved; arrays := []; released := [];
     calls := []; runs := 0; trace := [] |}.

(** The singleton of line 229. *)
Definition astroEngine : Lifecycle :=
  {| engine := new_AstroEngine; initPromise := None; attempts := [];
     init_calls := [] |}.

(** [get ready] *)
Definition ready (s : Lifecycle) : bool := isInitialized (engine s).

(** [init], up to the first [await] of the [_init] it may start. *)
Definition init (s : Lifecycle) : Lifecycle :=
  if isInitialized (engine s) then
    {| engine := engine s; initPromise := initPromise s;
       attempts := attempts s; init_calls := init_calls s ++ [AtOnce] |}
  else match initPromise s with
       | Some n =>
         {| engine := engine s; initPromise := initPromise s;
            attempts := attempts s;
            init_calls := init_calls s ++ [Shared n] |}
       | None =>
         let n := length (attempts s) in
         {| engine := engine s; initPromise := Some n;
            attempts := attempts s ++ [AwaitLoad];
            init_calls := init_calls s ++ [Shared n] |}
       end.

(** [_init] resumes after [await this.tokenizer.load()]: a rejection would
    go to its [catch] clause and be thrown again. *)
Definition loaded (n : nat) (f : fetched) (s : Lifecycle) : Lifecycle :=
  let '(tk, _, out) := load default_url f (tokenizer (engine s)) in
  {| engine := with_tokenizer tk (engine s);
     initPromise := initPromise s;
     attempts := <[n := match out with
                        | Returns _ => AwaitCreate
                        | Throws err => InitRejected err
                        end]> (attempts s);
     init_calls := init_calls s |}.

(** [_init] resumes after [await ort.InferenceSession.create(...)]. *)
Definition created (n : nat) (out : outcome InferenceSession)
    (s : Lifecycle) : Lifecycle :=
  match out with
  | Returns run =>
    {| engine := initialized run (engine s);
       initPromise := initPromise s;
       attempts := <[n := InitFulfilled]> (attempts s);
       init_calls := init_calls s |}
  | Throws err =>
    {| engine := engine s; initPromise := initPromise s;
       attempts := <[n := InitRejected err]> (attempts s);
       init_calls := init_calls s |}
  end.

(** The handler of lines 47-50 runs. *)
Definition caught (n : nat) (err : error) (s : Lifecycle) : Lifecycle :=
  {| engine := engine s; initPromise := None;
     attempts := <[n := InitReset err]> (attempts s);
     init_calls := init_calls s |}.

(** How the promise a call of [init] has returned has settled, if it
    has. *)
Definition init_settled (s : Lifecycle) (r : init_result)
    : option (outcome unit) :=
  match r with
  | AtOnce => Some (Returns tt)
  | Shared n =>
    match attempts s !! n with
    | Some InitFulfilled => Some (Returns tt)
    | Some (InitReset err) => Some (Throws err)
    | _ => None
    end
  end.

Definition on_engine (e : AstroEngine) (s : Lifecycle) : Lifecycle :=
  {| engine := e; initPromise := initPromise s; attempts := attempts s;
     init_calls := init_calls s |}.

Section Life.

Variable Math_exp : spec_float -> spec_float.
Variable Math_random : nat -> spec_float.

(** One step in the life of the engine object: [init] or [generate] is
    called, or a call of [_init] or [generate] in flight resumes. *)
Inductive life_step : Lifecycle -> Lifecycle -> Prop :=
  | life_init s :
      life_step s (init s)
  | life_loaded n f s :
      attempts s !! n = Some AwaitLoad ->
      life_step s (loaded n f s)
  | life_created n out s :
      attempts s !! n = Some AwaitCreate ->
      life_step s (created n out s)
  | life_caught n err s :
      attempts s !! n = Some (InitRejected err) ->
      life_step s (caught n err s)
  | life_generate p o s :
      life_step s (on_engine (generate_call p o (engine s)) s)
  | life_acquired c k s :
      calls (engine s) !! c = Some k ->
      state k = AwaitMutex ->
      fulfilled (released (engine s)) (current k) = true ->
      life_step s (on_engine (enter c k (engine s)) s)
  | life_run_settled c k tokens generatedTokens i n pending s :
      calls (engine s) !! c = Some k ->
      state k = AwaitRun tokens generatedTokens i n pending ->
      life_step s
        (on_engine (resume Math_exp Math_random c k tokens generatedTokens
                           i n pending (engine s)) s)
  | life_finally c k result s :
      calls (engine s) !! c = Some k ->
      state k = Finishing result ->
      life_step s (on_engine (finally c k result (engine s)) s).

Inductive life_steps : Lifecycle -> Lifecycle -> Prop :=
  | life_refl s : life_steps s s
  | life_more s1 s2 s3 :
      life_steps s1 s2 -> life_step s2 s3 -> life_steps s1 s3.

End Life.

(** ** Notions for the further properties

    The tokenizer. *)

(** What the encoder reads a code point as: a lone surrogate counts as
    U+FFFD. *)
Definition scalar_value (c : Z) : Z := if is_scalar c then c else 0xFFFD.

(** Every rule between integer ids is spelled out in the vocabulary: the
    bytes of the new id are those of the left id followed by those of the
    right one. *)
Definition rules_spelled (tk : BPETokenizer) : Prop :=
  forall a b idx, merges tk !! (Int a, Int b) = Some (Int idx) ->
    exists va vb, vocab tk !! Int a = Some va /\ vocab tk !! Int b = Some vb /\
                  vocab tk !! Int idx = Some (va ++ vb).

(** A line that is read as a rule combines two ids the vocabulary has
    into one it does not have yet. *)
Definition combines_known_ids (tk : BPETokenizer) (line : text) : Prop :=
  match parse_line line with
  | Some (p0, p1, idx) =>
    vocab tk !! idx = None /\ is_Some (vocab tk !! p0) /\
    is_Some (vocab tk !! p1)
  | None => True
  end.

(** Every line does, in the state [load] has reached when it reads it. *)
Fixpoint all_combine_known_ids (tk : BPETokenizer) (lines : list text)
    : Prop :=
  match lines with
  | [] => True
  | line :: rest =>
    combines_known_ids tk line /\
    all_combine_known_ids (load_line tk line) rest
  end.

(** The rule a line is read as finds its two ids and its result in the
    vocabulary. *)
Definition line_spelled (V : gmap num (list Z)) (line : text) : Prop :=
  match parse_line line with
  | Some (p0, p1, idx) =>
    exists v0 v1, V !! p0 = Some v0 /\ V !! p1 = Some v1 /\
                  V !! idx = Some (v0 ++ v1)
  | None => True
  end.

(** A line as a file with CRLF line ends gives it: with a carriage return
    at its end. *)
Definition with_cr (line : text) : text := line ++ [13].

(** [parseInt] by its steps in ECMAScript: the sign, the radix prefix,
    the digits. *)
Definition read_sign (s : text) : Z * text :=
  match s with
  | c :: rest =>
    if c =? 45 then (-1, rest) else if c =? 43 then (1, rest) else (1, s)
  | [] => (1, [])
  end.

Definition read_radix (s : text) : Z * text :=
  match s with
  | c1 :: c2 :: rest =>
    if (c1 =? 48) && ((c2 =? 120) || (c2 =? 88)) then (16, rest) else (10, s)
  | _ => (10, s)
  end.

Definition read_number (s : text) : num :=
  let '(sign, s1) := read_sign s in
  let '(radix, s2) := read_radix s1 in
  match parse_digits radix None s2 with
  | None => NaN
  | Some n => Int (sign * n)
  end.

(** A decimal numeral: one or more of the digits 0 to 9; and the number
    it denotes. *)
Definition is_digit (c : Z) : bool := (48 <=? c) && (c <=? 57).

Definition is_numeral (s : text) : bool :=
  forallb is_digit s && negb (bool_decide (s = [])).

Definition numeral_value (s : text) : Z :=
  fold_left (fun acc c => acc * 10 + (c - 48)) s 0.

(** [Number.MAX_SAFE_INTEGER]: up to it, every integer is a JavaScript
    number. *)
Definition max_safe_integer : Z := 2 ^ 53 - 1.

(** A result of [parseInt] that is the number the numeral denotes: [NaN],
    or an integer of size up to [Number.MAX_SAFE_INTEGER]. A longer
    numeral is read as the nearest binary64, so that two numerals can be
    read as one number; the model's integers are exact, and agree with
    the code's on this range. *)
Definition read_exactly (n : num) : bool :=
  match n with
  | NaN => true
  | Int z => (- max_safe_integer <=? z) && (z <=? max_safe_integer)
  end.

(** A line whose three fields, if it is read as a rule, are read
    exactly. *)
Definition reads_safe_integers (line : text) : bool :=
  match parse_line line with
  | Some (p0, p1, idx) =>
    read_exactly p0 && read_exactly p1 && read_exactly idx
  | None => true
  end.

(** The line [a b idx] with one space between its fields. *)
Definition rule_line (a b idx : text) : text := a ++ 32 :: b ++ 32 :: idx.

(** The count a [Map] of [getStats] holds for a pair; 0 when the pair is
    not a key. *)
Fixpoint count_in (counts : list (Z * Z * nat)) (p : Z * Z) : nat :=
  match counts with
  | [] => 0
  | (k, n) :: rest => if decide (k = p) then n else count_in rest p
  end.

(** The number of positions at which a pair occurs in a sequence. *)
Definition occurrences (p : Z * Z) (ids : list Z) : nat :=
  length (filter (fun q => q = p) (adjacent_pairs ids)).

(** An id the vocabulary has an entry for. *)
Definition known (tk : BPETokenizer) (id : Z) : bool :=
  bool_decide (is_Some (vocab tk !! Int id)).

(** Sampling and the decode loop. *)

(** A number other than NaN. *)
Definition is_number (x : spec_float) : bool :=
  match x with S754_nan => false | _ => true end.

(** No score is NaN. *)
Definition no_nan (s : list spec_float) : bool := forallb is_number s.

(** Index [a] ranks before index [b]: its score is the higher one, or
    neither score is below the other and [a] is the lower index. *)
Definition ranks_before (s : list spec_float) (a b : nat) : Prop :=
  SFltb (read s b) (read s a) = true \/
  (SFltb (read s a) (read s b) = false /\ (a < b)%nat).

(** [j] is the first index that holds the highest score. *)
Definition highest_scoring (s : list spec_float) (j : nat) : bool :=
  (j <? length s)%nat &&
  forallb (fun i => negb (SFltb (read s j) (read s i)) &&
                    ((j <=? i)%nat || SFltb (read s i) (read s j)))
          (seq 0 (length s)).

(** The place of a number in the order of [<]: the infinities at the two
    ends, the two zeros together in the middle, a finite number by its
    sign, then its exponent, then its mantissa. *)
Definition rank (x : spec_float) : Z * Z * Z :=
  match x with
  | S754_infinity true => (-2, 0, 0)
  | S754_finite true m e => (-1, - e, - Z.pos m)
  | S754_zero _ | S754_nan => (0, 0, 0)
  | S754_finite false m e => (1, e, Z.pos m)
  | S754_infinity false => (2, 0, 0)
  end.

Definition lex_lt (a b : Z * Z * Z) : Prop :=
  a.1.1 < b.1.1 \/
  (a.1.1 = b.1.1 /\ (a.1.2 < b.1.2 \/ (a.1.2 = b.1.2 /\ a.2 < b.2))).

(** Rounding to a format, as [binary_round_aux] does it: the places
    [shr_fexp] shifts a mantissa to the right, and the number the last
    step makes of the rounded mantissa. *)
Definition shift_of (prec emax m e : Z) : Z :=
  Z.max 0 (fexp prec emax (Zdigits2 m + e) - e).

Definition packed (prec emax : Z) (s : bool) (m e : Z) : spec_float :=
  match m with
  | Z0 => S754_zero s
  | Z.pos p => if e <=? emax - prec then S754_finite s p e
               else S754_infinity s
  | Z.neg _ => S754_nan
  end.

(** A tensor of logits whose data is [seq_len] rows of [vocab_size]
    scores, with at least one row and one column. *)
Definition well_shaped (logits : tensor) : Prop :=
  let '(_, seqLen, vocabSize) := dims logits in
  0 < seqLen /\ 0 < vocabSize /\
  Z.of_nat (length (data logits)) = seqLen * vocabSize.

(** The last row of the data. *)
Definition last_row (logits : tensor) : list spec_float :=
  let '(_, seqLen, vocabSize) := dims logits in
  take (Z.to_nat vocabSize)
       (drop (Z.to_nat ((seqLen - 1) * vocabSize)) (data logits)).

(** The steps a call has ahead of it at most, the last being its
    [release()]. *)
Definition remaining (k : call) : nat :=
  match state k with
  | AwaitMutex => iterations (options k) + 3
  | AwaitRun _ _ i _ _ => iterations (options k) - i + 2
  | Finishing _ => 1
  | Settled _ => 0
  end.

(** The events of a call [c] that runs the session [n] times on a prompt
    of ids [ids] and samples [generated]: the input of a run is the
    prompt followed by the tokens sampled so far. *)
Definition runs_of (c : nat) (ids generated : list Z) (n : nat)
    : list event :=
  flat_map (fun j => [RunInvoked c (map to_int64 (ids ++ take j generated));
                      RunSettled c])
           (seq 0 n).

(** A session that returns logits on every run. *)
Definition never_fails (run : InferenceSession) : Prop :=
  forall n input, exists logits, run n input = Returns logits.

(** The life of the engine object. *)

(** A call of [_init] that has neither thrown and been reset nor
    returned. *)
Definition in_flight (ph : init_phase) : bool :=
  match ph with
  | AwaitLoad | AwaitCreate | InitRejected _ => true
  | InitFulfilled | InitReset _ => false
  end.

Definition was_reset (ph : init_phase) : Prop := exists err, ph = InitReset err.

(** The cached array of a text starts with the encoding of the text under
    the merge table of the tokenizer. *)
Definition cache_prefixed (tk : BPETokenizer) (h : heap) : Prop :=
  forall t l, cache tk !! t = Some l ->
    exists extra,
      h !! l = Some (bpe (merges tk) (TextEncoder_encode t) ++ extra).

(** What every state in the life of the engine object satisfies. *)
Record life_invariant (s : Lifecycle) : Prop := {
  li_earlier : forall n ph, attempts s !! n = Some ph ->
    (S n < length (attempts s))%nat -> was_reset ph;
  li_promise : initPromise s =
    match last (attempts s) with
    | None | Some (InitReset _) => None
    | Some _ => Some (length (attempts s) - 1)%nat
    end;
  li_ready : isInitialized (engine s) = true <->
    last (attempts s) = Some InitFulfilled;
  li_session : isInitialized (engine s) = true <->
    is_Some (session (engine s));
  li_cold : isInitialized (engine s) = false ->
    cache (tokenizer (engine s)) = ∅;
  li_cache : cache_prefixed (tokenizer (engine s)) (arrays (engine s));
  li_at_once : AtOnce ∈ init_calls s -> isInitialized (engine s) = true;
}.

(** ** Inputs of the further examples *)

(** A merges file of two rules, the second built on the first. *)
Definition two_rules : text :=
  text_of_string "97 98 256" ++ 10 :: text_of_string "256 99 257".

(** Logits of two rows over a vocabulary of three ids. *)
Definition two_rows : tensor :=
  {| dims := (1, 2, 3);
     data := [f64_zero; f64_one; f64_zero; f64_zero; f64_zero; f64_one] |}.

(** The engine object after a first call of [init]; and once the
    merges could not be fetched and the session has been created. *)
Definition awaiting_load : Lifecycle := init astroEngine.

Definition engine_up : Lifecycle :=
  created 0 (Returns (stub_session None))
          (loaded 0 FetchRejected awaiting_load).

(** Two calls of [generate] made in a row on that engine object. *)
Definition two_calls : Lifecycle :=
  on_engine (generate_call (text_of_string "b") two_tokens
               (generate_call (text_of_string "a") two_tokens
                  (engine engine_up)))
            engine_up.

(** * Properties *)

(** ** UTF-8 *)

Lemma land_shifted_low x y n :
  0 <= n -> 0 <= y < 2 ^ n -> Z.land (x * 2 ^ n) y = 0.
Proof.
  intros Hn Hy. apply Z.bits_inj'. intros i Hi.
  rewrite Z.land_spec, Z.bits_0.
  destruct (Z.lt_ge_cases i n) as [Hlt | Hge].
  - rewrite Z.mul_pow2_bits_low by lia. reflexivity.
  - replace (Z.testbit y i) with false; [apply andb_false_r |].
    symmetry. destruct (Z.eq_dec y 0) as [-> | Hy0]; [apply Z.bits_0 |].
    apply Z.bits_above_log2; [lia |].
    apply Z.log2_lt_pow2; [lia |].
    apply Z.lt_le_trans with (2 ^ n); [lia |].
    apply Z.pow_le_mono_r; lia.
Qed.

Lemma lor_shifted x y n :
  0 <= n -> 0 <= y < 2 ^ n -> Z.lor (x * 2 ^ n) y = x * 2 ^ n + y.
Proof.
  intros Hn Hy.
  rewrite <- Z.lxor_lor by (apply land_shifted_low; assumption).
  symmetry. apply Z.add_nocarry_lxor, land_shifted_low; assumption.
Qed.

Lemma lor_0x80 y : 0 <= y < 64 -> Z.lor 0x80 y = 128 + y.
Proof. intros Hy. apply (lor_shifted 2 y 6); lia. Qed.

Lemma land_0x3F x : Z.land x 0x3F = x mod 64.
Proof. apply (Z.land_ones x 6). lia. Qed.

Lemma land_0x1F x : Z.land x 0x1F = x mod 32.
Proof. apply (Z.land_ones x 5). lia. Qed.

Lemma land_0xF x : Z.land x 0xF = x mod 16.
Proof. apply (Z.land_ones x 4). lia. Qed.

Lemma land_0x7 x : Z.land x 0x7 = x mod 8.
Proof. apply (Z.land_ones x 3). lia. Qed.

Lemma continuation_byte x :
  Z.lor 0x80 (Z.land x 0x3F) = 128 + x mod 64.
Proof. rewrite land_0x3F. apply lor_0x80. apply Z.mod_pos_bound. lia. Qed.

Lemma push_continuation cp x :
  Z.lor (Z.shiftl cp 6) (Z.land (128 + x mod 64) 0x3F) = cp * 64 + x mod 64.
Proof.
  rewrite land_0x3F, Z.shiftl_mul_pow2 by lia.
  replace ((128 + x mod 64) mod 64) with (x mod 64)
    by (pose proof (Z.mod_pos_bound x 64); Z.div_mod_to_equations; lia).
  apply (lor_shifted cp (x mod 64) 6); [lia |]. apply Z.mod_pos_bound. lia.
Qed.

Ltac in_range :=
  repeat match goal with
  | |- context [?a <=? ?b] =>
      first [ replace (a <=? b) with true by (symmetry; apply Z.leb_le; Z.div_mod_to_equations; lia)
            | replace (a <=? b) with false by (symmetry; apply Z.leb_gt; Z.div_mod_to_equations; lia) ]
  | |- context [?a <? ?b] =>
      first [ replace (a <? b) with true by (symmetry; apply Z.ltb_lt; Z.div_mod_to_equations; lia)
            | replace (a <? b) with false by (symmetry; apply Z.ltb_ge; Z.div_mod_to_equations; lia) ]
  | |- context [?a =? ?b] =>
      first [ replace (a =? b) with true by (symmetry; apply Z.eqb_eq; Z.div_mod_to_equations; lia)
            | replace (a =? b) with false by (symmetry; apply Z.eqb_neq; Z.div_mod_to_equations; lia) ]
  end.

Lemma is_scalar_spec c :
  is_scalar c = true <-> (0 <= c < 0xD800 \/ 0xDFFF < c <= 0x10FFFF).
Proof. unfold is_scalar, is_surrogate. lia. Qed.

Lemma utf8_decode_encode_scalar c rest :
  is_scalar c = true ->
  utf8_decode None (utf8_encode_scalar c ++ rest) = c :: utf8_decode None rest.
Proof.
  intros Hc. apply is_scalar_spec in Hc. unfold utf8_encode_scalar.
  destruct (Z.ltb_spec c 0x80) as [H1 | H1];
    [| destruct (Z.ltb_spec c 0x800) as [H2 | H2];
       [| destruct (Z.ltb_spec c 0x10000) as [H3 | H3]]].
  - cbn [app utf8_decode]. unfold utf8_lead. in_range. reflexivity.
  - rewrite !continuation_byte, !Z.shiftr_div_pow2 by lia.
    cbn [app utf8_decode]. unfold utf8_lead. in_range.
    cbn [lower_boundary upper_boundary bytes_needed code_point andb app].
    in_range. cbn [andb]. rewrite push_continuation, land_0x1F.
    f_equal. Z.div_mod_to_equations; lia.
  - rewrite !continuation_byte, !Z.shiftr_div_pow2 by lia.
    cbn [app utf8_decode]. unfold utf8_lead. in_range.
    cbn [lower_boundary upper_boundary bytes_needed code_point andb app].
    in_range.
    destruct (Z.eqb_spec (c / 2 ^ 12 + 224) 224);
      destruct (Z.eqb_spec (c / 2 ^ 12 + 224) 237);
      in_range; cbn [andb]; rewrite !push_continuation, land_0xF;
      f_equal; Z.div_mod_to_equations; lia.
  - rewrite !continuation_byte, !Z.shiftr_div_pow2 by lia.
    cbn [app utf8_decode]. unfold utf8_lead. in_range.
    cbn [lower_boundary upper_boundary bytes_needed code_point andb app].
    in_range.
    destruct (Z.eqb_spec (c / 2 ^ 18 + 240) 240);
      destruct (Z.eqb_spec (c / 2 ^ 18 + 240) 244);
      in_range; cbn [andb]; rewrite !push_continuation, land_0x7;
      f_equal; Z.div_mod_to_equations; lia.
Qed.

Lemma utf8_decode_encode t :
  forallb is_scalar t = true ->
  utf8_decode None (TextEncoder_encode t) = t.
Proof.
  induction t as [| c t IH]; intros Ht; [reflexivity |].
  cbn [forallb] in Ht. apply andb_true_iff in Ht as [Hc Ht].
  cbn [TextEncoder_encode flat_map]. unfold utf8_encode_cp. rewrite Hc.
  rewrite utf8_decode_encode_scalar by assumption.
  f_equal. apply IH, Ht.
Qed.


(** ** The merge loop *)



Lemma bump_keys key counts :
  (bump key counts).*1 =
  if bool_decide (key ∈ counts.*1) then counts.*1 else counts.*1 ++ [key].
Proof.
  induction counts as [| [k n] counts IH]; [reflexivity |].
  cbn [bump]. destruct (decide (k = key)) as [-> | Hne].
  - rewrite bool_decide_eq_true_2 by (cbn; left). reflexivity.
  - cbn [fmap list_fmap fst] in *. rewrite IH.
    destruct (bool_decide_reflect (key ∈ counts.*1)) as [Hin | Hout].
    + rewrite bool_decide_eq_true_2 by (right; exact Hin). reflexivity.
    + rewrite bool_decide_eq_false_2; [reflexivity |].
      intros Hin. apply elem_of_cons in Hin as [-> | Hin]; tauto.
Qed.

Lemma bump_elem key counts p :
  p ∈ (bump key counts).*1 <-> p = key \/ p ∈ counts.*1.
Proof.
  rewrite bump_keys. case_bool_decide as Hk.
  - split; [tauto | intros [-> | H]; assumption].
  - rewrite elem_of_app, list_elem_of_singleton. tauto.
Qed.

Lemma getStats_from_elem ids counts p :
  p ∈ (getStats_from ids counts).*1 <->
  p ∈ adjacent_pairs ids \/ p ∈ counts.*1.
Proof.
  revert counts. induction ids as [| a [| b rest] IH]; intros counts.
  - cbn. rewrite elem_of_nil. tauto.
  - cbn. rewrite elem_of_nil. tauto.
  - change (getStats_from (a :: b :: rest) counts)
      with (getStats_from (b :: rest) (bump (a, b) counts)).
    rewrite IH, bump_elem.
    change (adjacent_pairs (a :: b :: rest))
      with ((a, b) :: adjacent_pairs (b :: rest)).
    rewrite elem_of_cons. tauto.
Qed.

Lemma getStats_elem ids p :
  p ∈ (getStats ids).*1 <-> p ∈ adjacent_pairs ids.
Proof.
  unfold getStats. rewrite getStats_from_elem. cbn.
  rewrite elem_of_nil. tauto.
Qed.


Lemma scan_step_lowest M seen best a b n :
  lowest_of M seen best ->
  lowest_of M (seen ++ [(a, b)]) (scan_step M best (a, b, n)).
Proof.
  intros Hbest. unfold scan_step.
  destruct (M !! (Int a, Int b)) as [[| idx] |] eqn:Hab.
  - destruct best as [[[a0 b0] i0] |]; cbn in *.
    + destruct Hbest as (Hin & Hm & Hmin). split; [| split].
      * apply elem_of_app. left. exact Hin.
      * exact Hm.
      * intros a' b' idx' Hin' Hm'. apply elem_of_app in Hin' as [Hin' | Hin'].
        -- eapply Hmin; eassumption.
        -- apply list_elem_of_singleton in Hin'. congruence.
    + intros a' b' idx' Hin' Hm'. apply elem_of_app in Hin' as [Hin' | Hin'].
      * eapply Hbest; eassumption.
      * apply list_elem_of_singleton in Hin'. congruence.
  - destruct best as [[[a0 b0] i0] |]; cbn in *.
    + destruct Hbest as (Hin & Hm & Hmin).
      destruct (Z.ltb_spec idx i0) as [Hlt | Hge]; cbn.
      * split; [| split].
        -- apply elem_of_app. right. apply list_elem_of_singleton. reflexivity.
        -- exact Hab.
        -- intros a' b' idx' Hin' Hm'.
           apply elem_of_app in Hin' as [Hin' | Hin'].
           ++ specialize (Hmin _ _ _ Hin' Hm'). lia.
           ++ apply list_elem_of_singleton in Hin'.
              assert (idx' = idx) by congruence. lia.
      * split; [| split].
        -- apply elem_of_app. left. exact Hin.
        -- exact Hm.
        -- intros a' b' idx' Hin' Hm'.
           apply elem_of_app in Hin' as [Hin' | Hin'].
           ++ eapply Hmin; eassumption.
           ++ apply list_elem_of_singleton in Hin'.
              assert (idx' = idx) by congruence. lia.
    + split; [| split].
      * apply elem_of_app. right. apply list_elem_of_singleton. reflexivity.
      * exact Hab.
      * intros a' b' idx' Hin' Hm'.
        apply elem_of_app in Hin' as [Hin' | Hin'].
        -- exfalso. eapply Hbest; eassumption.
        -- apply list_elem_of_singleton in Hin'.
           assert (idx' = idx) by congruence. lia.
  - destruct best as [[[a0 b0] i0] |]; cbn in *.
    + destruct Hbest as (Hin & Hm & Hmin). split; [| split].
      * apply elem_of_app. left. exact Hin.
      * exact Hm.
      * intros a' b' idx' Hin' Hm'. apply elem_of_app in Hin' as [Hin' | Hin'].
        -- eapply Hmin; eassumption.
        -- apply list_elem_of_singleton in Hin'. congruence.
    + intros a' b' idx' Hin' Hm'. apply elem_of_app in Hin' as [Hin' | Hin'].
      * eapply Hbest; eassumption.
      * apply list_elem_of_singleton in Hin'. congruence.
Qed.

Lemma scan_lowest M entries seen best :
  lowest_of M seen best ->
  lowest_of M (seen ++ entries.*1) (fold_left (scan_step M) entries best).
Proof.
  revert seen best. induction entries as [| [[a b] n] entries IH];
    intros seen best Hbest.
  - cbn. rewrite app_nil_r. exact Hbest.
  - cbn [fold_left fmap list_fmap fst].
    change ((a, b) :: entries.*1) with ([(a, b)] ++ entries.*1).
    rewrite app_assoc. apply IH, scan_step_lowest, Hbest.
Qed.

Lemma lowest_of_ext M seen seen' best :
  (forall p, p ∈ seen <-> p ∈ seen') ->
  lowest_of M seen best -> lowest_of M seen' best.
Proof.
  intros Hs. destruct best as [[[a b] idx] |]; cbn.
  - intros (Hin & Hm & Hmin). split; [apply Hs, Hin | split; [exact Hm |]].
    intros a' b' idx' Hin'. apply Hmin, Hs, Hin'.
  - intros Hn a' b' idx' Hin'. apply Hn, Hs, Hin'.
Qed.

Lemma best_pair_lowest M ids :
  lowest_of M (adjacent_pairs ids) (best_pair M ids).
Proof.
  unfold best_pair.
  apply lowest_of_ext with (seen := [] ++ (getStats ids).*1).
  - intros p. cbn [app]. apply getStats_elem.
  - apply scan_lowest. cbn. intros a' b' idx' Hin. inversion Hin.
Qed.

Lemma merge_nil pair idx : merge [] pair idx = [].
Proof. reflexivity. Qed.

Lemma merge_unfold a b rest pair idx :
  merge (a :: b :: rest) pair idx =
  if (a =? pair.1) && (b =? pair.2) then idx :: merge rest pair idx
  else a :: merge (b :: rest) pair idx.
Proof. reflexivity. Qed.

Lemma merge_cons_eq a b rest idx :
  merge (a :: b :: rest) (a, b) idx = idx :: merge rest (a, b) idx.
Proof. cbn. rewrite !Z.eqb_refl. reflexivity. Qed.

Lemma merge_cons_ne x tl pair idx :
  ~ (x = pair.1 /\ head tl = Some pair.2) ->
  merge (x :: tl) pair idx = x :: merge tl pair idx.
Proof.
  intros Hne. destruct tl as [| y tl]; [reflexivity |].
  cbn [merge]. destruct (Z.eqb_spec x pair.1) as [-> | H1];
    destruct (Z.eqb_spec y pair.2) as [-> | H2]; cbn [andb];
    try reflexivity.
  exfalso. apply Hne. split; reflexivity.
Qed.

Lemma merge_length_le ids pair idx :
  (length (merge ids pair idx) <= length ids)%nat.
Proof.
  induction ids as [ids IH] using (induction_ltof1 _ (@length Z)).
  unfold ltof in IH. destruct ids as [| a [| b rest]]; [cbn; lia | cbn; lia |].
  rewrite merge_unfold. destruct ((a =? pair.1) && (b =? pair.2)).
  - cbn [length]. specialize (IH rest). cbn [length] in IH. lia.
  - cbn [length]. specialize (IH (b :: rest)). cbn [length] in IH. lia.
Qed.

Lemma merge_length_lt ids a b idx :
  (a, b) ∈ adjacent_pairs ids ->
  (length (merge ids (a, b) idx) < length ids)%nat.
Proof.
  induction ids as [| x [| y rest] IH]; intros Hin.
  - inversion Hin.
  - inversion Hin.
  - change (adjacent_pairs (x :: y :: rest))
      with ((x, y) :: adjacent_pairs (y :: rest)) in Hin.
    rewrite merge_unfold. cbn [fst snd].
    destruct (Z.eqb_spec x a) as [-> | H1];
      destruct (Z.eqb_spec y b) as [-> | H2]; cbn [andb length].
    1: { pose proof (merge_length_le rest (a, b) idx). lia. }
    all: apply elem_of_cons in Hin as [Heq | Hin]; [congruence |];
      specialize (IH Hin); cbn [length] in IH; lia.
Qed.

Lemma adjacent_pairs_short ids :
  (length ids < 2)%nat -> adjacent_pairs ids = [].
Proof. destruct ids as [| a [| b rest]]; cbn; intros; try reflexivity; lia. Qed.

Lemma best_pair_adjacent M ids a b idx :
  best_pair M ids = Some (a, b, idx) -> (a, b) ∈ adjacent_pairs ids.
Proof.
  intros H. pose proof (best_pair_lowest M ids) as Hl. rewrite H in Hl.
  apply Hl.
Qed.

Lemma merge_rounds_unfold M fuel ids :
  merge_rounds M fuel ids =
  if (length ids <? 2)%nat then Some ids
  else match best_pair M ids with
       | None => Some ids
       | Some (a, b, minIdx) =>
         match fuel with
         | O => None
         | S fuel' => merge_rounds M fuel' (merge ids (a, b) minIdx)
         end
       end.
Proof. destruct fuel; reflexivity. Qed.

Lemma best_pair_short M ids : (length ids < 2)%nat -> best_pair M ids = None.
Proof.
  intros Hlen. unfold best_pair, getStats.
  destruct ids as [| a [| b rest]]; cbn in *; try reflexivity; lia.
Qed.

Lemma merge_rounds_terminates M fuel ids :
  (length ids <= fuel)%nat -> is_Some (merge_rounds M fuel ids).
Proof.
  revert ids. induction fuel as [| fuel IH]; intros ids Hlen;
    rewrite merge_rounds_unfold;
    destruct (Nat.ltb_spec (length ids) 2) as [Hlt | Hge];
    try (eexists; reflexivity); try lia.
  destruct (best_pair M ids) as [[[a b] idx] |] eqn:Hbest;
    [| eexists; reflexivity].
  apply IH. apply best_pair_adjacent in Hbest.
  pose proof (merge_length_lt ids a b idx Hbest). lia.
Qed.

Lemma merge_rounds_more_fuel M fuel fuel' ids r :
  merge_rounds M fuel ids = Some r -> (fuel <= fuel')%nat ->
  merge_rounds M fuel' ids = Some r.
Proof.
  revert fuel' ids. induction fuel as [| fuel IH]; intros fuel' ids;
    rewrite (merge_rounds_unfold M fuel'), merge_rounds_unfold;
    destruct (length ids <? 2)%nat; try (intros; assumption);
    destruct (best_pair M ids) as [[[a b] idx] |];
    try (intros; assumption); try discriminate.
  intros Hr Hle. destruct fuel' as [| fuel']; [lia |].
  apply IH; [exact Hr | lia].
Qed.

Lemma merge_rounds_bpe M fuel ids r :
  merge_rounds M fuel ids = Some r -> bpe M ids = r.
Proof.
  intros Hr. unfold bpe.
  destruct (merge_rounds_terminates M (length ids) ids) as [r' Hr'];
    [lia |].
  rewrite Hr'. cbn.
  destruct (Nat.le_ge_cases fuel (length ids)) as [Hle | Hle].
  - rewrite (merge_rounds_more_fuel _ _ _ _ _ Hr Hle) in Hr'. congruence.
  - rewrite (merge_rounds_more_fuel _ _ _ _ _ Hr' Hle) in Hr. congruence.
Qed.

Lemma bpe_round M ids a b idx :
  best_pair M ids = Some (a, b, idx) ->
  bpe M ids = bpe M (merge ids (a, b) idx).
Proof.
  intros Hbest.
  destruct (merge_rounds_terminates M (length (merge ids (a, b) idx))
              (merge ids (a, b) idx)) as [r Hr]; [lia |].
  rewrite (merge_rounds_bpe _ _ _ _ Hr).
  apply (merge_rounds_bpe M (S (length (merge ids (a, b) idx)))).
  rewrite merge_rounds_unfold.
  destruct (Nat.ltb_spec (length ids) 2) as [Hlt | Hge].
  - rewrite best_pair_short in Hbest by exact Hlt. discriminate.
  - rewrite Hbest. exact Hr.
Qed.

Lemma bpe_done M ids : best_pair M ids = None -> bpe M ids = ids.
Proof.
  intros Hbest. apply (merge_rounds_bpe M 0). rewrite merge_rounds_unfold.
  rewrite Hbest. destruct (length ids <? 2)%nat; reflexivity.
Qed.

Lemma merge_rounds_exhausted M fuel ids r :
  merge_rounds M fuel ids = Some r -> best_pair M r = None.
Proof.
  revert ids. induction fuel as [| fuel IH]; intros ids;
    rewrite merge_rounds_unfold;
    destruct (Nat.ltb_spec (length ids) 2) as [Hlt | Hge];
    try (intros [= <-]; apply best_pair_short, Hlt);
    destruct (best_pair M ids) as [[[a b] idx] |] eqn:Hb;
    try discriminate; try (intros [= <-]; exact Hb).
  apply IH.
Qed.

Lemma bpe_exhausted M ids : best_pair M (bpe M ids) = None.
Proof.
  destruct (merge_rounds_terminates M (length ids) ids) as [r Hr]; [lia |].
  rewrite (merge_rounds_bpe _ _ _ _ Hr).
  eapply merge_rounds_exhausted, Hr.
Qed.

Lemma replace_pass_merge fuel ids pair idx i :
  (length ids <= i + fuel)%nat ->
  replace_pass fuel ids pair idx i = merge (drop i ids) pair idx.
Proof.
  revert i. induction fuel as [| fuel IH]; intros i Hlen.
  - cbn. rewrite drop_ge by lia. reflexivity.
  - cbn [replace_pass]. destruct (ids !! i) as [x |] eqn:Hx.
    + rewrite (drop_S _ _ _ Hx). case_bool_decide as Hm.
      * destruct Hm as [-> Hy]. rewrite (drop_S _ _ _ Hy).
        destruct pair as [p1 p2]. cbn [fst snd]. rewrite merge_cons_eq.
        f_equal. rewrite IH by lia. f_equal. f_equal. lia.
      * rewrite merge_cons_ne.
        -- f_equal. rewrite IH by lia. f_equal. f_equal. lia.
        -- intros [H1 H2]. apply Hm. split; [exact H1 |].
           rewrite head_lookup, lookup_drop, Nat.add_0_r in H2. exact H2.
    + apply lookup_ge_None in Hx. rewrite drop_ge by lia. reflexivity.
Qed.




Lemma load_lines_rules tk lines :
  load_lines tk lines = fold_left register_rule (omap parse_line lines) tk.
Proof.
  revert tk. induction lines as [| line lines IH]; intros tk; [reflexivity |].
  cbn [load_lines fold_left omap list_omap]. unfold load_line at 2.
  destruct (parse_line line) as [r |]; apply IH.
Qed.

Lemma merges_register_rules rs tk :
  merges (fold_left register_rule rs tk) =
  fold_left (fun M r => <[(r.1.1, r.1.2) := r.2]> M) rs (merges tk).
Proof.
  revert tk. induction rs as [| [[p0 p1] idx] rs IH]; intros tk;
    [reflexivity |].
  cbn [fold_left]. rewrite IH. reflexivity.
Qed.

Lemma rule_table_lookup (rules : list (Z * Z * Z))
    (M0 : gmap (num * num) num) a b v :
  NoDup rules.*1 ->
  (forall r, r ∈ rules -> M0 !! (Int r.1.1, Int r.1.2) = None) ->
  fold_left (fun M r => <[(r.1.1, r.1.2) := r.2]> M) (as_rule <$> rules) M0
    !! (Int a, Int b) = Some v <->
  M0 !! (Int a, Int b) = Some v \/ exists idx, v = Int idx /\ (a, b, idx) ∈ rules.
Proof.
  revert M0. induction rules as [| [[a0 b0] i0] rules IH]; intros M0 Hnd Hfresh.
  - cbn. split; [tauto |]. intros [H | (idx & _ & H)]; [exact H | inversion H].
  - cbn [fmap list_fmap fold_left as_rule fst snd] in *.
    apply NoDup_cons in Hnd as [Hnotin Hnd].
    rewrite IH; [| exact Hnd |].
    + destruct (decide ((a0, b0) = (a, b))) as [Heq | Hne].
      * injection Heq as -> ->. rewrite lookup_insert_eq.
        pose proof (Hfresh (a, b, i0) ltac:(left)) as Hf. cbn in Hf.
        rewrite Hf. split.
        -- intros [[= <-] | (idx & -> & Hin)].
           ++ right. exists i0. split; [reflexivity | left].
           ++ right. exists idx. split; [reflexivity | right; exact Hin].
        -- intros [H | (idx & -> & Hin)]; [discriminate |].
           apply elem_of_cons in Hin as [[= ->] | Hin]; [left; reflexivity |].
           exfalso. apply Hnotin. apply list_elem_of_fmap.
           exists (a, b, idx). split; [reflexivity | exact Hin].
      * rewrite lookup_insert_ne by congruence. split.
        -- intros [H | (idx & -> & Hin)]; [left; exact H |].
           right. exists idx. split; [reflexivity | right; exact Hin].
        -- intros [H | (idx & -> & Hin)]; [left; exact H |].
           apply elem_of_cons in Hin as [[= -> -> ->] | Hin]; [congruence |].
           right. exists idx. split; [reflexivity | exact Hin].
    + intros r Hr. rewrite lookup_insert_ne.
      * apply Hfresh. right. exact Hr.
      * intros [= -> ->]. apply Hnotin. apply list_elem_of_fmap.
        exists r. split; [destruct r as [[? ?] ?]; reflexivity | exact Hr].
Qed.

Lemma find_split {A} (f : A -> bool) l x :
  find f l = Some x ->
  exists l1 l2, l = l1 ++ x :: l2 /\ f x = true /\
                forall y, y ∈ l1 -> f y = false.
Proof.
  induction l as [| y l IH]; [discriminate |]. cbn [find].
  destruct (f y) eqn:Hy.
  - intros [= ->]. exists [], l. split; [reflexivity | split; [exact Hy |]].
    intros z Hz. inversion Hz.
  - intros Hx. destruct (IH Hx) as (l1 & l2 & -> & Hfx & Hl1).
    exists (y :: l1), l2. split; [reflexivity | split; [exact Hfx |]].
    intros z Hz. apply elem_of_cons in Hz as [-> | Hz]; [exact Hy |].
    apply Hl1, Hz.
Qed.

Lemma find_none_elem {A} (f : A -> bool) l :
  find f l = None -> forall y, y ∈ l -> f y = false.
Proof.
  intros H y Hy. apply list_elem_of_In in Hy. eapply find_none; eassumption.
Qed.

Lemma best_pair_earliest_defined rules lines ids :
  ids_follow_definition_order rules ->
  omap parse_line lines = as_rule <$> rules ->
  best_pair (merges (load_lines new_BPETokenizer lines)) ids =
  earliest_defined rules ids.
Proof.
  intros [Hsorted Hnd] Hlines.
  rewrite load_lines_rules, Hlines, merges_register_rules.
  cbn [merges new_BPETokenizer].
  set (M := fold_left _ _ _).
  assert (HM : forall a b v, M !! (Int a, Int b) = Some v <->
                exists idx, v = Int idx /\ (a, b, idx) ∈ rules).
  { intros a b v. unfold M. rewrite rule_table_lookup; [| exact Hnd |].
    - rewrite lookup_empty. split; [intros [H | H]; [discriminate | exact H] |].
      intros H. right. exact H.
    - intros r _. apply lookup_empty. }
  pose proof (best_pair_lowest M ids) as Hbest.
  unfold earliest_defined.
  destruct (find _ rules) as [[[a0 b0] i0] |] eqn:Hfind.
  - apply find_split in Hfind as (l1 & l2 & Hrules & Hadj & Hl1).
    apply bool_decide_eq_true in Hadj. cbn [fst] in Hadj.
    assert (Hin0 : (a0, b0, i0) ∈ rules).
    { rewrite Hrules. apply elem_of_app. right. left. }
    destruct (best_pair M ids) as [[[a b] idx] |]; cbn in Hbest.
    + destruct Hbest as (Hadj' & Hm & Hmin).
      apply HM in Hm as (idx' & [= <-] & Hin).
      assert (Hle : idx <= i0).
      { apply (Hmin a0 b0 i0 Hadj). apply HM. exists i0. split; [reflexivity | exact Hin0]. }
      rewrite Hrules in Hin. apply elem_of_app in Hin as [Hin | Hin].
      * apply Hl1 in Hin. apply bool_decide_eq_false in Hin. contradiction.
      * apply elem_of_cons in Hin as [Heq | Hin]; [congruence |].
        rewrite Hrules in Hsorted.
        apply StronglySorted_app_1_r, StronglySorted_cons in Hsorted
          as [Hall _].
        rewrite Forall_forall in Hall. specialize (Hall _ Hin).
        cbn in Hall. lia.
    + exfalso. apply (Hbest a0 b0 i0 Hadj). apply HM.
      exists i0. split; [reflexivity | exact Hin0].
  - destruct (best_pair M ids) as [[[a b] idx] |]; [| reflexivity].
    cbn in Hbest. destruct Hbest as (Hadj' & Hm & _).
    apply HM in Hm as (idx' & [= <-] & Hin).
    pose proof (find_none_elem _ _ Hfind _ Hin) as Hf.
    apply bool_decide_eq_false in Hf. contradiction.
Qed.

(** ** Byte-only mode *)



Lemma base_vocab_bytes :
  forallb (fun i => bool_decide (base_vocab !! Int i = Some [i]))
          (map Z.of_nat (seq 0 256)) = true.
Proof. vm_compute. reflexivity. Qed.

Lemma base_vocab_lookup b :
  0 <= b < 256 -> base_vocab !! Int b = Some [b].
Proof.
  intros Hb. pose proof base_vocab_bytes as H.
  rewrite forallb_forall in H. specialize (H b).
  eapply bool_decide_eq_true_1, H.
  apply in_map_iff. exists (Z.to_nat b). split; [lia |].
  apply in_seq. lia.
Qed.

Lemma utf8_encode_scalar_bytes c b :
  is_scalar c = true -> b ∈ utf8_encode_scalar c -> 0 <= b < 256.
Proof.
  intros Hc. apply is_scalar_spec in Hc. unfold utf8_encode_scalar.
  destruct (Z.ltb_spec c 0x80); [| destruct (Z.ltb_spec c 0x800);
    [| destruct (Z.ltb_spec c 0x10000)]];
    rewrite ?continuation_byte, ?Z.shiftr_div_pow2 by lia;
    intros Hb; repeat (apply elem_of_cons in Hb as [-> | Hb]);
    try (inversion Hb; fail); Z.div_mod_to_equations; lia.
Qed.

Lemma TextEncoder_encode_bytes t b :
  b ∈ TextEncoder_encode t -> 0 <= b < 256.
Proof.
  induction t as [| c t IH]; cbn [TextEncoder_encode flat_map].
  - intros H. inversion H.
  - intros H. apply elem_of_app in H as [H | H]; [| apply IH, H].
    unfold utf8_encode_cp in H. destruct (is_scalar c) eqn:Hc.
    + eapply utf8_encode_scalar_bytes; eassumption.
    + eapply utf8_encode_scalar_bytes; [| exact H]. reflexivity.
Qed.

Lemma best_pair_no_merges ids : best_pair ∅ ids = None.
Proof.
  pose proof (best_pair_lowest ∅ ids) as H.
  destruct (best_pair ∅ ids) as [[[a b] idx] |]; [| reflexivity].
  destruct H as (_ & H & _). rewrite lookup_empty in H. discriminate.
Qed.

Lemma decode_bytes_identity tk bs :
  base_vocab ⊆ vocab tk ->
  (forall b, b ∈ bs -> 0 <= b < 256) ->
  decode_bytes tk bs = bs.
Proof.
  intros Hbase. induction bs as [| b bs IH]; intros Hbs; [reflexivity |].
  cbn [decode_bytes flat_map].
  assert (Hb : vocab tk !! Int b = Some [b]).
  { eapply lookup_weaken; [| exact Hbase].
    apply base_vocab_lookup, Hbs. left. }
  rewrite Hb. cbn. f_equal. apply IH. intros b' Hb'. apply Hbs. right. exact Hb'.
Qed.

Lemma strip_bom_printable t :
  forallb is_printable t = true -> strip_bom t = t.
Proof.
  destruct t as [| c t]; [reflexivity |]. cbn [forallb].
  intros H. apply andb_true_iff in H as [Hc _].
  unfold is_printable in Hc.
  destruct (Z.eqb_spec c 0xFEFF) as [-> | Hne].
  - rewrite andb_false_r in Hc. discriminate.
  - unfold strip_bom. destruct c as [| p | p]; try reflexivity.
    repeat (destruct p as [p | p |]; try reflexivity). congruence.
Qed.

Lemma printable_scalar t :
  forallb is_printable t = true -> forallb is_scalar t = true.
Proof.
  rewrite !forallb_forall. intros H c Hc. specialize (H c Hc).
  unfold is_printable in H. rewrite !andb_true_iff in H. tauto.
Qed.

Lemma encode_ids_cold t tk h :
  cache tk !! t = None ->
  encode_ids t tk h = bpe (merges tk) (TextEncoder_encode t).
Proof.
  intros Hc. unfold encode_ids, encode, alloc, array_at. rewrite Hc.
  cbn. rewrite list_lookup_middle by reflexivity. reflexivity.
Qed.

Lemma encode_ids_warm t tk h :
  cache_consistent tk h ->
  encode_ids t tk h = bpe (merges tk) (TextEncoder_encode t).
Proof.
  intros Hc. destruct (cache tk !! t) as [l |] eqn:Ht.
  - unfold encode_ids, encode, array_at. rewrite Ht.
    rewrite (Hc _ _ Ht). reflexivity.
  - apply encode_ids_cold, Ht.
Qed.

Lemma encode_vocab t tk h : vocab (encode t tk h).1.2 = vocab tk.
Proof. unfold encode, alloc. destruct (cache tk !! t); reflexivity. Qed.

Lemma cache_consistent_new h : cache_consistent new_BPETokenizer h.
Proof. intros t l H. cbn in H. rewrite lookup_empty in H. discriminate. Qed.

(** [encode] keeps the cache consistent: a tokenizer that is only encoded
    and decoded with has a consistent cache. *)
Lemma encode_cache_consistent t tk h :
  cache_consistent tk h ->
  cache_consistent (encode t tk h).1.2 (encode t tk h).2.
Proof.
  intros Hc. unfold encode. destruct (cache tk !! t) as [l |] eqn:Ht;
    [exact Hc |].
  unfold alloc. cbn [fst snd]. intros t' l' H'. cbn [cache merges] in *.
  destruct (decide (t = t')) as [<- | Hne].
  - rewrite lookup_insert_eq in H'. injection H' as <-.
    apply list_lookup_middle. reflexivity.
  - rewrite lookup_insert_ne in H' by exact Hne.
    rewrite lookup_app_l by (eapply lookup_lt_Some, Hc, H').
    apply Hc, H'.
Qed.

(** C9. In byte-only mode (no merge rule loaded, the vocabulary that of the
    constructor), with a cache that holds correct encodings, [decode] of
    [encode] of a text of printable characters is the text. *)
Theorem byte_only_round_trip (tk : BPETokenizer) (h : heap) (t : text) :
  merges tk = ∅ ->
  vocab tk = base_vocab ->
  cache_consistent tk h ->
  forallb is_printable t = true ->
  decode (encode t tk h).1.2 (encode_ids t tk h) = t.
Proof.
  intros Hm Hv Hc Ht.
  rewrite (encode_ids_warm t tk h Hc), Hm.
  rewrite (bpe_done _ _ (best_pair_no_merges _)).
  unfold decode, TextDecoder_decode.
  rewrite decode_bytes_identity.
  - rewrite utf8_decode_encode by (apply printable_scalar, Ht).
    apply strip_bom_printable, Ht.
  - rewrite encode_vocab, Hv. reflexivity.
  - intros b. apply TextEncoder_encode_bytes.
Qed.

Lemma byte_only_round_trip_witness :
  decode (encode (text_of_string "Hi there") new_BPETokenizer []).1.2
         (encode_ids (text_of_string "Hi there") new_BPETokenizer [])
  = text_of_string "Hi there".
Proof.
  apply byte_only_round_trip.
  - reflexivity.
  - reflexivity.
  - apply cache_consistent_new.
  - vm_compute. reflexivity.
Defined.

(** ** Loading and encoding *)

Lemma lowest_of_none M ids :
  best_pair M ids = None ->
  forall a b idx, (a, b) ∈ adjacent_pairs ids ->
    M !! (Int a, Int b) <> Some (Int idx).
Proof.
  intros H. pose proof (best_pair_lowest M ids) as Hl. rewrite H in Hl.
  exact Hl.
Qed.

(** C4, as amended. In a round of the merge loop, [encode] selects, among
    the adjacent pairs of the working sequence that the merge table
    registers with an integer id, a pair whose registered id is lowest, and
    replaces the non-overlapping occurrences of that pair, left to right in
    one pass, by the id; it repeats until no adjacent pair is registered
    with an integer id. The selected rule is the earliest-defined one when
    the table was loaded from rules whose ids increase strictly in
    definition order, that define no pair twice, and whose numbers are
    at most Number.MAX_SAFE_INTEGER in size, so that [parseInt] reads
    each of them exactly. *)
Theorem encode_round_selects_lowest_id (M : gmap (num * num) num)
    (ids : list Z) :
  match best_pair M ids with
  | Some (a, b, idx) =>
    (a, b) ∈ adjacent_pairs ids /\
    M !! (Int a, Int b) = Some (Int idx) /\
    (forall a' b' idx', (a', b') ∈ adjacent_pairs ids ->
       M !! (Int a', Int b') = Some (Int idx') -> idx <= idx') /\
    merge ids (a, b) idx = replace_pass (length ids) ids (a, b) idx 0 /\
    bpe M ids = bpe M (merge ids (a, b) idx)
  | None =>
    (forall a' b' idx', (a', b') ∈ adjacent_pairs ids ->
       M !! (Int a', Int b') <> Some (Int idx')) /\
    bpe M ids = ids
  end /\
  (forall a' b' idx', (a', b') ∈ adjacent_pairs (bpe M ids) ->
     M !! (Int a', Int b') <> Some (Int idx')) /\
  (forall rules lines,
     ids_follow_definition_order rules ->
     forallb reads_safe_integers lines = true ->
     omap parse_line lines = as_rule <$> rules ->
     M = merges (load_lines new_BPETokenizer lines) ->
     best_pair M ids = earliest_defined rules ids).
Proof.
  split; [| split].
  - pose proof (best_pair_lowest M ids) as Hl.
    destruct (best_pair M ids) as [[[a b] idx] |] eqn:Hbest.
    + destruct Hl as (Hadj & Hm & Hmin).
      repeat split; try assumption.
      * rewrite replace_pass_merge by lia. reflexivity.
      * apply bpe_round, Hbest.
    + split; [exact Hl | apply bpe_done, Hbest].
  - apply lowest_of_none, bpe_exhausted.
  - intros rules lines Hord _ Hlines ->.
    apply best_pair_earliest_defined; assumption.
Qed.



Lemma encode_round_selects_lowest_id_witness :
  best_pair (merges (load_lines new_BPETokenizer
                       [text_of_string "97 98 256";
                        text_of_string "256 99 257"]))
            [97; 98; 99] =
  earliest_defined [(97, 98, 256); (256, 99, 257)] [97; 98; 99].
Proof.
  refine (proj2 (proj2 (encode_round_selects_lowest_id _ [97; 98; 99]))
            [(97, 98, 256); (256, 99, 257)]
            [text_of_string "97 98 256"; text_of_string "256 99 257"]
            _ _ _ _).
  - split.
    + repeat constructor; cbn; lia.
    + cbn. apply NoDup_cons. split; [| apply NoDup_singleton].
      intros H. apply list_elem_of_singleton in H. discriminate.
  - vm_compute. reflexivity.
  - vm_compute. reflexivity.
  - reflexivity.
Defined.

(** C4, as stated, fails: with the rules (97, 98) -> 300 and then
    (98, 99) -> 256 loaded, the round on "abc" merges (98, 99), the lowest
    id, not the earliest-defined rule (97, 98). *)
Lemma encode_round_not_earliest_defined :
  omap parse_line lines_300_256 = as_rule <$> rules_300_256 /\
  best_pair (merges (load_lines new_BPETokenizer lines_300_256))
            (TextEncoder_encode (text_of_string "abc"))
    = Some (98, 99, 256) /\
  earliest_defined rules_300_256 (TextEncoder_encode (text_of_string "abc"))
    = Some (97, 98, 300) /\
  encode_ids (text_of_string "abc")
             (load_lines new_BPETokenizer lines_300_256) [] = [97; 256].
Proof. vm_compute. repeat split; reflexivity. Qed.

(** C5. With the single rule (97, 98, 256) loaded, "ab" encodes to [256],
    "ba" to [98, 97], and [256] decodes to "ab". *)
Theorem concrete_scenario_ab :
  let tk := (load default_url
                  (Response true (Some (text_of_string "97 98 256")))
                  new_BPETokenizer).1.1 in
  encode_ids (text_of_string "ab") tk [] = [256] /\
  encode_ids (text_of_string "ba") tk [] = [98; 97] /\
  decode tk [256] = text_of_string "ab".
Proof. vm_compute. repeat split; reflexivity. Qed.

Lemma load_line_wrong_count tk line :
  length (split 32 line) <> 3%nat -> load_line tk line = tk.
Proof.
  intros Hlen. unfold load_line, parse_line.
  destruct (trim_is_empty line); [reflexivity |].
  destruct (split 32 line) as [| a [| b [| c [| d rest]]]];
    try reflexivity.
  exfalso. apply Hlen. reflexivity.
Qed.

(** C6, the code at a failing input: the line "97 98 x" has three tokens,
    the third unparsable; [load] registers the pair (97, 98) with [NaN],
    adds the vocabulary entry [NaN], and counts the rule in
    [vocabSize]. *)
Theorem load_registers_unparsable_rule :
  let tk := (load default_url
                  (Response true (Some (text_of_string "97 98 x")))
                  new_BPETokenizer).1.1 in
  parse_line (text_of_string "97 98 x") = Some (Int 97, Int 98, NaN) /\
  merges tk !! (Int 97, Int 98) = Some NaN /\
  vocab tk !! NaN = Some [97; 98] /\
  vocabSize tk = 257%nat.
Proof. vm_compute. repeat split; reflexivity. Qed.

Lemma register_rule_vocab tk p0 p1 idx :
  vocab (register_rule tk (p0, p1, idx)) =
  match vocab tk !! p0, vocab tk !! p1 with
  | Some v0, Some v1 => <[idx := v0 ++ v1]> (vocab tk)
  | _, _ => vocab tk
  end.
Proof. reflexivity. Qed.

Lemma load_line_vocab_subseteq tk line :
  defines_new_id tk line -> vocab tk ⊆ vocab (load_line tk line).
Proof.
  unfold defines_new_id, load_line.
  destruct (parse_line line) as [[[p0 p1] idx] |]; [| reflexivity].
  intros Hnew. rewrite register_rule_vocab.
  destruct (vocab tk !! p0); [| reflexivity].
  destruct (vocab tk !! p1); [| reflexivity].
  apply insert_subseteq, Hnew.
Qed.

Lemma load_lines_vocab_subseteq tk lines :
  all_define_new_ids tk lines -> vocab tk ⊆ vocab (load_lines tk lines).
Proof.
  revert tk. induction lines as [| line lines IH]; intros tk; [reflexivity |].
  intros [Hline Hrest]. cbn [load_lines fold_left].
  etrans; [apply load_line_vocab_subseteq, Hline |]. apply IH, Hrest.
Qed.

Lemma load_lines_app tk before after :
  load_lines tk (before ++ after) = load_lines (load_lines tk before) after.
Proof. apply fold_left_app. Qed.

Lemma all_define_new_ids_app tk before after :
  all_define_new_ids tk (before ++ after) <->
  all_define_new_ids tk before /\
  all_define_new_ids (load_lines tk before) after.
Proof.
  revert tk. induction before as [| line before IH]; intros tk.
  - cbn. tauto.
  - cbn [app all_define_new_ids load_lines fold_left]. rewrite IH.
    unfold load_lines. tauto.
Qed.

Lemma load_vocab url body tk :
  vocab (load url (Response true (Some body)) tk).1.1 =
  vocab (load_lines tk (split 10 body)).
Proof. reflexivity. Qed.

(** C10, as amended. For a load in which every rule defines an id that is
    not yet in the vocabulary when the rule is read, and the numbers of
    every rule are at most Number.MAX_SAFE_INTEGER in size, so that
    [parseInt] reads each of them exactly: no entry set before
    is changed, so ids 0-255 still map to their single byte; a rule whose
    two constituent ids are in the vocabulary introduces exactly one new
    id, whose byte sequence is the concatenation, in order, of the
    constituents', and which the loaded vocabulary keeps; a rule with an
    unknown constituent introduces none. *)
Theorem load_appends_to_vocabulary (url body : text) (tk : BPETokenizer) :
  forallb reads_safe_integers (split 10 body) = true ->
  all_define_new_ids tk (split 10 body) ->
  let tk' := (load url (Response true (Some body)) tk).1.1 in
  vocab tk ⊆ vocab tk' /\
  (base_vocab ⊆ vocab tk ->
   forall i, 0 <= i < 256 -> vocab tk' !! Int i = Some [i]) /\
  (forall before line after p0 p1 idx,
     split 10 body = before ++ line :: after ->
     parse_line line = Some (p0, p1, idx) ->
     let s := load_lines tk before in
     vocab s !! idx = None /\
     match vocab s !! p0, vocab s !! p1 with
     | Some v0, Some v1 =>
       vocab (load_line s line) = <[idx := v0 ++ v1]> (vocab s) /\
       vocab tk' !! idx = Some (v0 ++ v1)
     | _, _ => vocab (load_line s line) = vocab s
     end).
Proof.
  intros _ Hnew tk'. unfold tk'. rewrite load_vocab.
  split; [| split].
  - apply load_lines_vocab_subseteq, Hnew.
  - intros Hbase i Hi.
    eapply lookup_weaken; [| apply load_lines_vocab_subseteq, Hnew].
    eapply lookup_weaken; [| exact Hbase].
    apply base_vocab_lookup, Hi.
  - intros before line after p0 p1 idx Hsplit Hparse.
    rewrite Hsplit in Hnew |- *.
    apply all_define_new_ids_app in Hnew as [_ [Hline Hafter]].
    set (s := load_lines tk before) in *.
    unfold defines_new_id in Hline. rewrite Hparse in Hline.
    split; [exact Hline |].
    assert (Hv : vocab (load_line s line) =
                 match vocab s !! p0, vocab s !! p1 with
                 | Some v0, Some v1 => <[idx := v0 ++ v1]> (vocab s)
                 | _, _ => vocab s
                 end).
    { unfold load_line. rewrite Hparse. apply register_rule_vocab. }
    destruct (vocab s !! p0) as [v0 |]; [| exact Hv].
    destruct (vocab s !! p1) as [v1 |]; [| exact Hv].
    split; [exact Hv |].
    rewrite load_lines_app. cbn [load_lines fold_left]. fold s.
    eapply lookup_weaken;
      [| apply (load_lines_vocab_subseteq (load_line s line) after), Hafter].
    rewrite Hv. apply lookup_insert_eq.
Qed.

Lemma load_appends_to_vocabulary_witness :
  let tk' := (load default_url
                   (Response true (Some (text_of_string "97 98 256")))
                   new_BPETokenizer).1.1 in
  vocab new_BPETokenizer ⊆ vocab tk' /\
  vocab tk' !! Int 97 = Some [97] /\
  vocab tk' !! Int 256 = Some [97; 98].
Proof.
  pose proof (load_appends_to_vocabulary default_url
                (text_of_string "97 98 256") new_BPETokenizer) as H.
  destruct H as (Hsub & Hbytes & Hrule).
  - vm_compute. reflexivity.
  - cbn. split; [vm_compute; reflexivity | exact I].
  - split; [exact Hsub |]. split.
    + apply Hbytes; [reflexivity | lia].
    + specialize (Hrule [] (text_of_string "97 98 256") []
                    (Int 97) (Int 98) (Int 256) eq_refl eq_refl).
      cbn zeta in Hrule. destruct Hrule as [_ Hrule].
      change (vocab (load_lines new_BPETokenizer []) !! Int 97)
        with (Some [97]) in Hrule.
      change (vocab (load_lines new_BPETokenizer []) !! Int 98)
        with (Some [98]) in Hrule.
      apply Hrule.
Defined.

(** C10, as stated, fails: the rule "97 98 65" overwrites the entry of
    byte 65, and the rule "300 301 302", whose constituents are unknown,
    adds no entry. *)
Lemma load_overwrites_byte_entry :
  vocab new_BPETokenizer !! Int 65 = Some [65] /\
  vocab (load default_url (Response true (Some (text_of_string "97 98 65")))
              new_BPETokenizer).1.1 !! Int 65 = Some [97; 98] /\
  vocab (load default_url
              (Response true (Some (text_of_string "300 301 302")))
              new_BPETokenizer).1.1 !! Int 302 = None.
Proof. vm_compute. repeat split; reflexivity. Qed.

Lemma base_vocab_lookup_None id :
  ~ (0 <= id < 256) -> base_vocab !! Int id = None.
Proof.
  intros Hid. apply not_elem_of_list_to_map_1. intros Hin.
  apply list_elem_of_fmap in Hin as ([k v] & Hk & Hin). cbn in Hk.
  apply list_elem_of_In, in_map_iff in Hin as (i & [= <- <-] & Hi).
  apply in_map_iff in Hi as (n & <- & Hn). apply in_seq in Hn.
  injection Hk as ->. lia.
Qed.

Lemma filter_bytes_decode ids :
  decode_bytes new_BPETokenizer ids = filter (fun id => is_byte id = true) ids.
Proof.
  induction ids as [| id ids IH]; [reflexivity |].
  cbn [decode_bytes flat_map]. fold (decode_bytes new_BPETokenizer ids).
  rewrite IH, filter_cons.
  change (vocab new_BPETokenizer) with base_vocab.
  destruct (is_byte id) eqn:Hb.
  - rewrite decide_True by reflexivity.
    rewrite base_vocab_lookup by (unfold is_byte in Hb; lia). reflexivity.
  - rewrite decide_False by discriminate.
    rewrite base_vocab_lookup_None by (unfold is_byte in Hb; lia).
    reflexivity.
Qed.

(** C3, as amended. If the resource of [load] is unreachable or unreadable,
    the tokenizer is left as it was (for a new tokenizer: the 256-entry
    byte vocabulary, [vocabSize] 256, no merges), the error is written to
    the console and [load] completes normally, surfacing no failure;
    [encode] then gives the UTF-8 bytes of the text and [decode] reads the
    ids below 256 as bytes. *)
Theorem load_failure_degrades_to_bytes (url : text) (f : fetched) :
  load_fails f ->
  exists e,
    load url f new_BPETokenizer =
      (new_BPETokenizer, [ErrorLoadingTokenizer e], Returns tt) /\
    vocabSize new_BPETokenizer = 256%nat /\
    merges new_BPETokenizer = ∅ /\
    (forall t h, encode_ids t new_BPETokenizer h = TextEncoder_encode t) /\
    (forall ids, decode new_BPETokenizer ids =
                 TextDecoder_decode (filter (fun id => is_byte id = true) ids)).
Proof.
  intros Hf.
  assert (Hload : exists e, load url f new_BPETokenizer =
            (new_BPETokenizer, [ErrorLoadingTokenizer e], Returns tt)).
  { destruct f as [| [|] [body |]]; cbn in Hf; try contradiction;
      eexists; reflexivity. }
  destruct Hload as [e He]. exists e.
  split; [exact He |]. split; [reflexivity |]. split; [reflexivity |]. split.
  - intros t h. rewrite encode_ids_cold by apply lookup_empty.
    apply bpe_done, best_pair_no_merges.
  - intros ids. unfold decode. rewrite filter_bytes_decode. reflexivity.
Qed.

Lemma load_failure_degrades_to_bytes_witness :
  exists e,
    load default_url FetchRejected new_BPETokenizer =
      (new_BPETokenizer, [ErrorLoadingTokenizer e], Returns tt).
Proof.
  destruct (load_failure_degrades_to_bytes default_url FetchRejected I)
    as (e & He & _).
  exists e. exact He.
Defined.

(** C3, as stated, fails: on an unreachable resource the promise of [load]
    is fulfilled, not rejected. *)
Lemma load_failure_not_surfaced :
  ~ exists e, (load default_url FetchRejected new_BPETokenizer).2 = Throws e.
Proof. intros [e He]. vm_compute in He. discriminate. Qed.

(** ** The mutex *)

Lemma fulfilled_chain rel c :
  fulfilled rel (chain c) = true <-> forall c', (c' < c)%nat -> c' ∈ rel.
Proof.
  induction c as [| c IH]; cbn [chain fulfilled].
  - split; [intros _ c' Hc'; lia | reflexivity].
  - rewrite andb_true_iff, IH, bool_decide_eq_true. split.
    + intros [Hlt Hc] c' Hc'.
      destruct (decide (c' = c)) as [-> | Hne]; [exact Hc |].
      apply Hlt. lia.
    + intros H. split; [intros c' Hc' |]; apply H; lia.
Qed.

Lemma idle_invariant e : idle e -> mutex_invariant e.
Proof.
  intros (Hc & Hm & Hr & Ht). split; rewrite ?Hc, ?Hm, ?Hr, ?Ht.
  - reflexivity.
  - intros c k H. rewrite lookup_nil in H. discriminate.
  - intros c. split.
    + intros H. inversion H.
    + intros (k & H & _). rewrite lookup_nil in H. discriminate.
  - intros c k H. rewrite lookup_nil in H. discriminate.
  - intros ev H. inversion H.
  - intros i j ev1 ev2 _ H. rewrite lookup_nil in H. discriminate.
  - intros c c' H. inversion H.
  - intros ev H. inversion H.
  - intros c k H. rewrite lookup_nil in H. discriminate.
Qed.

Lemma count_events_app f tr1 tr2 :
  count_events f (tr1 ++ tr2) = (count_events f tr1 + count_events f tr2)%nat.
Proof.
  induction tr1 as [| ev tr1 IH]; [reflexivity |].
  cbn [app count_events]. rewrite IH. lia.
Qed.

Lemma count_events_other c' tr :
  (forall ev, ev ∈ tr -> event_call ev <> c') ->
  count_events (is_invocation c') tr = 0%nat /\
  count_events (is_settlement c') tr = 0%nat.
Proof.
  induction tr as [| ev tr IH]; intros Hev; [split; reflexivity |].
  destruct IH as [IH1 IH2]; [intros ev' H; apply Hev; right; exact H |].
  pose proof (Hev ev ltac:(left)) as Hne.
  cbn [count_events]. rewrite IH1, IH2.
  destruct ev as [c0 input | c0]; cbn [is_invocation is_settlement event_call] in *;
    rewrite bool_decide_eq_false_2 by exact Hne; split; reflexivity.
Qed.

Lemma generate_call_invariant p o e :
  mutex_invariant e -> mutex_invariant (generate_call p o e).
Proof.
  intros [Hm Hcur Hrel Hhold Htr Hso Hcl Hkn Hbal].
  split; cbn [generate_call generationMutex calls released trace].
  - rewrite length_app. cbn [length]. rewrite Nat.add_1_r, Hm. reflexivity.
  - intros c k Hk. apply lookup_app_Some in Hk as [Hk | [Hlen Hk]].
    + apply Hcur, Hk.
    + apply list_lookup_singleton_Some in Hk as [Hc <-].
      cbn [current release]. assert (c = length (calls e)) as -> by lia.
      split; [exact Hm | reflexivity].
  - intros c. rewrite Hrel. split.
    + intros (k & Hk & Hs). exists k. split; [| exact Hs].
      apply lookup_app_l_Some, Hk.
    + intros (k & Hk & Hs). apply lookup_app_Some in Hk as [Hk | [Hlen Hk]].
      * exists k. split; assumption.
      * apply list_lookup_singleton_Some in Hk as [_ <-]. discriminate.
  - intros c k Hk Hh. apply lookup_app_Some in Hk as [Hk | [Hlen Hk]].
    + eapply Hhold; eassumption.
    + apply list_lookup_singleton_Some in Hk as [_ <-]. discriminate.
  - exact Htr.
  - exact Hso.
  - exact Hcl.
  - intros ev Hev. rewrite length_app. specialize (Hkn ev Hev). lia.
  - intros c k Hk. apply lookup_app_Some in Hk as [Hk | [Hlen Hk]].
    + apply Hbal, Hk.
    + apply list_lookup_singleton_Some in Hk as [Hc <-]. cbn [state pending_runs].
      destruct (count_events_other c (trace e)) as [-> ->]; [| reflexivity].
      intros ev Hev. specialize (Hkn ev Hev). lia.
Qed.

Lemma with_tokenizer_invariant tk e :
  mutex_invariant e -> mutex_invariant (with_tokenizer tk e).
Proof. intros [Hm Hcur Hrel Hhold Htr Hso Hcl Hkn Hbal]. split; assumption. Qed.

Lemma initialized_invariant run e :
  mutex_invariant e -> mutex_invariant (initialized run e).
Proof. intros [Hm Hcur Hrel Hhold Htr Hso Hcl Hkn Hbal]. split; assumption. Qed.

Lemma lookup_alter_state (cs : list call) c ph c' k' :
  alter (fun k => with_state k ph) c cs !! c' = Some k' ->
  exists k, cs !! c' = Some k /\ current k' = current k /\
            release k' = release k /\
            state k' = if decide (c = c') then ph else state k.
Proof.
  intros H. destruct (decide (c = c')) as [-> | Hne].
  - rewrite list_lookup_alter_eq in H.
    destruct (cs !! c') as [k |]; [| discriminate].
    injection H as <-. exists k. repeat split.
  - rewrite list_lookup_alter_ne in H by exact Hne.
    exists k'. repeat split. exact H.
Qed.

Lemma suspend_invariant c k ph h n evs e :
  mutex_invariant e ->
  calls e !! c = Some k ->
  settled (state k) = false ->
  settled ph = false ->
  (forall c', (c' < c)%nat -> c' ∈ released e) ->
  (forall ev, ev ∈ evs -> event_call ev = c) ->
  (count_events (is_invocation c) evs + pending_runs (state k) =
   count_events (is_settlement c) evs + pending_runs ph)%nat ->
  mutex_invariant (suspend c ph h n evs e).
Proof.
  intros [Hm Hcur Hrel Hhold Htr Hso Hcl Hkn Hbal] Hk Hns Hph Hbefore Hevs
    Hruns.
  assert (Hnotrel : c ∉ released e).
  { intros Hin. apply Hrel in Hin as (k0 & Hk0 & Hs). congruence. }
  split; cbn [suspend generationMutex calls released trace].
  - rewrite length_alter. exact Hm.
  - intros c' k' Hk'. apply lookup_alter_state in Hk' as (k0 & Hk0 & -> & -> & _).
    apply Hcur, Hk0.
  - intros c'. rewrite Hrel. split.
    + intros (k0 & Hk0 & Hs). destruct (decide (c = c')) as [<- | Hne].
      * congruence.
      * exists k0. rewrite list_lookup_alter_ne by exact Hne. split; assumption.
    + intros (k' & Hk' & Hs).
      apply lookup_alter_state in Hk' as (k0 & Hk0 & _ & _ & Hst).
      destruct (decide (c = c')) as [<- | Hne]; [congruence |].
      exists k0. split; [exact Hk0 | congruence].
  - intros c' k' Hk' Hh c'' Hlt.
    apply lookup_alter_state in Hk' as (k0 & Hk0 & _ & _ & Hst).
    destruct (decide (c = c')) as [<- | Hne].
    + apply Hbefore, Hlt.
    + rewrite Hst in Hh. eapply Hhold; eassumption.
  - intros ev Hev c' Hlt. apply elem_of_app in Hev as [Hev | Hev].
    + eapply Htr; eassumption.
    + rewrite (Hevs _ Hev) in Hlt. apply Hbefore, Hlt.
  - intros i j ev1 ev2 Hij H1 H2.
    apply lookup_app_Some in H2 as [H2 | [Hlen H2]].
    + assert (Hi : trace e !! i = Some ev1).
      { apply lookup_lt_Some in H2. rewrite lookup_app_l in H1 by lia.
        exact H1. }
      eapply Hso; eassumption.
    + assert (Hc2 : event_call ev2 = c).
      { apply Hevs. eapply list_elem_of_lookup_2, H2. }
      rewrite Hc2. apply lookup_app_Some in H1 as [H1 | [_ H1]].
      * destruct (Nat.le_gt_cases (event_call ev1) c) as [Hle | Hgt];
          [exact Hle |].
        exfalso. apply Hnotrel. eapply Htr; [| exact Hgt].
        eapply list_elem_of_lookup_2, H1.
      * rewrite (Hevs ev1); [lia |]. eapply list_elem_of_lookup_2, H1.
  - exact Hcl.
  - intros ev Hev. rewrite length_alter.
    apply elem_of_app in Hev as [Hev | Hev]; [apply Hkn, Hev |].
    rewrite (Hevs ev Hev). eapply lookup_lt_Some, Hk.
  - intros c' k' Hk'. rewrite !count_events_app.
    apply lookup_alter_state in Hk' as (k0 & Hk0 & _ & _ & Hst).
    destruct (decide (c = c')) as [<- | Hne].
    + assert (k0 = k) as -> by congruence.
      rewrite Hst. pose proof (Hbal c k Hk). lia.
    + rewrite Hst. destruct (count_events_other c' evs) as [-> ->].
      * intros ev Hev. rewrite (Hevs ev Hev). exact Hne.
      * pose proof (Hbal c' k0 Hk0). lia.
Qed.

Lemma finally_invariant c k result e :
  mutex_invariant e ->
  calls e !! c = Some k ->
  state k = Finishing result ->
  mutex_invariant (finally c k result e).
Proof.
  intros [Hm Hcur Hrel Hhold Htr Hso Hcl Hkn Hbal] Hk Hst.
  destruct (Hcur _ _ Hk) as [_ Hrelease].
  split; cbn [finally generationMutex calls released trace];
    rewrite ?Hrelease.
  - rewrite length_alter. exact Hm.
  - intros c' k' Hk'. apply lookup_alter_state in Hk' as (k0 & Hk0 & -> & -> & _).
    apply Hcur, Hk0.
  - intros c'. rewrite elem_of_cons, Hrel. split.
    + intros [-> | (k0 & Hk0 & Hs)].
      * exists (with_state k (Settled result)).
        rewrite list_lookup_alter_eq, Hk. split; reflexivity.
      * destruct (decide (c = c')) as [<- | Hne].
        -- exists (with_state k (Settled result)).
           rewrite list_lookup_alter_eq, Hk. split; reflexivity.
        -- exists k0. rewrite list_lookup_alter_ne by exact Hne.
           split; assumption.
    + intros (k' & Hk' & Hs).
      apply lookup_alter_state in Hk' as (k0 & Hk0 & _ & _ & Hst').
      destruct (decide (c = c')) as [<- | Hne]; [left; reflexivity |].
      right. exists k0. split; [exact Hk0 | congruence].
  - intros c' k' Hk' Hh c'' Hlt.
    apply lookup_alter_state in Hk' as (k0 & Hk0 & _ & _ & Hst').
    destruct (decide (c = c')) as [<- | Hne].
    + rewrite Hst' in Hh. discriminate.
    + rewrite Hst' in Hh. right. eapply Hhold; eassumption.
  - intros ev Hev c' Hlt. right. eapply Htr; eassumption.
  - exact Hso.
  - intros c0 c' Hin Hlt. right. apply elem_of_cons in Hin as [-> | Hin].
    + eapply Hhold; [exact Hk | rewrite Hst; reflexivity | exact Hlt].
    + eapply Hcl; eassumption.
  - intros ev Hev. rewrite length_alter. apply Hkn, Hev.
  - intros c' k' Hk'.
    apply lookup_alter_state in Hk' as (k0 & Hk0 & _ & _ & Hst').
    destruct (decide (c = c')) as [<- | Hne].
    + assert (k0 = k) as -> by congruence.
      rewrite Hst'. pose proof (Hbal c k Hk) as H. rewrite Hst in H. exact H.
    + rewrite Hst'. apply Hbal, Hk0.
Qed.

Lemma loop_head_invariant c k o tokens g i h evs e :
  mutex_invariant e ->
  calls e !! c = Some k ->
  settled (state k) = false ->
  (forall c', (c' < c)%nat -> c' ∈ released e) ->
  (forall ev, ev ∈ evs -> event_call ev = c) ->
  (count_events (is_invocation c) evs + pending_runs (state k) =
   count_events (is_settlement c) evs)%nat ->
  mutex_invariant (loop_head c o tokens g i h evs e).
Proof.
  intros Hinv Hk Hns Hbefore Hevs Hruns. unfold loop_head.
  destruct (i <? iterations o)%nat.
  - eapply suspend_invariant; try eassumption; [reflexivity | |].
    + intros ev Hev. apply elem_of_app in Hev as [Hev | Hev];
        [apply Hevs, Hev |].
      apply list_elem_of_singleton in Hev as ->. reflexivity.
    + rewrite !count_events_app. cbn [count_events is_invocation
        is_settlement pending_runs].
      rewrite bool_decide_eq_true_2 by reflexivity. lia.
  - eapply suspend_invariant; try eassumption; [reflexivity |].
    cbn [pending_runs]. lia.
Qed.

Lemma enter_invariant c k e :
  mutex_invariant e ->
  calls e !! c = Some k ->
  state k = AwaitMutex ->
  fulfilled (released e) (current k) = true ->
  mutex_invariant (enter c k e).
Proof.
  intros Hinv Hk Hst Hful.
  assert (Hbefore : forall c', (c' < c)%nat -> c' ∈ released e).
  { apply fulfilled_chain. destruct (inv_current e Hinv c k Hk) as [<- _].
    exact Hful. }
  assert (Hns : settled (state k) = false) by (rewrite Hst; reflexivity).
  assert (Hnone : forall ev : event, ev ∈ [] -> event_call ev = c)
    by (intros ev Hev; inversion Hev).
  assert (Hruns : (count_events (is_invocation c) [] + pending_runs (state k)
                   = count_events (is_settlement c) [])%nat)
    by (rewrite Hst; reflexivity).
  unfold enter. destruct (session e); [destruct (isInitialized e) |].
  - destruct (encode (prompt k) (tokenizer e) (arrays e)) as [[tokens tk] h].
    eapply loop_head_invariant; [apply with_tokenizer_invariant, Hinv | ..];
      eassumption.
  - eapply suspend_invariant; first [eassumption | reflexivity].
  - eapply suspend_invariant; first [eassumption | reflexivity].
Qed.

Section EngineFacts.

Variable Math_exp : spec_float -> spec_float.
Variable Math_random : nat -> spec_float.

Lemma resume_invariant c k tokens g i n pending e :
  mutex_invariant e ->
  calls e !! c = Some k ->
  state k = AwaitRun tokens g i n pending ->
  mutex_invariant (resume Math_exp Math_random c k tokens g i n pending e).
Proof.
  intros Hinv Hk Hst.
  assert (Hbefore : forall c', (c' < c)%nat -> c' ∈ released e).
  { eapply (inv_holder e Hinv); [exact Hk |]. rewrite Hst. reflexivity. }
  assert (Hns : settled (state k) = false) by (rewrite Hst; reflexivity).
  assert (Hev : forall ev, ev ∈ [RunSettled c] -> event_call ev = c).
  { intros ev H. apply list_elem_of_singleton in H as ->. reflexivity. }
  assert (Hruns : (count_events (is_invocation c) [RunSettled c]
                   + pending_runs (state k)
                   = count_events (is_settlement c) [RunSettled c])%nat).
  { rewrite Hst. cbn [count_events is_invocation is_settlement pending_runs].
    rewrite bool_decide_eq_true_2 by reflexivity. reflexivity. }
  unfold resume. destruct pending as [logits | err].
  - eapply loop_head_invariant; eassumption.
  - eapply suspend_invariant; try eassumption; [reflexivity |].
    cbn [pending_runs]. lia.
Qed.

Lemma step_invariant e e' :
  step Math_exp Math_random e e' -> mutex_invariant e -> mutex_invariant e'.
Proof.
  intros Hstep Hinv. destruct Hstep.
  - apply with_tokenizer_invariant, Hinv.
  - apply initialized_invariant, Hinv.
  - apply generate_call_invariant, Hinv.
  - apply enter_invariant; assumption.
  - apply resume_invariant; assumption.
  - eapply finally_invariant; eassumption.
Qed.

Lemma steps_invariant e e' :
  steps Math_exp Math_random e e' -> mutex_invariant e -> mutex_invariant e'.
Proof.
  induction 1 as [| e1 e2 e3 _ IH Hstep]; intros Hinv; [exact Hinv |].
  eapply step_invariant; [exact Hstep | apply IH, Hinv].
Qed.

Lemma holders_unique e c1 c2 k1 k2 :
  mutex_invariant e ->
  calls e !! c1 = Some k1 -> calls e !! c2 = Some k2 ->
  holding (state k1) = true -> holding (state k2) = true ->
  c1 = c2.
Proof.
  intros Hinv H1 H2 Hh1 Hh2.
  assert (Hone : forall c c' k k', calls e !! c = Some k ->
            calls e !! c' = Some k' -> holding (state k) = true ->
            holding (state k') = true -> ~ (c < c')%nat).
  { intros c c' k k' Hk Hk' Hh Hh' Hlt.
    pose proof (inv_holder e Hinv c' k' Hk' Hh' c Hlt) as Hrel.
    apply (inv_released e Hinv) in Hrel as (k0 & Hk0 & Hs).
    assert (k0 = k) as -> by congruence.
    destruct (state k); discriminate. }
  destruct (Nat.lt_trichotomy c1 c2) as [Hlt | [Heq | Hgt]].
  - exfalso. eapply (Hone c1 c2); eassumption.
  - exact Heq.
  - exfalso. eapply (Hone c2 c1); eassumption.
Qed.

(** C2. From an engine on which [generate] has not been called, whatever
    the interleaving of calls and of the steps of the calls in flight: the
    runs of the session are in the order of arrival of their calls; at most
    one call is inside its decode loop or about to release; a call that
    has invoked the session finds every earlier call settled; and a call
    has a run pending only while it awaits it, so every run of a settled
    call has settled. A later call thus invokes the session only after
    every run of an earlier call has completed. *)
Theorem generations_are_serialized (e0 e : AstroEngine) :
  idle e0 ->
  steps Math_exp Math_random e0 e ->
  (forall i j ev1 ev2, (i < j)%nat ->
     trace e !! i = Some ev1 -> trace e !! j = Some ev2 ->
     (event_call ev1 <= event_call ev2)%nat) /\
  (forall c1 c2 k1 k2,
     calls e !! c1 = Some k1 -> calls e !! c2 = Some k2 ->
     holding (state k1) = true -> holding (state k2) = true -> c1 = c2) /\
  (forall ev c, ev ∈ trace e -> (c < event_call ev)%nat ->
     exists r, result_of c e = Some r) /\
  (forall c k, calls e !! c = Some k ->
     count_events (is_invocation c) (trace e) =
     (count_events (is_settlement c) (trace e) + pending_runs (state k))%nat).
Proof.
  intros Hidle Hsteps.
  pose proof (steps_invariant _ _ Hsteps (idle_invariant _ Hidle)) as Hinv.
  split; [| split; [| split]].
  - apply (inv_sorted e Hinv).
  - intros c1 c2 k1 k2. apply holders_unique, Hinv.
  - intros ev c Hev Hlt.
    pose proof (inv_trace e Hinv ev Hev c Hlt) as Hrel.
    apply (inv_released e Hinv) in Hrel as (k & Hk & Hs).
    unfold result_of. rewrite Hk.
    destruct (state k); try discriminate. eexists. reflexivity.
  - apply (inv_balance e Hinv).
Qed.

(** C8. If the run a call awaits raises, the call leaves [_generate] with
    that error and no text (the tokens sampled so far are neither decoded
    nor returned), the [finally] block releases the mutex, the promise of
    [generate] is rejected with the error, and the call queued next, if
    any, can enter its decode loop. *)
Theorem inference_failure_aborts_and_releases (e0 e : AstroEngine)
    (c : nat) (k : call) (tokens : loc) (generatedTokens : list Z)
    (i n : nat) (err : error) :
  idle e0 ->
  steps Math_exp Math_random e0 e ->
  calls e !! c = Some k ->
  state k = AwaitRun tokens generatedTokens i n (Throws err) ->
  let e1 := resume Math_exp Math_random c k tokens generatedTokens i n
                   (Throws err) e in
  let k1 := with_state k (Finishing (Throws err)) in
  let e2 := finally c k1 (Throws err) e1 in
  step Math_exp Math_random e e1 /\
  calls e1 !! c = Some k1 /\
  step Math_exp Math_random e1 e2 /\
  result_of c e2 = Some (Throws err) /\
  c ∈ released e2 /\
  (forall k', calls e2 !! S c = Some k' ->
     step Math_exp Math_random e2 (enter (S c) k' e2)).
Proof.
  intros Hidle Hsteps Hk Hst e1 k1 e2.
  pose proof (steps_invariant _ _ Hsteps (idle_invariant _ Hidle)) as Hinv.
  assert (Hk1 : calls e1 !! c = Some k1).
  { unfold e1, resume, suspend. cbn [calls].
    rewrite list_lookup_alter_eq, Hk. reflexivity. }
  assert (Hstep1 : step Math_exp Math_random e e1).
  { eapply step_run_settled; eassumption. }
  assert (Hstep2 : step Math_exp Math_random e1 e2).
  { eapply step_finally; [exact Hk1 | reflexivity]. }
  pose proof (step_invariant _ _ Hstep1 Hinv) as Hinv1.
  pose proof (step_invariant _ _ Hstep2 Hinv1) as Hinv2.
  assert (Hrel : c ∈ released e2).
  { unfold e2, finally. cbn [released].
    destruct (inv_current e1 Hinv1 c k1 Hk1) as [_ ->]. left. }
  repeat split; try assumption.
  - unfold result_of, e2, finally. cbn [calls].
    rewrite list_lookup_alter_eq, Hk1. reflexivity.
  - intros k' Hk'.
    assert (Hk'0 : exists k0, calls e !! S c = Some k0 /\
                     current k' = current k0 /\ state k' = state k0).
    { unfold e2, finally in Hk'. cbn [calls] in Hk'.
      apply lookup_alter_state in Hk' as (ka & Hka & Hca & _ & Hsa).
      rewrite decide_False in Hsa by lia.
      unfold e1, resume, suspend in Hka. cbn [calls] in Hka.
      apply lookup_alter_state in Hka as (kb & Hkb & Hcb & _ & Hsb).
      rewrite decide_False in Hsb by lia.
      exists kb. repeat split; congruence. }
    destruct Hk'0 as (k0 & Hk0 & Hcur & Hstate).
    apply step_acquired; [exact Hk' | |].
    + rewrite Hstate. destruct (state k0) eqn:Hs0; [reflexivity | ..].
      * exfalso. assert (c = S c); [| lia].
        eapply (holders_unique e c (S c) k k0); try eassumption.
        -- rewrite Hst. reflexivity.
        -- rewrite Hs0. reflexivity.
      * exfalso. assert (c = S c); [| lia].
        eapply (holders_unique e c (S c) k k0); try eassumption.
        -- rewrite Hst. reflexivity.
        -- rewrite Hs0. reflexivity.
      * exfalso.
        assert (Hin : S c ∈ released e).
        { apply (inv_released e Hinv). exists k0. rewrite Hs0.
          split; [exact Hk0 | reflexivity]. }
        assert (Hc : c ∈ released e).
        { eapply (inv_closed e Hinv); [exact Hin | lia]. }
        apply (inv_released e Hinv) in Hc as (kc & Hkc & Hsc).
        assert (kc = k) as -> by congruence. rewrite Hst in Hsc.
        discriminate.
    + destruct (inv_current e2 Hinv2 (S c) k' Hk') as [-> _].
      apply fulfilled_chain. intros c' Hc'.
      destruct (decide (c' = c)) as [-> | Hne]; [exact Hrel |].
      unfold e2, finally. cbn [released]. right.
      unfold e1, resume, suspend. cbn [released].
      eapply (inv_holder e Hinv c k Hk); [rewrite Hst; reflexivity | lia].
Qed.

End EngineFacts.

(** ** The cached array *)

Section CacheAliasing.

Variable Math_exp : spec_float -> spec_float.
Variable Math_random : nat -> spec_float.


Lemma loop_head_calls c o tokens g i h evs e k :
  calls e !! c = Some k ->
  exists ph, calls (loop_head c o tokens g i h evs e) !! c
               = Some (with_state k ph) /\
             (forall t g' i' n pd, ph = AwaitRun t g' i' n pd -> t = tokens).
Proof.
  intros Hk. unfold loop_head. destruct (i <? iterations o)%nat;
    cbn [suspend calls]; rewrite list_lookup_alter_eq, Hk;
    eexists; (split; [reflexivity |]); intros t g' i' n pd H;
    [injection H as -> | discriminate]; reflexivity.
Qed.

Lemma loop_head_tokenizer c o tokens g i h evs e :
  tokenizer (loop_head c o tokens g i h evs e) = tokenizer e.
Proof. unfold loop_head. destruct (i <? iterations o)%nat; reflexivity. Qed.

Lemma loop_head_arrays c o tokens g i h evs e :
  arrays (loop_head c o tokens g i h evs e) = h.
Proof. unfold loop_head. destruct (i <? iterations o)%nat; reflexivity. Qed.

Lemma resume_returns_grown tk l ids extra c k g i n logits e :
  tokenizer e = tk ->
  arrays e !! l = Some (ids ++ extra) ->
  calls e !! c = Some k ->
  grown tk l ids c
        (resume Math_exp Math_random c k l g i n (Returns logits) e).
Proof.
  intros Htk Harr Hk. unfold resume.
  set (t := next_token Math_exp Math_random (options k) logits n).
  split; [| split].
  - rewrite loop_head_tokenizer. exact Htk.
  - rewrite loop_head_arrays. unfold array_push, array_at.
    rewrite Harr. cbn [default].
    exists (extra ++ [t]). split; [destruct extra; discriminate |].
    rewrite list_lookup_insert_eq by (eapply lookup_lt_Some, Harr).
    rewrite app_assoc. reflexivity.
  - intros k' t' g' i' n' pd' Hk' Hst'.
    destruct (loop_head_calls c (options k) l (g ++ [t]) (S i)
                (array_push (arrays e) l t) [RunSettled c] e k Hk)
      as (ph & Hph & Htok).
    rewrite Hph in Hk'. injection Hk' as <-. cbn [with_state state] in Hst'.
    eapply Htok, Hst'.
Qed.

Lemma resume_grown tk l ids c k g i n pd e :
  grown tk l ids c e ->
  calls e !! c = Some k ->
  grown tk l ids c (resume Math_exp Math_random c k l g i n pd e).
Proof.
  intros (Htk & (extra & Hne & Harr) & Hl) Hk.
  destruct pd as [logits | err].
  - eapply resume_returns_grown; eassumption.
  - unfold resume. split; [exact Htk | split].
    + exists extra. split; assumption.
    + intros k' t g' i' n' pd' Hk' Hst'. cbn [suspend calls] in Hk'.
      rewrite list_lookup_alter_eq, Hk in Hk'. injection Hk' as <-.
      discriminate.
Qed.

Lemma run_loop_grown tk l ids c fuel e :
  grown tk l ids c e ->
  grown tk l ids c (run_loop Math_exp Math_random fuel c e).
Proof.
  revert e. induction fuel as [| fuel IH]; intros e Hg; [exact Hg |].
  cbn [run_loop]. destruct (calls e !! c) as [k |] eqn:Hk; [| exact Hg].
  destruct (state k) as [| t g i n pd | |] eqn:Hst; try exact Hg.
  assert (t = l) as -> by (eapply Hg; eassumption).
  apply IH, resume_grown; assumption.
Qed.

(** C1, the code on a prompt it generates from. On an engine that is
    ready, with no call in flight and a cache that holds correct
    encodings, a [generate] call whose first run returns logits leaves, as
    the cached encoding of its prompt, the correct encoding followed by
    the tokens it sampled: a later [encode] of the prompt returns
    that. *)
Theorem generate_grows_cached_encoding (e : AstroEngine)
    (run : InferenceSession) (p : text) (o : GenerationOptions)
    (logits : tensor) :
  idle e ->
  session e = Some run ->
  isInitialized e = true ->
  cache_consistent (tokenizer e) (arrays e) ->
  (0 < iterations o)%nat ->
  run (runs e) (map to_int64 (encode_ids p (tokenizer e) (arrays e)))
    = Returns logits ->
  let e' := generate Math_exp Math_random p o e in
  encode_ids p (tokenizer e) (arrays e)
    = bpe (merges (tokenizer e)) (TextEncoder_encode p) /\
  exists extra, extra <> [] /\
    encode_ids p (tokenizer e') (arrays e')
      = bpe (merges (tokenizer e)) (TextEncoder_encode p) ++ extra.
Proof.
  intros (Hcalls & Hmutex & Hrel & Htrace) Hsess Hinit Hcache Hiter Hrun e'.
  split; [apply encode_ids_warm, Hcache |].
  set (ids := bpe (merges (tokenizer e)) (TextEncoder_encode p)).
  set (k0 := {| prompt := p; options := o; current := Resolved;
                 release := 0%nat; state := AwaitMutex |}).
  destruct (encode p (tokenizer e) (arrays e)) as [[l tk] h] eqn:Henc.
  assert (Hl : h !! l = Some ids /\ cache tk !! p = Some l /\
               merges tk = merges (tokenizer e)).
  { unfold encode in Henc. destruct (cache (tokenizer e) !! p) as [l0 |] eqn:Hc.
    - injection Henc as <- <- <-. repeat split; [| exact Hc].
      apply Hcache, Hc.
    - unfold alloc in Henc. injection Henc as <- <- <-. cbn [cache merges].
      repeat split.
      + apply list_lookup_middle. reflexivity.
      + apply lookup_insert_eq. }
  destruct Hl as (Hhl & Hcl & Hml).
  assert (Hids : encode_ids p (tokenizer e) (arrays e) = ids).
  { apply encode_ids_warm, Hcache. }
  set (e1 := generate_call p o e).
  assert (He1 : calls e1 !! 0%nat = Some k0).
  { unfold e1, generate_call. cbn [calls]. rewrite Hcalls, Hmutex.
    reflexivity. }
  set (e2 := enter 0 k0 e1).
  assert (Hg2 : grown tk l ids 0
                  (run_loop Math_exp Math_random (iterations o) 0 e2)).
  { destruct (iterations o) as [| fuel] eqn:Hfuel; [lia |].
    assert (He2 : e2 = suspend 0 (AwaitRun l [] 0 (runs e) (Returns logits))
                         h (S (runs e)) [RunInvoked 0 (map to_int64 ids)]
                         (with_tokenizer tk e1)).
    { unfold e2, enter, e1. cbn [session isInitialized generate_call
        tokenizer arrays prompt k0 options].
      rewrite Hsess, Hinit, Henc. unfold loop_head.
      rewrite Hfuel. cbn [Nat.ltb Nat.leb].
      unfold array_at. rewrite Hhl.
      cbn [default with_tokenizer generate_call session runs].
      rewrite Hsess. rewrite Hids in Hrun. unfold id. rewrite Hrun.
      reflexivity. }
    cbn [run_loop].
    assert (Hk2 : calls e2 !! 0%nat
                  = Some (with_state k0 (AwaitRun l [] 0 (runs e)
                                           (Returns logits)))).
    { rewrite He2. cbn [suspend calls with_tokenizer].
      rewrite list_lookup_alter_eq, He1. reflexivity. }
    rewrite Hk2. cbn [with_state state].
    apply run_loop_grown.
    apply (resume_returns_grown tk l ids []).
    - rewrite He2. reflexivity.
    - rewrite He2, app_nil_r. exact Hhl.
    - exact Hk2. }
  assert (Hfinal : tokenizer e' = tk /\
            exists extra, extra <> [] /\ arrays e' !! l = Some (ids ++ extra)).
  { unfold e', generate. rewrite Hcalls. cbn [length].
    fold e1. rewrite He1. cbn [current k0 fulfilled]. fold e2.
    destruct Hg2 as (Htk & Harr & _).
    destruct (calls (run_loop Math_exp Math_random (iterations o) 0 e2) !! 0%nat)
      as [k2 |]; [| split; assumption].
    destruct (state k2); split; assumption. }
  destruct Hfinal as (Htk' & extra & Hne & Harr').
  exists extra. split; [exact Hne |].
  unfold encode_ids, encode. rewrite Htk', Hcl. unfold array_at.
  rewrite Harr'. reflexivity.
Qed.

End CacheAliasing.

(** ** The engine at concrete inputs *)



Lemma ready_engine_idle tk run : idle (ready_engine tk run).
Proof. repeat split. Qed.

Lemma generate_grows_cached_encoding_witness :
  let p := text_of_string "a" in
  let e := ready_engine new_BPETokenizer (stub_session None) in
  let e' := generate exp_at_fixed_points always_half p one_token e in
  encode_ids p (tokenizer e) (arrays e)
    = bpe (merges (tokenizer e)) (TextEncoder_encode p) /\
  exists extra, extra <> [] /\
    encode_ids p (tokenizer e') (arrays e')
      = bpe (merges (tokenizer e)) (TextEncoder_encode p) ++ extra.
Proof.
  apply (generate_grows_cached_encoding exp_at_fixed_points always_half
           (ready_engine new_BPETokenizer (stub_session None))
           (stub_session None) (text_of_string "a") one_token
           {| dims := (1, 1, 3); data := [f64_zero; f64_one; f64_zero] |}).
  - apply ready_engine_idle.
  - reflexivity.
  - reflexivity.
  - intros t l H. cbn in H. rewrite lookup_empty in H. discriminate.
  - vm_compute. lia.
  - vm_compute. reflexivity.
Defined.

(** C1, at one input: after [generate("a", {maxTokens: 1, topK: 1})] on a
    new engine, [encode("a")] returns [97, 1], the byte of "a" followed by
    the sampled id; before the call it returned [97]. *)
Example encode_after_generate :
  let p := text_of_string "a" in
  let e := ready_engine new_BPETokenizer (stub_session None) in
  let e' := generate exp_at_fixed_points always_half p one_token e in
  encode_ids p (tokenizer e) (arrays e) = [97] /\
  result_of 0 e' = Some (Returns [1]) /\
  encode_ids p (tokenizer e') (arrays e') = [97; 1].
Proof. vm_compute. repeat split; reflexivity. Qed.



(** While the first of two queued calls is in its decode loop, the second
    cannot enter: the promise it awaits is not fulfilled. *)
Example second_call_waits :
  let e := enter 0 first_call two_queued in
  exists k, calls e !! 1%nat = Some k /\ state k = AwaitMutex /\
            fulfilled (released e) (current k) = false.
Proof. eexists. vm_compute. repeat split; reflexivity. Qed.

Lemma generations_are_serialized_witness :
  let e := enter 0 first_call two_queued in
  (forall i j ev1 ev2, (i < j)%nat ->
     trace e !! i = Some ev1 -> trace e !! j = Some ev2 ->
     (event_call ev1 <= event_call ev2)%nat) /\
  (forall c1 c2 k1 k2,
     calls e !! c1 = Some k1 -> calls e !! c2 = Some k2 ->
     holding (state k1) = true -> holding (state k2) = true -> c1 = c2) /\
  (forall ev c, ev ∈ trace e -> (c < event_call ev)%nat ->
     exists r, result_of c e = Some r) /\
  (forall c k, calls e !! c = Some k ->
     count_events (is_invocation c) (trace e) =
     (count_events (is_settlement c) (trace e) + pending_runs (state k))%nat).
Proof.
  apply (generations_are_serialized exp_at_fixed_points always_half
           (ready_engine new_BPETokenizer (stub_session None))).
  - apply ready_engine_idle.
  - eapply steps_step; [eapply steps_step; [eapply steps_step;
      [apply steps_refl |] |] |].
    + apply step_generate.
    + apply step_generate.
    + apply step_acquired; reflexivity.
Defined.





Lemma inference_failure_aborts_and_releases_witness :
  exists e2,
    steps exp_at_fixed_points always_half failing_engine e2 /\
    result_of 0 e2 = Some (Throws (SessionError 7)) /\
    (0%nat ∈ released e2) /\
    exists k' e3, calls e2 !! 1%nat = Some k' /\
                  step exp_at_fixed_points always_half e2 e3.
Proof.
  assert (Hsteps : steps exp_at_fixed_points always_half failing_engine
                     before_failure).
  { eapply steps_step; [eapply steps_step; [eapply steps_step;
      [eapply steps_step; [apply steps_refl |] |] |] |].
    - apply step_generate.
    - apply step_generate.
    - apply (step_acquired _ _ 0 first_call); reflexivity.
    - apply (step_run_settled _ _ 0 first_call_running); reflexivity. }
  pose proof (inference_failure_aborts_and_releases
                exp_at_fixed_points always_half failing_engine
                before_failure 0
                (with_state first_call
                   (AwaitRun 0 [1] 1 1 (Throws (SessionError 7))))
                0 [1] 1 1 (SessionError 7)
                (ready_engine_idle _ _) Hsteps eq_refl eq_refl) as H.
  cbv zeta in H. destruct H as (Hs1 & _ & Hs2 & Hres & Hrel & Hnext).
  eexists. split; [| split; [exact Hres | split; [exact Hrel |]]].
  - eapply steps_step; [eapply steps_step; [exact Hsteps | exact Hs1] |].
    exact Hs2.
  - eexists. eexists. split; [| apply Hnext]; vm_compute; reflexivity.
Defined.

(** ** Sampling *)

Lemma sort_insert_perm {A} (before : A -> A -> bool) x l :
  sort_insert before x l ≡ₚ x :: l.
Proof.
  induction l as [| y l IH]; [reflexivity |]. cbn [sort_insert].
  destruct (before x y); [reflexivity |].
  rewrite IH. apply Permutation_swap.
Qed.

Lemma sort_from_perm {A} (before : A -> A -> bool) l sorted :
  fold_left (fun sorted x => sort_insert before x sorted) l sorted
  ≡ₚ l ++ sorted.
Proof.
  revert sorted. induction l as [| x l IH]; intros sorted; [reflexivity |].
  cbn [fold_left app]. rewrite IH, sort_insert_perm.
  symmetry. apply Permutation_middle.
Qed.

Lemma sort_perm {A} (before : A -> A -> bool) l : sort before l ≡ₚ l.
Proof. unfold sort. rewrite sort_from_perm, app_nil_r. reflexivity. Qed.

Lemma sorted_indices_perm s : sorted_indices s ≡ₚ seq 0 (length s).
Proof. apply sort_perm. Qed.

Lemma sorted_indices_elem s i :
  i ∈ sorted_indices s <-> (i < length s)%nat.
Proof.
  rewrite sorted_indices_perm, list_elem_of_In, in_seq. lia.
Qed.

Lemma sorted_indices_NoDup s : NoDup (sorted_indices s).
Proof. rewrite sorted_indices_perm. apply NoDup_ListNoDup, seq_NoDup. Qed.

Lemma sorted_indices_length s : length (sorted_indices s) = length s.
Proof. rewrite sorted_indices_perm. apply length_seq. Qed.

Lemma kept_or_suppressed s k i :
  (i < length s)%nat ->
  i ∈ kept_indices s k \/ i ∈ suppressed_indices s k.
Proof.
  intros Hi. apply sorted_indices_elem in Hi.
  rewrite <- (take_drop (Z.to_nat k) (sorted_indices s)) in Hi.
  apply elem_of_app in Hi. exact Hi.
Qed.

Lemma kept_not_suppressed s k i :
  i ∈ kept_indices s k -> i ∉ suppressed_indices s k.
Proof.
  intros Hk Hs. pose proof (sorted_indices_NoDup s) as Hnd.
  rewrite <- (take_drop (Z.to_nat k) (sorted_indices s)) in Hnd.
  apply NoDup_app in Hnd as (_ & Hdisj & _). eapply Hdisj; eassumption.
Qed.

(** The loop of lines 193-195. *)
Lemma suppress_length idxs (s : list spec_float) :
  length (fold_left (fun s i => <[i := neg_infinity]> s) idxs s) = length s.
Proof.
  revert s. induction idxs as [| j idxs IH]; intros s; [reflexivity |].
  cbn [fold_left]. rewrite IH. apply length_insert.
Qed.

Lemma insert_lookup_const (s : list spec_float) j i :
  <[j := neg_infinity]> s !! i =
  if decide (i = j) then (fun _ => neg_infinity) <$> s !! i else s !! i.
Proof.
  destruct (decide (i = j)) as [-> | Hne].
  - destruct (s !! j) as [x |] eqn:Hj.
    + apply list_lookup_insert_eq. eapply lookup_lt_Some, Hj.
    + cbn. apply lookup_ge_None. rewrite length_insert.
      apply lookup_ge_None, Hj.
  - apply list_lookup_insert_ne. congruence.
Qed.

Lemma suppress_lookup idxs (s : list spec_float) i :
  fold_left (fun s i => <[i := neg_infinity]> s) idxs s !! i =
  if decide (i ∈ idxs) then (fun _ => neg_infinity) <$> s !! i else s !! i.
Proof.
  revert s. induction idxs as [| j idxs IH]; intros s.
  - cbn. rewrite decide_False by (intros H; inversion H). reflexivity.
  - cbn [fold_left]. rewrite IH, insert_lookup_const.
    destruct (decide (i = j)) as [-> | Hne].
    + rewrite (decide_True (P := j ∈ j :: idxs)) by left.
      destruct (decide (j ∈ idxs)); destruct (s !! j); reflexivity.
    + destruct (decide (i ∈ idxs)) as [Hi | Hi].
      * rewrite decide_True by (right; exact Hi). reflexivity.
      * rewrite decide_False; [reflexivity |].
        intros H. apply elem_of_cons in H as [H | H]; contradiction.
Qed.

Lemma top_k_filter_length s k : length (top_k_filter s k) = length s.
Proof.
  unfold top_k_filter. destruct (_ && _); [apply suppress_length | reflexivity].
Qed.

Lemma top_k_filter_lookup s k i :
  0 < k < Z.of_nat (length s) ->
  top_k_filter s k !! i =
  if decide (i ∈ suppressed_indices s k)
  then (fun _ => neg_infinity) <$> s !! i else s !! i.
Proof.
  intros Hk. unfold top_k_filter.
  replace ((0 <? k) && (k <? Z.of_nat (length s))) with true by lia.
  apply suppress_lookup.
Qed.

(** *** Rounding to a format *)

Lemma digits2_pos_size p : digits2_pos p = Pos.size p.
Proof. induction p as [p IH | p IH |]; cbn; congruence. Qed.

Lemma Zdigits2_log2 m : 0 < m -> Zdigits2 m = Z.log2 m + 1.
Proof.
  destruct m as [| p | p]; try lia. intros _. cbn [Zdigits2].
  rewrite digits2_pos_size. destruct p as [p | p |]; cbn; lia.
Qed.

Lemma Zdigits2_bounds m :
  0 < m -> 0 < Zdigits2 m /\ 2 ^ (Zdigits2 m - 1) <= m < 2 ^ Zdigits2 m.
Proof.
  intros Hm. rewrite Zdigits2_log2 by exact Hm.
  pose proof (Z.log2_nonneg m). pose proof (Z.log2_spec m Hm) as Hs.
  replace (Z.log2 m + 1 - 1) with (Z.log2 m) by lia.
  unfold Z.succ in Hs. lia.
Qed.

Lemma Zdigits2_unique m d :
  0 < d -> 2 ^ (d - 1) <= m < 2 ^ d -> Zdigits2 m = d.
Proof.
  intros Hd Hm.
  assert (0 < m) by (pose proof (Z.pow_pos_nonneg 2 (d - 1)); lia).
  rewrite Zdigits2_log2 by assumption.
  rewrite (Z.log2_unique m (d - 1)); [lia | lia |].
  unfold Z.succ. replace (d - 1 + 1) with d by lia. exact Hm.
Qed.

Lemma pow2_pos n : 0 <= n -> 0 < 2 ^ n.
Proof. intros Hn. apply Z.pow_pos_nonneg; lia. Qed.

Lemma pow2_le a b : 0 <= a <= b -> 2 ^ a <= 2 ^ b.
Proof. intros H. apply Z.pow_le_mono_r; lia. Qed.

Lemma pow2_split a b : 0 <= a -> 0 <= b -> 2 ^ (a + b) = 2 ^ a * 2 ^ b.
Proof. intros Ha Hb. apply Z.pow_add_r; assumption. Qed.

(** The digits a right shift leaves. *)
Lemma div_pow2_bounds m d n :
  0 <= n < d -> 2 ^ (d - 1) <= m < 2 ^ d ->
  2 ^ (d - n - 1) <= m / 2 ^ n < 2 ^ (d - n).
Proof.
  intros Hn Hm. pose proof (pow2_pos n ltac:(lia)) as Hp. split.
  - apply Z.div_le_lower_bound; [exact Hp |].
    rewrite <- pow2_split by lia. replace (n + (d - n - 1)) with (d - 1) by lia.
    apply Hm.
  - apply Z.div_lt_upper_bound; [exact Hp |].
    rewrite <- pow2_split by lia. replace (n + (d - n)) with d by lia.
    apply Hm.
Qed.

Lemma div_pow2_small m d n :
  0 <= d <= n -> 0 <= m < 2 ^ d -> m / 2 ^ n = 0.
Proof.
  intros Hn Hm. apply Z.div_small.
  pose proof (pow2_le d n ltac:(lia)). lia.
Qed.

Lemma shr_1_m r : 0 <= shr_m r -> shr_m (shr_1 r) = shr_m r / 2.
Proof.
  destruct r as [m b s]. cbn [shr_m]. intros Hm.
  rewrite <- Z.div2_div.
  destruct m as [| [p | p |] | p]; try reflexivity; lia.
Qed.

Lemma iter_shr_1_m p r :
  0 <= shr_m r ->
  shr_m (SpecFloat.iter_pos shr_1 p r) = shr_m r / 2 ^ Z.pos p.
Proof.
  revert r. induction p as [p IH | p IH |]; intros r Hr.
  - cbn [SpecFloat.iter_pos].
    assert (H1 : 0 <= shr_m (shr_1 r)).
    { rewrite shr_1_m by exact Hr. apply Z.div_pos; lia. }
    assert (H2 : 0 <= shr_m (SpecFloat.iter_pos shr_1 p (shr_1 r))).
    { rewrite IH by exact H1. apply Z.div_pos; [exact H1 |].
      apply pow2_pos; lia. }
    rewrite IH by exact H2. rewrite IH by exact H1.
    rewrite shr_1_m by exact Hr.
    pose proof (pow2_pos (Z.pos p) ltac:(lia)).
    rewrite !Z.div_div by lia.
    f_equal. change 2 with (2 ^ 1) at 1. rewrite <- !pow2_split by lia.
    f_equal. lia.
  - cbn [SpecFloat.iter_pos].
    assert (H2 : 0 <= shr_m (SpecFloat.iter_pos shr_1 p r)).
    { rewrite IH by exact Hr. apply Z.div_pos; [exact Hr |].
      apply pow2_pos; lia. }
    rewrite IH by exact H2. rewrite IH by exact Hr.
    pose proof (pow2_pos (Z.pos p) ltac:(lia)).
    rewrite !Z.div_div by lia.
    f_equal. rewrite <- !pow2_split by lia. f_equal. lia.
  - cbn [SpecFloat.iter_pos]. apply shr_1_m, Hr.
Qed.

Lemma shr_m_of_loc m l : shr_m (shr_record_of_loc m l) = m.
Proof. destruct l as [| []]; reflexivity. Qed.

(** A right shift by [n] places; none when [n] is not positive. *)
Lemma shr_spec r e n :
  0 <= shr_m r ->
  shr_m (fst (shr r e n)) = shr_m r / 2 ^ Z.max 0 n /\
  snd (shr r e n) = e + Z.max 0 n.
Proof.
  intros Hr. destruct n as [| p | p]; cbn [shr fst snd].
  - change (Z.max 0 0) with 0. change (2 ^ 0) with 1.
    rewrite Z.div_1_r. split; [reflexivity | lia].
  - rewrite iter_shr_1_m by exact Hr.
    replace (Z.max 0 (Z.pos p)) with (Z.pos p) by lia. split; reflexivity.
  - replace (Z.max 0 (Z.neg p)) with 0 by lia. change (2 ^ 0) with 1.
    rewrite Z.div_1_r. split; [reflexivity | lia].
Qed.

Lemma round_nearest_even_cases m l :
  round_nearest_even m l = m \/ round_nearest_even m l = m + 1.
Proof.
  destruct l as [| []]; cbn; auto. destruct (Z.even m); auto.
Qed.

Lemma shift_left_pos (m d : positive) :
  Z.pos (Pos.iter xO m d) = Z.pos m * 2 ^ Z.pos d.
Proof.
  apply (Pos.iter_ind positive xO m
           (fun d r => Z.pos r = Z.pos m * 2 ^ Z.pos d)).
  - rewrite Pos2Z.inj_xO. change (2 ^ 1) with 2. ring.
  - intros p a' IH. rewrite Pos2Z.inj_xO, IH, Pos2Z.inj_succ.
    unfold Z.succ. rewrite pow2_split by lia. change (2 ^ 1) with 2. ring.
Qed.

Section Format.

Variables prec emax : Z.
Hypothesis Hprec : 0 < prec.

Local Abbreviation fexp := (fexp prec emax).
Local Abbreviation emin := (emin prec emax).

Local Abbreviation shift_of := (shift_of prec emax).
Local Abbreviation packed := (packed prec emax).

Lemma binary_round_aux_shape s m e l :
  0 <= m ->
  let m1 := m / 2 ^ shift_of m e in
  let e1 := e + shift_of m e in
  exists m2, (m2 = m1 \/ m2 = m1 + 1) /\
    binary_round_aux prec emax s m e l =
    packed s (m2 / 2 ^ shift_of m2 e1) (e1 + shift_of m2 e1).
Proof.
  intros Hm m1 e1. unfold binary_round_aux, shr_fexp.
  pose proof (shr_spec (shr_record_of_loc m l) e
                (fexp (Zdigits2 m + e) - e)) as H1.
  rewrite shr_m_of_loc in H1. specialize (H1 Hm).
  destruct (shr (shr_record_of_loc m l) e _) as [r1 e1'].
  cbn [fst snd] in H1. destruct H1 as [Hm1 He1].
  change (Z.max 0 (fexp (Zdigits2 m + e) - e)) with (shift_of m e) in Hm1, He1.
  fold m1 in Hm1. fold e1 in He1.
  subst e1'.
  set (m2 := round_nearest_even (shr_m r1) (loc_of_shr_record r1)).
  assert (H0 : 0 <= m1).
  { unfold m1. apply Z.div_pos; [exact Hm |]. apply pow2_pos.
    unfold shift_of. lia. }
  assert (Hm2 : m2 = m1 \/ m2 = m1 + 1).
  { unfold m2. rewrite Hm1. apply round_nearest_even_cases. }
  exists m2. split; [exact Hm2 |].
  pose proof (shr_spec (shr_record_of_loc m2 loc_Exact) e1
                (fexp (Zdigits2 m2 + e1) - e1)) as H2.
  rewrite shr_m_of_loc in H2. specialize (H2 ltac:(lia)).
  destruct (shr (shr_record_of_loc m2 loc_Exact) e1 _) as [r2 e2].
  cbn [fst snd] in H2. destruct H2 as [Hm3 He3].
  change (Z.max 0 (fexp (Zdigits2 m2 + e1) - e1)) with (shift_of m2 e1)
    in Hm3, He3.
  rewrite Hm3, He3. reflexivity.
Qed.

Lemma emin_le_fexp e : emin <= fexp e.
Proof. unfold SpecFloat.fexp. lia. Qed.

Lemma shift_keeps_positive m e :
  0 < m -> emin <= e ->
  0 < m / 2 ^ shift_of m e /\ emin <= e + shift_of m e.
Proof.
  intros Hm He. destruct (Zdigits2_bounds m Hm) as [Hd Hb].
  assert (Hn : 0 <= shift_of m e < Zdigits2 m).
  { unfold shift_of, SpecFloat.fexp. lia. }
  split; [| lia].
  pose proof (div_pow2_bounds m (Zdigits2 m) (shift_of m e) Hn Hb)
    as [Hlow _].
  pose proof (pow2_pos (Zdigits2 m - shift_of m e - 1) ltac:(lia)). lia.
Qed.

Lemma binary_round_aux_nonzero s m e l :
  0 < m -> emin <= e ->
  exists m3 e3, 0 < m3 /\
    binary_round_aux prec emax s m e l = packed s m3 e3.
Proof.
  intros Hm He.
  destruct (binary_round_aux_shape s m e l ltac:(lia)) as (m2 & Hm2 & ->).
  destruct (shift_keeps_positive m e Hm He) as [H1 He1].
  destruct (shift_keeps_positive m2 _ ltac:(lia) He1) as [H3 _].
  eexists _, _. split; [exact H3 | reflexivity].
Qed.

Lemma shl_align_spec mx ex e' :
  snd (shl_align mx ex e') = Z.min ex e' /\
  Z.pos (fst (shl_align mx ex e')) =
    Z.pos mx * 2 ^ (ex - snd (shl_align mx ex e')).
Proof.
  unfold shl_align. destruct (e' - ex) as [| d | d] eqn:Hd; cbn [fst snd].
  - rewrite Z.sub_diag. change (2 ^ 0) with 1. lia.
  - rewrite Z.sub_diag. change (2 ^ 0) with 1. lia.
  - rewrite shift_left_pos. replace (ex - e') with (Z.pos d) by lia. lia.
Qed.

Lemma binary_round_nonzero s m e :
  emin <= e ->
  exists m3 e3, 0 < m3 /\ binary_round prec emax s m e = packed s m3 e3.
Proof.
  intros He. unfold binary_round.
  pose proof (shl_align_spec m e (fexp (Z.pos (digits2_pos m) + e)))
    as [He' _].
  destruct (shl_align m e _) as [mz ez]. cbn [snd] in He'.
  apply binary_round_aux_nonzero; [lia |].
  pose proof (emin_le_fexp (Z.pos (digits2_pos m) + e)). lia.
Qed.

Lemma packed_valid s m e :
  (0 < m -> fexp (Zdigits2 m + e) = e) ->
  0 <= m -> valid_binary prec emax (packed s m e) = true.
Proof.
  intros Hc Hm. destruct m as [| p | p]; [reflexivity | | lia].
  unfold packed. destruct (e <=? emax - prec) eqn:He; [| reflexivity].
  cbn [valid_binary]. unfold bounded, canonical_mantissa.
  rewrite He, andb_true_r. apply Z.eqb_eq. apply Hc. lia.
Qed.

Lemma digits_le_prec m : 0 < m < 2 ^ prec -> Zdigits2 m <= prec.
Proof.
  intros Hm. destruct (Zdigits2_bounds m ltac:(lia)) as [Hd Hb].
  destruct (Z.le_gt_cases (Zdigits2 m) prec) as [H | H]; [exact H |].
  pose proof (pow2_le prec (Zdigits2 m - 1) ltac:(lia)). lia.
Qed.

(** What [binary_round_aux] returns is in the format, whenever the
    exponent it is given is not above the one of the format. *)
Lemma binary_round_aux_valid s m e l :
  0 < m -> e <= fexp (Zdigits2 m + e) ->
  valid_binary prec emax (binary_round_aux prec emax s m e l) = true.
Proof.
  intros Hm He.
  destruct (binary_round_aux_shape s m e l ltac:(lia)) as (m2 & Hm2 & ->).
  destruct (Zdigits2_bounds m Hm) as [Hd Hb].
  set (d := Zdigits2 m) in *.
  assert (Hn : shift_of m e = fexp (d + e) - e).
  { unfold shift_of. fold d. lia. }
  set (n := shift_of m e) in *.
  set (m1 := m / 2 ^ n) in *. set (e1 := e + n) in *.
  assert (He1 : e1 = fexp (d + e)) by (unfold e1; lia).
  assert (Hmin : emin <= e1) by (rewrite He1; apply emin_le_fexp).
  assert (Hpp : 0 < 2 ^ prec) by (apply pow2_pos; lia).
  assert (H0 : 0 <= m1).
  { unfold m1. apply Z.div_pos; [lia |]. apply pow2_pos. lia. }
  assert (F1 : m1 < 2 ^ prec).
  { destruct (Z.lt_ge_cases n d) as [Hlt | Hge].
    - pose proof (div_pow2_bounds m d n ltac:(lia) Hb) as [_ Hup].
      fold m1 in Hup.
      assert (d - n <= prec) by (unfold SpecFloat.fexp in Hn; lia).
      pose proof (pow2_le (d - n) prec ltac:(lia)). lia.
    - unfold m1. rewrite (div_pow2_small m d n); lia. }
  assert (F2 : emin < e1 -> 2 ^ (prec - 1) <= m1).
  { intros Hgt. unfold SpecFloat.fexp in He1, Hn, He.
    assert (Hnd : n = d - prec) by lia.
    pose proof (div_pow2_bounds m d n ltac:(lia) Hb) as [Hlow _].
    fold m1 in Hlow. replace (d - n - 1) with (prec - 1) in Hlow by lia.
    exact Hlow. }
  clearbody m1 e1. clear He1 Hn.
  destruct (Z.eq_dec m2 0) as [-> | Hnz].
  { apply packed_valid.
    - rewrite Z.div_0_l; [lia |].
      pose proof (pow2_pos (shift_of 0 e1)
                    ltac:(unfold shift_of; lia)). lia.
    - rewrite Z.div_0_l; [lia |].
      pose proof (pow2_pos (shift_of 0 e1)
                    ltac:(unfold shift_of; lia)). lia. }
  assert (Hm2pos : 0 < m2) by lia.
  destruct (Z.eq_dec m2 (2 ^ prec)) as [Htop | Hbelow].
  - assert (Hd2 : Zdigits2 m2 = prec + 1).
    { apply Zdigits2_unique; [lia |].
      replace (prec + 1 - 1) with prec by lia. rewrite Htop.
      rewrite (pow2_split prec 1) by lia. change (2 ^ 1) with 2. lia. }
    assert (Hs : shift_of m2 e1 = 1).
    { unfold shift_of, SpecFloat.fexp. rewrite Hd2. lia. }
    rewrite Hs. change (2 ^ 1) with 2.
    assert (Hm3 : m2 / 2 = 2 ^ (prec - 1)).
    { rewrite Htop. replace prec with (prec - 1 + 1) at 1 by lia.
      rewrite pow2_split by lia. change (2 ^ 1) with 2.
      apply Z.div_mul. lia. }
    rewrite Hm3.
    pose proof (pow2_pos (prec - 1) ltac:(lia)) as Hp1.
    apply packed_valid; [| lia]. intros _.
    rewrite (Zdigits2_unique (2 ^ (prec - 1)) prec); [| lia |].
    + unfold SpecFloat.fexp. lia.
    + split; [lia |]. replace prec with (prec - 1 + 1) at 2 by lia.
      rewrite pow2_split by lia. change (2 ^ 1) with 2. lia.
  - assert (Hlt : m2 < 2 ^ prec) by lia.
    pose proof (digits_le_prec m2 ltac:(lia)) as Hd2.
    destruct (Zdigits2_bounds m2 Hm2pos) as [Hd2pos Hb2].
    assert (Hf : fexp (Zdigits2 m2 + e1) = e1).
    { unfold SpecFloat.fexp. destruct (Z.eq_dec e1 emin) as [Heq | Hne].
      - fold emin. lia.
      - assert (Hd2' : Zdigits2 m2 = prec).
        { apply Zdigits2_unique; [lia |]. specialize (F2 ltac:(lia)). lia. }
        rewrite Hd2'. fold emin. lia. }
    assert (Hs : shift_of m2 e1 = 0).
    { unfold shift_of. rewrite Hf. lia. }
    rewrite Hs. change (2 ^ 0) with 1. rewrite Z.div_1_r, Z.add_0_r.
    apply packed_valid; [| lia]. intros _. exact Hf.
Qed.

(** Every result of [binary_round] is in the format. *)
Lemma binary_round_valid s m e :
  valid_binary prec emax (binary_round prec emax s m e) = true.
Proof.
  unfold binary_round.
  pose proof (shl_align_spec m e (fexp (Z.pos (digits2_pos m) + e)))
    as [He' Hm'].
  destruct (shl_align m e _) as [mz ez]. cbn [fst snd] in He', Hm'.
  apply binary_round_aux_valid; [lia |].
  set (d := Z.pos (digits2_pos m)) in *.
  destruct (Z.le_gt_cases e (fexp (d + e))) as [Hle | Hgt].
  - assert (Hez : ez = e) by lia. clear He'. subst ez.
    rewrite Z.sub_diag in Hm'. change (2 ^ 0) with 1 in Hm'.
    assert (Hmz : mz = m) by lia. subst mz. exact Hle.
  - assert (Hez : ez = fexp (d + e)) by lia. clear He'.
    destruct (Zdigits2_bounds (Z.pos m) ltac:(lia)) as [_ Hb].
    change (Zdigits2 (Z.pos m)) with d in Hb.
    assert (Hdz : Zdigits2 (Z.pos mz) = d + (e - ez)).
    { apply Zdigits2_unique; [lia |]. rewrite Hm'.
      replace (d + (e - ez) - 1) with ((d - 1) + (e - ez)) by lia.
      rewrite !pow2_split by lia.
      pose proof (pow2_pos (e - ez) ltac:(lia)). nia. }
    rewrite Hdz. replace (d + (e - ez) + ez) with (d + e) by lia. lia.
Qed.

End Format.

(** *** The order of the numbers *)

Lemma SFltb_rank x y :
  is_number x = true -> is_number y = true ->
  (SFltb x y = true <-> lex_lt (rank x) (rank y)).
Proof.
  unfold SFltb, lex_lt.
  destruct x as [[] | [] | | [] mx ex]; destruct y as [[] | [] | | [] my ey];
    try discriminate; intros _ _; cbn [SFcompare rank fst snd];
    try (split; [discriminate | lia]); try (split; [reflexivity | lia]);
    try (split; [lia | reflexivity]).
  - change (Pos.compare_cont Eq mx my) with (Pos.compare mx my).
    destruct (Z.compare_spec ex ey); destruct (Pos.compare_spec mx my);
      cbn [CompOpp]; split; intros H'; try discriminate; try reflexivity;
      lia.
  - change (Pos.compare_cont Eq mx my) with (Pos.compare mx my).
    destruct (Z.compare_spec ex ey); destruct (Pos.compare_spec mx my);
      split; intros H'; try discriminate; try reflexivity; lia.
Qed.

Lemma SFltb_irrefl x : SFltb x x = false.
Proof.
  destruct (SFltb x x) eqn:H; [| reflexivity].
  destruct x as [[] | [] | | [] mx ex]; try discriminate.
  - apply SFltb_rank in H; [| reflexivity ..]. unfold lex_lt in H. lia.
  - apply SFltb_rank in H; [| reflexivity ..]. unfold lex_lt in H. lia.
Qed.

Lemma SFltb_trans x y z :
  SFltb x y = true -> SFltb y z = true -> SFltb x z = true.
Proof.
  intros Hxy Hyz.
  assert (Hx : is_number x = true) by (destruct x; [..| discriminate |]; reflexivity).
  assert (Hy : is_number y = true) by (destruct y; [..| destruct x; discriminate |]; reflexivity).
  assert (Hz : is_number z = true) by (destruct z; [..| destruct y; discriminate |]; reflexivity).
  apply SFltb_rank in Hxy, Hyz; try assumption.
  apply SFltb_rank; try assumption.
  unfold lex_lt in *. lia.
Qed.

Lemma SFltb_negtrans x y z :
  is_number x = true -> is_number y = true -> is_number z = true ->
  SFltb x y = false -> SFltb y z = false -> SFltb x z = false.
Proof.
  intros Hx Hy Hz Hxy Hyz.
  destruct (SFltb x z) eqn:Hxz; [| reflexivity].
  apply SFltb_rank in Hxz; try assumption.
  assert (H1 : ~ lex_lt (rank x) (rank y)).
  { intros H. apply SFltb_rank in H; try assumption. congruence. }
  assert (H2 : ~ lex_lt (rank y) (rank z)).
  { intros H. apply SFltb_rank in H; try assumption. congruence. }
  unfold lex_lt in *. lia.
Qed.

(** *** The sign of a difference *)

Section Difference.

Variables prec emax : Z.
Hypothesis Hprec : 0 < prec.

Local Abbreviation fexp := (SpecFloat.fexp prec emax).
Local Abbreviation emin := (SpecFloat.emin prec emax).

Lemma bounded_range m e :
  bounded prec emax m e = true ->
  emin <= e /\ Z.pos m < 2 ^ prec /\ (emin < e -> 2 ^ (prec - 1) <= Z.pos m).
Proof.
  unfold bounded, canonical_mantissa. intros H.
  apply andb_true_iff in H as [H _]. apply Z.eqb_eq in H.
  destruct (Zdigits2_bounds (Z.pos m) ltac:(lia)) as [Hd Hb].
  change (Zdigits2 (Z.pos m)) with (Z.pos (digits2_pos m)) in Hd, Hb.
  set (d := Z.pos (digits2_pos m)) in *. unfold SpecFloat.fexp in H.
  split; [fold emin in H; lia |]. split.
  - pose proof (pow2_le d prec ltac:(fold emin in H; lia)). lia.
  - intros Hgt. fold emin in H. replace (prec - 1) with (d - 1) by lia.
    apply Hb.
Qed.

(** Two numbers of the format compare as their mantissas do once these
    are aligned on the lower exponent. *)
Lemma compare_aligned m1 e1 m2 e2 :
  bounded prec emax m1 e1 = true -> bounded prec emax m2 e2 = true ->
  match e1 ?= e2 with
  | Lt => Lt
  | Gt => Gt
  | Eq => Pos.compare_cont Eq m1 m2
  end =
  (Z.pos m1 * 2 ^ (e1 - Z.min e1 e2) ?= Z.pos m2 * 2 ^ (e2 - Z.min e1 e2)).
Proof.
  intros H1 H2.
  destruct (bounded_range m1 e1 H1) as (Hmin1 & Hup1 & Hlow1).
  destruct (bounded_range m2 e2 H2) as (Hmin2 & Hup2 & Hlow2).
  assert (Hpp : 2 ^ prec = 2 * 2 ^ (prec - 1)).
  { replace prec with (1 + (prec - 1)) at 1 by lia.
    rewrite pow2_split by lia. reflexivity. }
  assert (Hbig : forall k, 1 <= k -> 2 <= 2 ^ k).
  { intros k Hk. pose proof (pow2_le 1 k ltac:(lia)) as H.
    change (2 ^ 1) with 2 in H. exact H. }
  destruct (Z.compare_spec e1 e2) as [Heq | Hlt | Hgt].
  - subst e2. rewrite Z.min_id, Z.sub_diag. change (2 ^ 0) with 1.
    rewrite !Z.mul_1_r. reflexivity.
  - replace (Z.min e1 e2) with e1 by lia. rewrite Z.sub_diag.
    change (2 ^ 0) with 1. rewrite Z.mul_1_r. symmetry.
    apply Z.compare_lt_iff.
    specialize (Hlow2 ltac:(lia)). specialize (Hbig (e2 - e1) ltac:(lia)).
    nia.
  - replace (Z.min e1 e2) with e2 by lia. rewrite Z.sub_diag.
    change (2 ^ 0) with 1. rewrite Z.mul_1_r. symmetry.
    apply Z.compare_gt_iff.
    specialize (Hlow1 ltac:(lia)). specialize (Hbig (e1 - e2) ltac:(lia)).
    nia.
Qed.

Lemma SFltb_packed s m e :
  0 < m -> SFltb (packed prec emax s m e) (S754_zero false) = s.
Proof.
  destruct m as [| p | p]; try lia. intros _. unfold packed.
  destruct (e <=? emax - prec); destruct s; reflexivity.
Qed.

Lemma binary_normalize_sign D e :
  emin <= e ->
  SFltb (binary_normalize prec emax D e false) (S754_zero false) = (D <? 0).
Proof.
  intros He. destruct D as [| p | p]; cbn [binary_normalize].
  - reflexivity.
  - destruct (binary_round_nonzero prec emax Hprec false p e He)
      as (m3 & e3 & H3 & ->).
    rewrite SFltb_packed by exact H3. reflexivity.
  - destruct (binary_round_nonzero prec emax Hprec true p e He)
      as (m3 & e3 & H3 & ->).
    rewrite SFltb_packed by exact H3. reflexivity.
Qed.

Lemma aligned_mantissa m e ez :
  ez <= e -> Z.pos (fst (shl_align m e ez)) = Z.pos m * 2 ^ (e - ez).
Proof.
  intros H. destruct (shl_align_spec m e ez) as [H1 H2].
  rewrite H2, H1. replace (Z.min e ez) with ez by lia. reflexivity.
Qed.

(** A difference is below zero exactly when its first number is below
    the second. *)
Lemma SFsub_negative x y :
  valid_binary prec emax x = true -> valid_binary prec emax y = true ->
  is_number x = true -> is_number y = true ->
  SFltb (SFsub prec emax x y) (S754_zero false) = SFltb x y.
Proof.
  destruct x as [[] | [] | | sx mx ex]; destruct y as [[] | [] | | sy my ey];
    try discriminate; try reflexivity;
    try (destruct sy; reflexivity); try (destruct sx; reflexivity).
  cbn [valid_binary]. intros Hx Hy _ _.
  destruct (bounded_range mx ex Hx) as (Hminx & _ & _).
  destruct (bounded_range my ey Hy) as (Hminy & _ & _).
  cbn [SFsub]. cbv zeta.
  rewrite binary_normalize_sign by lia.
  rewrite !aligned_mantissa by lia.
  pose proof (compare_aligned mx ex my ey Hx Hy) as Hc.
  set (A := Z.pos mx * 2 ^ (ex - Z.min ex ey)) in *.
  set (B := Z.pos my * 2 ^ (ey - Z.min ex ey)) in *.
  assert (HA : 0 < A).
  { unfold A. pose proof (pow2_pos (ex - Z.min ex ey) ltac:(lia)). nia. }
  assert (HB : 0 < B).
  { unfold B. pose proof (pow2_pos (ey - Z.min ex ey) ltac:(lia)). nia. }
  unfold SFltb. cbn [SFcompare].
  destruct sx, sy; cbn [cond_Zopp].
  - assert (Hm : match ex ?= ey with
                 | Lt => Gt | Gt => Lt
                 | Eq => CompOpp (Pos.compare_cont Eq mx my)
                 end = CompOpp (A ?= B)).
    { rewrite <- Hc. destruct (ex ?= ey); reflexivity. }
    rewrite Hm. destruct (Z.compare_spec A B); cbn [CompOpp]; lia.
  - lia.
  - lia.
  - rewrite Hc. destruct (Z.compare_spec A B); lia.
Qed.

End Difference.

(** *** The scaled scores *)

Lemma fround_valid x : valid_binary 53 1024 (fround x) = true.
Proof.
  destruct x as [s | s | | s m e]; try reflexivity. unfold fround.
  destruct (binary_round 24 128 s m e) as [s' | s' | | s' m' e'];
    try reflexivity.
  apply binary_round_valid. lia.
Qed.

Lemma scale_valid logits T i :
  valid_binary 53 1024 (read (scale logits T) i) = true.
Proof.
  unfold read, scale. rewrite list_lookup_fmap.
  destruct (logits !! i); [apply fround_valid | reflexivity].
Qed.

(** *** Signs of floating-point results *)


Lemma binary_round_aux_sign prec emax sx mx ex lx :
  sign_of (binary_round_aux prec emax sx mx ex lx) = Some sx \/
  binary_round_aux prec emax sx mx ex lx = S754_nan.
Proof.
  unfold binary_round_aux.
  destruct (shr_fexp prec emax mx ex lx) as [mrs' e'].
  destruct (shr_fexp prec emax _ e' loc_Exact) as [mrs'' e''].
  destruct (shr_m mrs'') as [| m | m]; [left; reflexivity | | right; reflexivity].
  destruct (e'' <=? emax - prec); left; reflexivity.
Qed.

Lemma binary_round_sign prec emax sx mx ex :
  sign_of (binary_round prec emax sx mx ex) = Some sx \/
  binary_round prec emax sx mx ex = S754_nan.
Proof.
  unfold binary_round. destruct (shl_align mx ex _) as [mz ez].
  apply binary_round_aux_sign.
Qed.

Lemma not_negative_sign x :
  not_negative x = true <->
  (sign_of x = Some false \/ x = S754_nan \/ exists s, x = S754_zero s).
Proof.
  destruct x as [[] | [] | | [] m e]; cbn; split; intros H;
    try reflexivity; try discriminate; eauto;
    destruct H as [H | [H | [s H]]]; discriminate.
Qed.

Lemma not_negative_rounded x sx :
  (sign_of x = Some sx \/ x = S754_nan) -> sx = false ->
  not_negative x = true.
Proof.
  intros [H | ->] ->; [| reflexivity].
  apply not_negative_sign. left. exact H.
Qed.

Lemma fround_not_negative x :
  not_negative x = true -> not_negative (fround x) = true.
Proof.
  destruct x as [s | s | | s m e]; try (intros H; exact H).
  intros H. destruct s; [discriminate |]. unfold fround.
  destruct (binary_round_sign 24 128 false m e) as [Hs | Hn];
    [| rewrite Hn; reflexivity].
  destruct (binary_round 24 128 false m e) as [s' | s' | | s' m' e'];
    cbn in Hs; try injection Hs as ->; try reflexivity.
  eapply not_negative_rounded; [apply binary_round_sign | reflexivity].
Qed.

Lemma f64_add_not_negative a b :
  not_negative a = true -> not_negative b = true ->
  not_negative (f64_add a b) = true.
Proof.
  destruct a as [[] | [] | | [] ma ea]; destruct b as [[] | [] | | [] mb eb];
    try discriminate; try reflexivity.
  intros _ _. unfold f64_add, SFadd. cbn [cond_Zopp Z.add].
  unfold binary_normalize.
  eapply not_negative_rounded; [apply binary_round_sign | reflexivity].
Qed.

Lemma f64_mul_not_negative a b :
  not_negative a = true -> not_negative b = true ->
  not_negative (f64_mul a b) = true.
Proof.
  destruct a as [[] | [] | | [] ma ea]; destruct b as [[] | [] | | [] mb eb];
    try discriminate; try reflexivity.
  intros _ _. unfold f64_mul, SFmul. cbn [xorb].
  eapply not_negative_rounded; [apply binary_round_aux_sign | reflexivity].
Qed.

Lemma ltb_add_zero r c :
  SFltb r (f64_add c f64_zero) = SFltb r c.
Proof.
  destruct c as [[] | [] | | [] mc ec]; destruct r as [[] | [] | | [] mr er];
    reflexivity.
Qed.

Lemma f64_sub_diag x : is_finite x = true -> f64_sub x x = f64_zero.
Proof.
  destruct x as [[] | [] | | s m e]; try discriminate; try reflexivity.
  intros _. unfold f64_sub, SFsub. rewrite Z.sub_diag. reflexivity.
Qed.

Lemma finite_above_neg_infinity x :
  is_finite x = true ->
  SFltb neg_infinity x = true /\ SFltb x neg_infinity = false /\
  SFeqb x neg_infinity = false.
Proof.
  destruct x as [[] | [] | | [] m e]; try discriminate; repeat split.
Qed.

Lemma f64_mul_one u :
  valid_binary 53 1024 u = true -> f64_mul u f64_one = u.
Proof.
  destruct u as [[] | [] | | s m e]; try reflexivity.
  cbn [valid_binary]. unfold bounded, canonical_mantissa, fexp, emin.
  intros Hb. apply andb_true_iff in Hb as [Hc He].
  apply Z.eqb_eq in Hc. apply Z.leb_le in He.
  unfold f64_mul, f64_one, SFmul. rewrite xorb_false_r, Pos.mul_comm.
  let t := eval vm_compute in (4503599627370496 * m)%positive in
    change (4503599627370496 * m)%positive with t.
  unfold binary_round_aux, shr_fexp, fexp, emin.
  cbn [Zdigits2 digits2_pos shr_record_of_loc].
  match goal with
  | |- context [shr ?r ?x ?n] =>
    replace n with 52 by (rewrite !Pos2Z.inj_succ; lia)
  end.
  unfold shr at 1.
  match goal with
  | |- context [SpecFloat.iter_pos shr_1 52 ?r] =>
    let t := eval vm_compute in (SpecFloat.iter_pos shr_1 52 r) in
    change (SpecFloat.iter_pos shr_1 52 r) with t
  end.
  replace (e + -52 + 52) with e by lia.
  cbn [shr_m loc_of_shr_record round_nearest_even Zdigits2].
  replace ((Z.pos (digits2_pos m) + e - 53) `max` (3 - 1024 - 53) - e)
    with 0 by lia.
  cbn [shr shr_m].
  replace (e <=? 1024 - 53) with true by lia. reflexivity.
Qed.

(** *** The cumulative walk *)

Section SamplingFacts.

Variable Math_exp : spec_float -> spec_float.

Lemma scale_length logits T : length (scale logits T) = length logits.
Proof. apply length_map. Qed.

Lemma softmax_lookup s i :
  softmax Math_exp s !! i = prob Math_exp (max_logit s) <$> s !! i.
Proof. apply list_lookup_fmap. Qed.

Lemma prob_neg_infinity maxLogit :
  prob Math_exp maxLogit neg_infinity = f64_zero.
Proof. reflexivity. Qed.

Lemma prob_not_negative maxLogit x :
  (forall y, not_negative (Math_exp y) = true) ->
  not_negative (prob Math_exp maxLogit x) = true.
Proof.
  intros Hexp. unfold prob. destruct (SFeqb x neg_infinity); [reflexivity |].
  apply fround_not_negative, Hexp.
Qed.

Lemma sum_exp_not_negative s :
  (forall y, not_negative (Math_exp y) = true) ->
  not_negative (sum_exp Math_exp s) = true.
Proof.
  intros Hexp. unfold sum_exp.
  generalize (max_logit s). intros maxLogit.
  assert (H0 : not_negative f64_zero = true) by reflexivity.
  revert H0. generalize f64_zero. induction s as [| x s IH]; intros acc Hacc.
  - exact Hacc.
  - cbn [fold_left]. apply IH. destruct (SFeqb x neg_infinity); [exact Hacc |].
    apply f64_add_not_negative; [exact Hacc |].
    apply prob_not_negative, Hexp.
Qed.

Lemma walk_stops_on_mass r c i0 probs i :
  walk r c i0 probs = Some i ->
  SFltb r c = false ->
  (i0 <= i)%nat /\
  exists p, probs !! (i - i0)%nat = Some p /\ p <> f64_zero.
Proof.
  revert c i0. induction probs as [| p probs IH]; intros c i0; [discriminate |].
  cbn [walk]. destruct (SFltb r (f64_add c p)) eqn:Hlt.
  - intros [= <-] Hc. split; [lia |]. rewrite Nat.sub_diag.
    exists p. split; [reflexivity |]. intros ->.
    rewrite ltb_add_zero in Hlt. congruence.
  - intros Hw _. destruct (IH _ _ Hw Hlt) as (Hle & q & Hq & Hne).
    split; [lia |]. exists q. split; [| exact Hne].
    replace (i - i0)%nat with (S (i - S i0)) by lia. exact Hq.
Qed.

Lemma suppressed_probability scaledLogits topK i :
  0 < topK < Z.of_nat (length scaledLogits) ->
  i ∈ suppressed_indices scaledLogits topK ->
  softmax Math_exp (top_k_filter scaledLogits topK) !! i = Some f64_zero.
Proof.
  intros Hk Hi. rewrite softmax_lookup, top_k_filter_lookup by exact Hk.
  rewrite decide_True by exact Hi.
  assert (Hlt : (i < length scaledLogits)%nat).
  { apply sorted_indices_elem. unfold suppressed_indices in Hi.
    eapply subseteq_drop, Hi. }
  destruct (lookup_lt_is_Some_2 _ _ Hlt) as [x ->]. reflexivity.
Qed.

Lemma walk_selects_kept scaledLogits topK r i :
  0 < topK < Z.of_nat (length scaledLogits) ->
  SFltb r f64_zero = false ->
  walk r f64_zero 0 (softmax Math_exp (top_k_filter scaledLogits topK))
    = Some i ->
  i ∈ kept_indices scaledLogits topK.
Proof.
  intros Hk Hr Hw.
  destruct (walk_stops_on_mass _ _ _ _ _ Hw Hr) as (_ & p & Hp & Hne).
  rewrite Nat.sub_0_r in Hp.
  assert (Hlt : (i < length scaledLogits)%nat).
  { apply lookup_lt_Some in Hp.
    unfold softmax in Hp. rewrite length_map, top_k_filter_length in Hp.
    exact Hp. }
  destruct (kept_or_suppressed scaledLogits topK i Hlt) as [H | H];
    [exact H |].
  rewrite (suppressed_probability _ _ _ Hk H) in Hp. congruence.
Qed.

(** With all other scores suppressed, the loops see one finite score. *)
Lemma max_logit_single j x n :
  is_finite x = true ->
  max_logit (replicate j neg_infinity ++ x :: replicate n neg_infinity) = x.
Proof.
  intros Hx. destruct (finite_above_neg_infinity x Hx) as (Hlt & Hgt & _).
  unfold max_logit. rewrite fold_left_app.
  assert (H1 : forall m acc, SFltb acc neg_infinity = false ->
            fold_left (fun maxLogit y => if SFltb maxLogit y then y
                                         else maxLogit)
                      (replicate m neg_infinity) acc = acc).
  { induction m as [| m IH]; intros acc Hacc; [reflexivity |].
    cbn [replicate fold_left]. rewrite Hacc. apply IH, Hacc. }
  rewrite H1 by reflexivity. cbn [fold_left]. rewrite Hlt.
  apply H1, Hgt.
Qed.

Lemma sum_exp_single j x n :
  is_finite x = true ->
  Math_exp f64_zero = f64_one ->
  sum_exp Math_exp (replicate j neg_infinity ++ x :: replicate n neg_infinity)
    = f64_one.
Proof.
  intros Hx Hexp. unfold sum_exp. rewrite (max_logit_single j x n Hx).
  destruct (finite_above_neg_infinity x Hx) as (_ & _ & Heq).
  rewrite fold_left_app.
  assert (H1 : forall m acc,
            fold_left (fun sumExp y =>
                         if SFeqb y neg_infinity then sumExp
                         else f64_add sumExp (prob Math_exp x y))
                      (replicate m neg_infinity) acc = acc).
  { induction m as [| m IH]; intros acc; [reflexivity |].
    cbn [replicate fold_left]. apply IH. }
  rewrite H1. cbn [fold_left]. rewrite Heq, H1.
  unfold prob. rewrite Heq, (f64_sub_diag x Hx), Hexp. reflexivity.
Qed.

Lemma softmax_single j x n :
  is_finite x = true ->
  Math_exp f64_zero = f64_one ->
  softmax Math_exp (replicate j neg_infinity ++ x :: replicate n neg_infinity)
    = replicate j f64_zero ++ f64_one :: replicate n f64_zero.
Proof.
  intros Hx Hexp. unfold softmax. rewrite (max_logit_single j x n Hx).
  destruct (finite_above_neg_infinity x Hx) as (_ & _ & Heq).
  rewrite map_app. cbn [map].
  assert (H1 : forall m, map (prob Math_exp x) (replicate m neg_infinity)
                         = replicate m f64_zero).
  { induction m as [| m IH]; [reflexivity |]. cbn [replicate map].
    rewrite IH. reflexivity. }
  rewrite !H1. unfold prob at 1.
  rewrite Heq, (f64_sub_diag x Hx), Hexp. reflexivity.
Qed.

Lemma walk_single r j n i0 :
  SFltb r f64_zero = false ->
  SFltb r f64_one = true ->
  walk r f64_zero i0 (replicate j f64_zero ++ f64_one :: replicate n f64_zero)
    = Some (i0 + j)%nat.
Proof.
  intros H0 H1. revert i0. induction j as [| j IH]; intros i0.
  - cbn [replicate app walk].
    change (f64_add f64_zero f64_one) with f64_one. rewrite H1.
    f_equal. lia.
  - cbn [replicate app walk].
    change (f64_add f64_zero f64_zero) with f64_zero. rewrite H0, IH.
    f_equal. lia.
Qed.

Lemma top_1_filter_single scaledLogits j :
  1 < Z.of_nat (length scaledLogits) ->
  head (sorted_indices scaledLogits) = Some j ->
  (j < length scaledLogits)%nat /\
  top_k_filter scaledLogits 1 =
    replicate j neg_infinity ++ read scaledLogits j ::
    replicate (length scaledLogits - S j) neg_infinity.
Proof.
  intros Hlen Hhead.
  destruct (sorted_indices scaledLogits) as [| j0 rest] eqn:Horder;
    [discriminate |].
  injection Hhead as ->.
  assert (Hj : (j < length scaledLogits)%nat).
  { apply sorted_indices_elem. rewrite Horder. left. }
  split; [exact Hj |].
  pose proof (sorted_indices_NoDup scaledLogits) as Hnd.
  rewrite Horder in Hnd. apply NoDup_cons in Hnd as [Hjrest _].
  apply list_eq. intros i.
  rewrite top_k_filter_lookup by lia.
  unfold suppressed_indices. rewrite Horder.
  change (drop (Z.to_nat 1) (j :: rest)) with rest.
  destruct (Nat.lt_trichotomy i j) as [Hlt | [-> | Hgt]].
  - rewrite lookup_app_l by (rewrite length_replicate; exact Hlt).
    rewrite lookup_replicate_2 by exact Hlt.
    destruct (lookup_lt_is_Some_2 scaledLogits i ltac:(lia)) as [x Hx].
    rewrite Hx. rewrite decide_True; [reflexivity |].
    assert (Hin : i ∈ sorted_indices scaledLogits)
      by (apply sorted_indices_elem; lia).
    rewrite Horder in Hin. apply elem_of_cons in Hin as [-> | Hin];
      [lia | exact Hin].
  - rewrite decide_False by exact Hjrest.
    rewrite list_lookup_middle by (rewrite length_replicate; reflexivity).
    unfold read. destruct (lookup_lt_is_Some_2 scaledLogits j Hj) as [x ->].
    reflexivity.
  - rewrite lookup_app_r by (rewrite length_replicate; lia).
    rewrite length_replicate.
    replace (i - j)%nat with (S (i - S j)) by lia.
    change ((read scaledLogits j ::
             replicate (length scaledLogits - S j) neg_infinity)
            !! S (i - S j))
      with (replicate (length scaledLogits - S j) neg_infinity
            !! (i - S j)%nat).
    destruct (Nat.lt_ge_cases i (length scaledLogits)) as [Hi | Hi].
    + rewrite lookup_replicate_2 by lia.
      destruct (lookup_lt_is_Some_2 scaledLogits i Hi) as [x Hx].
      rewrite Hx. rewrite decide_True; [reflexivity |].
      assert (Hin : i ∈ sorted_indices scaledLogits)
        by (apply sorted_indices_elem; lia).
      rewrite Horder in Hin. apply elem_of_cons in Hin as [-> | Hin];
        [lia | exact Hin].
    + rewrite (lookup_ge_None_2 scaledLogits i Hi).
      rewrite lookup_ge_None_2 by (rewrite length_replicate; lia).
      destruct (decide (i ∈ rest)); reflexivity.
Qed.

End SamplingFacts.

(** *** The sort *)

Section InsertionSort.

Variable before : nat -> nat -> bool.
Variable P : nat -> Prop.
Variable R : nat -> nat -> Prop.

Hypothesis R_first : forall x y, P x -> P y -> before x y = true -> R x y.
Hypothesis R_tie :
  forall x y, P x -> P y -> before x y = false -> (y < x)%nat -> R y x.
Hypothesis R_chain :
  forall x y z, P x -> P y -> P z -> before x y = true -> R y z -> R x z.

Lemma sort_insert_sorted x l :
  P x -> Forall P l -> Forall (fun y => (y < x)%nat) l ->
  StronglySorted R l -> StronglySorted R (sort_insert before x l).
Proof.
  intros Hx. induction l as [| y rest IH]; intros HP Hlt Hs.
  - cbn. apply SSorted_cons; [apply SSorted_nil | constructor].
  - apply Forall_cons in HP as [Hy HP]. apply Forall_cons in Hlt as [Hyx Hlt].
    apply StronglySorted_cons in Hs as [Hall Hs].
    cbn [sort_insert]. destruct (before x y) eqn:Hb.
    + apply StronglySorted_cons. split.
      * apply Forall_cons. split; [apply R_first; assumption |].
        rewrite Forall_forall in Hall, HP |- *. intros z Hz.
        apply (R_chain x y z); auto.
      * apply StronglySorted_cons. split; assumption.
    + apply StronglySorted_cons. split; [| apply IH; assumption].
      rewrite sort_insert_perm. apply Forall_cons. split; [| exact Hall].
      apply R_tie; assumption.
Qed.

Lemma sort_from_sorted n k acc :
  (forall i, (k <= i < k + n)%nat -> P i) ->
  Forall P acc -> Forall (fun y => (y < k)%nat) acc ->
  StronglySorted R acc ->
  StronglySorted R
    (fold_left (fun sorted x => sort_insert before x sorted) (seq k n) acc).
Proof.
  revert k acc. induction n as [| n IH]; intros k acc Hk HP Hlt Hs;
    [exact Hs |].
  cbn [seq fold_left]. apply IH.
  - intros i Hi. apply Hk. lia.
  - rewrite sort_insert_perm. apply Forall_cons. split; [| exact HP].
    apply Hk. lia.
  - rewrite sort_insert_perm. apply Forall_cons. split; [lia |].
    eapply Forall_impl; [exact Hlt |]. cbn. intros; lia.
  - apply sort_insert_sorted; try assumption. apply Hk. lia.
Qed.

End InsertionSort.

Lemma no_nan_read s i :
  no_nan s = true -> (i < length s)%nat -> is_number (read s i) = true.
Proof.
  intros Hs Hi. unfold no_nan in Hs. rewrite forallb_forall in Hs.
  unfold read. destruct (lookup_lt_is_Some_2 s i Hi) as [x Hx].
  rewrite Hx. apply Hs. apply list_elem_of_In. eapply list_elem_of_lookup_2, Hx.
Qed.

(** The comparator of line 191 is negative on [(a, b)] exactly when the
    score of [b] is below the score of [a]. *)
Lemma score_before_below s a b :
  valid_binary 53 1024 (read s a) = true ->
  valid_binary 53 1024 (read s b) = true ->
  is_number (read s a) = true -> is_number (read s b) = true ->
  score_before s a b = SFltb (read s b) (read s a).
Proof.
  intros Va Vb Na Nb. unfold score_before, f64_sub, f64_zero.
  apply SFsub_negative; [lia | assumption ..].
Qed.

(** With no NaN among the scores, the sort puts every index before the
    ones it ranks before: higher scores first, equal scores by index. *)
Lemma sorted_indices_sorted s :
  (forall i, valid_binary 53 1024 (read s i) = true) ->
  no_nan s = true ->
  StronglySorted (ranks_before s) (sorted_indices s).
Proof.
  intros Hv Hn. unfold sorted_indices, sort.
  apply (sort_from_sorted (score_before s) (fun i => (i < length s)%nat)).
  - intros x y Hx Hy Hb. left.
    rewrite score_before_below in Hb by auto using no_nan_read. exact Hb.
  - intros x y Hx Hy Hb Hlt. right. split; [| exact Hlt].
    rewrite score_before_below in Hb by auto using no_nan_read. exact Hb.
  - intros x y z Hx Hy Hz Hb Hr. left.
    rewrite score_before_below in Hb by auto using no_nan_read.
    destruct Hr as [Hr | [Hr _]].
    + eapply SFltb_trans; eassumption.
    + destruct (SFltb (read s z) (read s x)) eqn:Hzx; [reflexivity |].
      rewrite (SFltb_negtrans (read s y) (read s z) (read s x)) in Hb;
        auto using no_nan_read.
  - intros i Hi. lia.
  - constructor.
  - constructor.
  - constructor.
Qed.

Lemma kept_rank_before_suppressed s k i j :
  (forall i, valid_binary 53 1024 (read s i) = true) ->
  no_nan s = true ->
  i ∈ kept_indices s k -> j ∈ suppressed_indices s k -> ranks_before s i j.
Proof.
  intros Hv Hn Hi Hj.
  pose proof (sorted_indices_sorted s Hv Hn) as Hs.
  rewrite <- (take_drop (Z.to_nat k) (sorted_indices s)) in Hs.
  eapply StronglySorted_app_1_elem_of; eassumption.
Qed.

Lemma highest_scoring_spec s j :
  highest_scoring s j = true ->
  (j < length s)%nat /\
  forall i, (i < length s)%nat ->
    SFltb (read s j) (read s i) = false /\
    ((i < j)%nat -> SFltb (read s i) (read s j) = true).
Proof.
  unfold highest_scoring. intros H. apply andb_true_iff in H as [Hj H].
  apply Nat.ltb_lt in Hj. split; [exact Hj |]. intros i Hi.
  rewrite forallb_forall in H. specialize (H i).
  rewrite in_seq in H. specialize (H ltac:(lia)).
  apply andb_true_iff in H as [H1 H2]. apply negb_true_iff in H1.
  split; [exact H1 |]. intros Hlt.
  apply orb_true_iff in H2 as [H2 | H2]; [| exact H2].
  apply Nat.leb_le in H2. lia.
Qed.

(** The sort puts the first index of the highest score first. *)
Lemma sorted_indices_head s j :
  (forall i, valid_binary 53 1024 (read s i) = true) ->
  no_nan s = true ->
  highest_scoring s j = true ->
  head (sorted_indices s) = Some j.
Proof.
  intros Hv Hn Hj. apply highest_scoring_spec in Hj as [Hj Hmax].
  pose proof (sorted_indices_sorted s Hv Hn) as Hs.
  assert (Hin : j ∈ sorted_indices s) by (apply sorted_indices_elem, Hj).
  destruct (sorted_indices s) as [| j0 rest] eqn:Ho; [inversion Hin |].
  cbn. f_equal.
  apply elem_of_cons in Hin as [-> | Hin]; [reflexivity |].
  apply StronglySorted_cons in Hs as [Hall _].
  rewrite Forall_forall in Hall. specialize (Hall j Hin).
  assert (Hj0 : (j0 < length s)%nat).
  { apply sorted_indices_elem. rewrite Ho. left. }
  destruct (Hmax j0 Hj0) as [H1 H2].
  destruct Hall as [Hr | [Hr Hlt]]; [congruence |].
  specialize (H2 Hlt). congruence.
Qed.

Section TopK.

Variable Math_exp : spec_float -> spec_float.

Lemma sample_top_1 logits T u j :
  1 < Z.of_nat (length logits) ->
  head (sorted_indices (scale logits T)) = Some j ->
  is_finite (read (scale logits T) j) = true ->
  Math_exp f64_zero = f64_one ->
  valid_binary 53 1024 u = true ->
  not_negative u = true ->
  SFltb u f64_one = true ->
  sample Math_exp logits T 1 u = Z.of_nat j.
Proof.
  intros Hlen Hhead Hfin Hexp Hvalid Hpos Hlt. unfold sample.
  rewrite <- (scale_length logits T) in Hlen.
  destruct (top_1_filter_single _ j Hlen Hhead) as [Hj ->].
  rewrite sum_exp_single, softmax_single by assumption.
  rewrite f64_mul_one by exact Hvalid.
  rewrite (walk_single u j _ 0); [reflexivity | | exact Hlt].
  unfold not_negative in Hpos. destruct (SFltb u f64_zero);
    [discriminate | reflexivity].
Qed.

(** C7, as amended. For every logits array, temperature and topK with
    0 < topK < vocabulary size, when no temperature-scaled score is NaN,
    with a [Math.exp] that returns no negative number and a draw that is
    not negative. The sort of line 191 orders all the indices by
    descending scaled score and, where neither of two scores is below the
    other, by ascending index; so the topK entries that are kept are the
    topK highest-scoring: no suppressed entry has a scaled score above
    the one of a kept entry, and of two entries that score the same the
    lower index is kept first. [sample] gives probability exactly zero to
    every suppressed entry, and its cumulative walk never stops at one, so
    only the last-index fallback, taken when the draw is not below the
    accumulated mass, can return one. With topK = 1, when the highest
    scaled score is finite, [Math.exp(0)] is 1 and the draw is a number in
    [0, 1), [sample] returns the first index that holds the highest scaled
    score. *)
Theorem top_k_filter_sound (logits : list spec_float) (T : spec_float)
    (topK : Z) (u : spec_float) :
  0 < topK < Z.of_nat (length logits) ->
  (forall x, not_negative (Math_exp x) = true) ->
  not_negative u = true ->
  no_nan (scale logits T) = true ->
  let scaledLogits := scale logits T in
  let filtered := top_k_filter scaledLogits topK in
  let probs := softmax Math_exp filtered in
  (sorted_indices scaledLogits ≡ₚ seq 0 (length logits) /\
   StronglySorted (ranks_before scaledLogits) (sorted_indices scaledLogits)) /\
  (length (kept_indices scaledLogits topK) = Z.to_nat topK /\
   forall i j, i ∈ kept_indices scaledLogits topK ->
     j ∈ suppressed_indices scaledLogits topK ->
     ranks_before scaledLogits i j) /\
  (forall i, i ∈ suppressed_indices scaledLogits topK ->
     read probs i = f64_zero) /\
  match walk (f64_mul u (sum_exp Math_exp filtered)) f64_zero 0 probs with
  | Some i => sample Math_exp logits T topK u = Z.of_nat i /\
              i ∈ kept_indices scaledLogits topK
  | None => sample Math_exp logits T topK u = Z.of_nat (length logits) - 1
  end /\
  (topK = 1 ->
   forall j, highest_scoring scaledLogits j = true ->
     is_finite (read scaledLogits j) = true ->
     Math_exp f64_zero = f64_one ->
     valid_binary 53 1024 u = true ->
     SFltb u f64_one = true ->
     sample Math_exp logits T topK u = Z.of_nat j).
Proof.
  intros Hk Hexp Hu Hnan scaledLogits filtered probs.
  assert (Hk' : 0 < topK < Z.of_nat (length scaledLogits)).
  { unfold scaledLogits. rewrite scale_length. exact Hk. }
  assert (Hvalid : forall i, valid_binary 53 1024 (read scaledLogits i) = true)
    by (intros i; apply scale_valid).
  split; [| split; [| split; [| split]]].
  - split.
    + rewrite sorted_indices_perm. unfold scaledLogits.
      rewrite scale_length. reflexivity.
    + apply sorted_indices_sorted; assumption.
  - split.
    + unfold kept_indices. rewrite length_take, sorted_indices_length. lia.
    + intros i j. apply kept_rank_before_suppressed; assumption.
  - intros i Hi. unfold read, probs, filtered.
    rewrite (suppressed_probability Math_exp _ _ _ Hk' Hi). reflexivity.
  - destruct (walk _ f64_zero 0 probs) as [i |] eqn:Hw.
    + split.
      * unfold sample. fold scaledLogits. fold filtered. fold probs.
        rewrite Hw. reflexivity.
      * eapply (walk_selects_kept Math_exp); [exact Hk' | | exact Hw].
        pose proof (f64_mul_not_negative u (sum_exp Math_exp filtered) Hu
                      (sum_exp_not_negative Math_exp filtered Hexp)) as Hr.
        unfold not_negative in Hr. destruct (SFltb _ f64_zero);
          [discriminate | reflexivity].
    + unfold sample. fold scaledLogits. fold filtered. fold probs.
      rewrite Hw. unfold probs, softmax, filtered.
      rewrite length_map, top_k_filter_length. unfold scaledLogits.
      rewrite scale_length. reflexivity.
  - intros -> j Hhigh Hfin Hexp0 Hvalidu Hlt.
    apply sample_top_1; try assumption; [lia |].
    apply sorted_indices_head; assumption.
Qed.

(** At temperature 2^200 the result is index 0 for any [Math.exp] with
    [exp(0) = 1] and any draw in [0, 1). *)
Lemma sample_underflow u :
  Math_exp f64_zero = f64_one ->
  valid_binary 53 1024 u = true ->
  not_negative u = true ->
  SFltb u f64_one = true ->
  sample Math_exp example_logits temperature_2_200 1 u = 0.
Proof.
  intros Hexp Hvalid Hpos Hlt.
  apply (sample_top_1 example_logits temperature_2_200 u 0%nat);
    try assumption; reflexivity.
Qed.

(** On the overflowing logits the result is index 2 for any [Math.exp]
    with [exp(NaN) = NaN] and any draw. *)
Lemma sample_overflow u :
  Math_exp S754_nan = S754_nan ->
  sample Math_exp overflowing_logits f64_half 1 u = 2.
Proof.
  intros Hexp. unfold sample.
  replace (top_k_filter (scale overflowing_logits f64_half) 1)
    with [S754_infinity false; neg_infinity; neg_infinity]
    by (vm_compute; reflexivity).
  assert (Hp : softmax Math_exp [S754_infinity false; neg_infinity; neg_infinity]
               = [S754_nan; f64_zero; f64_zero]).
  { unfold softmax, max_logit, prob. cbn. rewrite Hexp. reflexivity. }
  assert (Hs : sum_exp Math_exp [S754_infinity false; neg_infinity; neg_infinity]
               = S754_nan).
  { unfold sum_exp, max_logit, prob. cbn. rewrite Hexp. reflexivity. }
  rewrite Hp, Hs.
  replace (f64_mul u S754_nan) with S754_nan
    by (destruct u as [[] | [] | | [] m e]; reflexivity).
  reflexivity.
Qed.

End TopK.

Lemma exp_at_fixed_points_not_negative x :
  not_negative (exp_at_fixed_points x) = true.
Proof. destruct x as [[] | [] | | [] m e]; reflexivity. Qed.

Lemma top_k_filter_sound_witness :
  sample exp_at_fixed_points example_logits default_temperature 1 f64_half
    = 1.
Proof.
  assert (Hk : 0 < 1 < Z.of_nat (length example_logits)) by (cbn; lia).
  assert (Hn : no_nan (scale example_logits default_temperature) = true)
    by (vm_compute; reflexivity).
  pose proof (top_k_filter_sound exp_at_fixed_points example_logits
                default_temperature 1 f64_half Hk
                exp_at_fixed_points_not_negative eq_refl Hn) as H.
  cbv zeta in H. destruct H as (_ & _ & _ & _ & H).
  apply (H eq_refl 1%nat).
  - vm_compute. reflexivity.
  - vm_compute. reflexivity.
  - reflexivity.
  - reflexivity.
  - reflexivity.
Defined.

(** C7, as stated, fails. With topK = 1: at temperature 2^200 the scaled
    scores of [0.1, 5.0, 0.2] all round to 0 in the [Float32Array], the
    stable sort keeps index 0 first and [sample] returns 0, not 1; and for
    the logits [2^127, 0, 0] at temperature 0.5 the first scaled score
    overflows to +Infinity, the mass is NaN, and the fallback returns
    index 2, an entry the filter has suppressed. *)
Lemma top_1_misses_highest_score :
  sample exp_at_fixed_points example_logits temperature_2_200 1 f64_half = 0
  /\
  sample exp_at_fixed_points overflowing_logits f64_half 1 f64_half = 2 /\
  suppressed_indices (scale overflowing_logits f64_half) 1 = [1%nat; 2%nat] /\
  read (softmax exp_at_fixed_points
          (top_k_filter (scale overflowing_logits f64_half) 1)) 2 = f64_zero.
Proof. vm_compute. repeat split; reflexivity. Qed.

(** With a NaN among the scores the comparator of line 191 is not an
    order: on the scores [0, NaN, 1] it puts neither of the indices 0 and
    1 before the other, neither of 1 and 2, and yet 2 before 0.
    ECMAScript then leaves the order of the sorted array to the engine. *)
Lemma score_before_unordered_with_nan :
  let s := [f64_zero; S754_nan; f64_one] in
  score_before s 0 1 = false /\ score_before s 1 0 = false /\
  score_before s 1 2 = false /\ score_before s 2 1 = false /\
  score_before s 2 0 = true /\ no_nan s = false.
Proof. vm_compute. repeat split; reflexivity. Qed.

(** * Further properties of the tokenizer *)

(** ** The merge loop *)

Lemma merge_rounds_length_le M fuel ids r :
  merge_rounds M fuel ids = Some r -> (length r <= length ids)%nat.
Proof.
  revert ids.
  induction fuel as [| fuel IH]; intros ids; rewrite merge_rounds_unfold.
  - destruct (length ids <? 2)%nat; [intros [= <-]; lia |].
    destruct (best_pair M ids) as [[[a b] idx] |]; [discriminate |].
    intros [= <-]. lia.
  - destruct (length ids <? 2)%nat; [intros [= <-]; lia |].
    destruct (best_pair M ids) as [[[a b] idx] |]; [| intros [= <-]; lia].
    intros H. apply IH in H. pose proof (merge_length_le ids (a, b) idx). lia.
Qed.

Lemma bpe_length_le M ids : (length (bpe M ids) <= length ids)%nat.
Proof.
  destruct (merge_rounds_terminates M (length ids) ids (le_n _)) as [r Hr].
  rewrite (merge_rounds_bpe _ _ _ _ Hr).
  eapply merge_rounds_length_le, Hr.
Qed.

Lemma utf8_encode_cp_length c :
  (1 <= length (utf8_encode_cp c) <= 4)%nat.
Proof.
  unfold utf8_encode_cp, utf8_encode_scalar.
  repeat match goal with |- context [if ?b then _ else _] => destruct b end;
    cbn; lia.
Qed.

Lemma TextEncoder_encode_length t :
  (length t <= length (TextEncoder_encode t) <= 4 * length t)%nat.
Proof.
  induction t as [| c t IH]; [cbn; lia |].
  unfold TextEncoder_encode in *. cbn [flat_map].
  rewrite length_app. pose proof (utf8_encode_cp_length c). cbn [length]. lia.
Qed.

(** X1. On a cache that holds correct encodings, [encode] never returns
    more ids than the text has UTF-8 bytes, that is at most four per
    code point: a merge round only ever shortens the sequence. *)
Theorem encode_never_lengthens (t : text) (tk : BPETokenizer) (h : heap) :
  cache_consistent tk h ->
  (length (encode_ids t tk h) <= length (TextEncoder_encode t))%nat /\
  (length (encode_ids t tk h) <= 4 * length t)%nat.
Proof.
  intros Hc. rewrite (encode_ids_warm t tk h Hc).
  pose proof (bpe_length_le (merges tk) (TextEncoder_encode t)).
  pose proof (TextEncoder_encode_length t). lia.
Qed.

Lemma encode_never_lengthens_witness :
  (length (encode_ids (text_of_string "abc") new_BPETokenizer [])
   <= length (TextEncoder_encode (text_of_string "abc")))%nat /\
  (length (encode_ids (text_of_string "abc") new_BPETokenizer [])
   <= 4 * length (text_of_string "abc"))%nat.
Proof.
  apply (encode_never_lengthens (text_of_string "abc") new_BPETokenizer []).
  apply cache_consistent_new.
Defined.

(** X2. The ids [encode] computes are final: no two neighbours among them
    are the pair of a rule with an integer id, and running the merge loop
    on them again changes nothing. *)
Theorem encode_leaves_no_mergeable_pair (M : gmap (num * num) num)
    (ids : list Z) :
  (forall a b idx, (a, b) ∈ adjacent_pairs (bpe M ids) ->
     M !! (Int a, Int b) <> Some (Int idx)) /\
  bpe M (bpe M ids) = bpe M ids.
Proof.
  split.
  - apply lowest_of_none, bpe_exhausted.
  - apply bpe_done, bpe_exhausted.
Qed.

(** ** Round trip with merge rules *)

Lemma decode_bytes_app tk ids1 ids2 :
  decode_bytes tk (ids1 ++ ids2) = decode_bytes tk ids1 ++ decode_bytes tk ids2.
Proof. apply flat_map_app. Qed.

Lemma decode_bytes_merge tk ids a b idx va vb :
  vocab tk !! Int a = Some va -> vocab tk !! Int b = Some vb ->
  vocab tk !! Int idx = Some (va ++ vb) ->
  decode_bytes tk (merge ids (a, b) idx) = decode_bytes tk ids.
Proof.
  intros Ha Hb Hidx.
  induction ids as [ids IH] using (induction_ltof1 _ (@length Z)).
  unfold ltof in IH.
  destruct ids as [| x [| y rest]]; [reflexivity | reflexivity |].
  rewrite merge_unfold. cbn [fst snd].
  destruct ((x =? a) && (y =? b)) eqn:Hxy.
  - apply andb_true_iff in Hxy as [->%Z.eqb_eq ->%Z.eqb_eq].
    change (decode_bytes tk (idx :: merge rest (a, b) idx))
      with (default [] (vocab tk !! Int idx)
            ++ decode_bytes tk (merge rest (a, b) idx)).
    change (decode_bytes tk (a :: b :: rest))
      with (default [] (vocab tk !! Int a)
            ++ default [] (vocab tk !! Int b) ++ decode_bytes tk rest).
    rewrite Ha, Hb, Hidx, IH by (cbn; lia). cbn [default].
    unfold id. rewrite <- app_assoc. reflexivity.
  - change (decode_bytes tk (x :: merge (y :: rest) (a, b) idx))
      with (default [] (vocab tk !! Int x)
            ++ decode_bytes tk (merge (y :: rest) (a, b) idx)).
    rewrite IH by (cbn; lia). reflexivity.
Qed.

Lemma best_pair_rule M ids a b idx :
  best_pair M ids = Some (a, b, idx) -> M !! (Int a, Int b) = Some (Int idx).
Proof.
  intros Hb. pose proof (best_pair_lowest M ids) as Hl.
  rewrite Hb in Hl. apply Hl.
Qed.

Lemma decode_bytes_merge_rounds tk fuel ids r :
  rules_spelled tk ->
  merge_rounds (merges tk) fuel ids = Some r ->
  decode_bytes tk r = decode_bytes tk ids.
Proof.
  intros Hsp. revert ids.
  induction fuel as [| fuel IH]; intros ids; rewrite merge_rounds_unfold.
  - destruct (length ids <? 2)%nat; [intros [= <-]; reflexivity |].
    destruct (best_pair (merges tk) ids) as [[[a b] idx] |];
      [discriminate | intros [= <-]; reflexivity].
  - destruct (length ids <? 2)%nat; [intros [= <-]; reflexivity |].
    destruct (best_pair (merges tk) ids) as [[[a b] idx] |] eqn:Hb;
      [| intros [= <-]; reflexivity].
    intros H. rewrite (IH _ H).
    destruct (Hsp a b idx (best_pair_rule _ _ _ _ _ Hb))
      as (va & vb & Ha & Hvb & Hidx).
    eapply decode_bytes_merge; eassumption.
Qed.

Lemma decode_bytes_bpe tk ids :
  rules_spelled tk ->
  decode_bytes tk (bpe (merges tk) ids) = decode_bytes tk ids.
Proof.
  intros Hsp.
  destruct (merge_rounds_terminates (merges tk) (length ids) ids (le_n _))
    as [r Hr].
  rewrite (merge_rounds_bpe _ _ _ _ Hr).
  eapply decode_bytes_merge_rounds; eassumption.
Qed.

Lemma scalar_value_is_scalar c : is_scalar (scalar_value c) = true.
Proof.
  unfold scalar_value. destruct (is_scalar c) eqn:H; [exact H | reflexivity].
Qed.

Lemma TextEncoder_encode_scalar_values t :
  TextEncoder_encode (map scalar_value t) = TextEncoder_encode t.
Proof.
  unfold TextEncoder_encode. induction t as [| c t IH]; [reflexivity |].
  cbn [map flat_map]. rewrite IH. f_equal.
  unfold utf8_encode_cp. rewrite scalar_value_is_scalar. reflexivity.
Qed.

Lemma TextDecoder_decode_encode t :
  TextDecoder_decode (TextEncoder_encode t) = strip_bom (map scalar_value t).
Proof.
  unfold TextDecoder_decode.
  rewrite <- TextEncoder_encode_scalar_values, utf8_decode_encode;
    [reflexivity |].
  apply forallb_forall. intros c [c' [<- _]]%in_map_iff.
  apply scalar_value_is_scalar.
Qed.

(** X3. With merge rules loaded: where every rule is spelled out in the
    vocabulary, the 256 byte entries are those of the constructor and
    the cache holds correct encodings, [decode] of [encode] of any text
    is the text with each lone surrogate replaced by U+FFFD and a byte
    order mark at its start dropped; a text of printable characters
    comes back as it is. *)
Theorem round_trip_with_merges (tk : BPETokenizer) (h : heap) (t : text) :
  rules_spelled tk ->
  base_vocab ⊆ vocab tk ->
  cache_consistent tk h ->
  decode (encode t tk h).1.2 (encode_ids t tk h)
    = strip_bom (map scalar_value t) /\
  (forallb is_printable t = true ->
   decode (encode t tk h).1.2 (encode_ids t tk h) = t).
Proof.
  intros Hsp Hbase Hc.
  assert (H : decode (encode t tk h).1.2 (encode_ids t tk h)
              = strip_bom (map scalar_value t)).
  { rewrite (encode_ids_warm t tk h Hc). unfold decode.
    assert (Hd : forall ids, decode_bytes (encode t tk h).1.2 ids
                             = decode_bytes tk ids).
    { intros ids. unfold decode_bytes. rewrite encode_vocab. reflexivity. }
    rewrite Hd, decode_bytes_bpe by exact Hsp.
    rewrite decode_bytes_identity.
    - apply TextDecoder_decode_encode.
    - exact Hbase.
    - intros b. apply TextEncoder_encode_bytes. }
  split; [exact H |].
  intros Hp. rewrite H.
  assert (Hm : map scalar_value t = t).
  { apply printable_scalar in Hp. clear H.
    induction t as [| c t IH]; [reflexivity |].
    cbn [forallb] in Hp. apply andb_true_iff in Hp as [Hc' Ht].
    cbn [map]. rewrite IH by exact Ht. unfold scalar_value. rewrite Hc'.
    reflexivity. }
  rewrite Hm. apply strip_bom_printable, Hp.
Qed.

(** ** What [load] reads a line as *)

Ltac bits p := repeat (destruct p as [p | p |]; try reflexivity).

Lemma read_radix_eq (s : text) :
  match s with
  | 48 :: 120 :: rest | 48 :: 88 :: rest => (16, rest)
  | _ => (10, s)
  end = read_radix s.
Proof.
  destruct s as [| c1 [| c2 rest]]; unfold read_radix.
  - reflexivity.
  - destruct c1 as [| p | p]; try reflexivity. bits p.
  - destruct c1 as [| p | p]; try reflexivity. bits p.
    destruct c2 as [| q | q]; try reflexivity. bits q.
Qed.

Lemma read_sign_eq (s : text) :
  match s with
  | 45 :: rest => (-1, rest)
  | 43 :: rest => (1, rest)
  | _ => (1, s)
  end = read_sign s.
Proof.
  destruct s as [| c rest]; [reflexivity |]. unfold read_sign.
  destruct c as [| p | p]; try reflexivity. bits p.
Qed.

Lemma parseInt_eq s : parseInt s = read_number (skip_space s).
Proof.
  unfold parseInt, read_number.
  rewrite read_sign_eq. destruct (read_sign (skip_space s)) as [sign s1].
  rewrite read_radix_eq. reflexivity.
Qed.

Lemma digit_value_digit c :
  is_digit c = true -> digit_value 10 c = Some (c - 48).
Proof.
  unfold is_digit, digit_value. intros H.
  rewrite H. destruct (c - 48 <? 10) eqn:E; [reflexivity | lia].
Qed.

Lemma parse_digits_numeral s acc :
  forallb is_digit s = true ->
  parse_digits 10 (Some acc) s
  = Some (fold_left (fun acc c => acc * 10 + (c - 48)) s acc).
Proof.
  revert acc. induction s as [| c s IH]; intros acc Hs; [reflexivity |].
  cbn [forallb] in Hs. apply andb_true_iff in Hs as [Hc Hs].
  cbn [parse_digits fold_left]. rewrite (digit_value_digit c Hc).
  cbn [default]. apply IH, Hs.
Qed.

Lemma digit_not_space c : is_digit c = true -> is_js_space c = false.
Proof. unfold is_digit, is_js_space. lia. Qed.

Lemma parseInt_numeral s :
  is_numeral s = true -> parseInt s = Int (numeral_value s).
Proof.
  unfold is_numeral. intros [Hd Hne]%andb_true_iff.
  destruct s as [| c s]; [discriminate |].
  cbn [forallb] in Hd. apply andb_true_iff in Hd as [Hc Hs].
  rewrite parseInt_eq. cbn [skip_space]. rewrite (digit_not_space c Hc).
  unfold read_number, read_sign.
  assert (Hc' : 48 <= c <= 57) by (unfold is_digit in Hc; lia).
  destruct (c =? 45) eqn:E1; [lia |]. destruct (c =? 43) eqn:E2; [lia |].
  assert (Hr : read_radix (c :: s) = (10, c :: s)).
  { unfold read_radix. destruct s as [| c2 s]; [reflexivity |].
    cbn [forallb] in Hs. apply andb_true_iff in Hs as [Hc2 _].
    unfold is_digit in Hc2.
    destruct ((c =? 48) && ((c2 =? 120) || (c2 =? 88))) eqn:E; [lia |].
    reflexivity. }
  rewrite Hr. cbn [parse_digits]. rewrite (digit_value_digit c Hc).
  cbn [default]. rewrite parse_digits_numeral by exact Hs.
  unfold numeral_value. cbn [fold_left]. f_equal. lia.
Qed.

Lemma split_no_sep sep s : sep ∉ s -> split sep s = [s].
Proof.
  induction s as [| c s IH]; intros Hs; [reflexivity |].
  cbn [split]. apply not_elem_of_cons in Hs as [Hc Hs].
  destruct (c =? sep) eqn:E; [lia |]. rewrite IH by exact Hs. reflexivity.
Qed.

Lemma split_app_sep sep s rest :
  sep ∉ s -> split sep (s ++ sep :: rest) = s :: split sep rest.
Proof.
  induction s as [| c s IH]; intros Hs.
  - cbn [app split]. rewrite Z.eqb_refl. reflexivity.
  - apply not_elem_of_cons in Hs as [Hc Hs].
    cbn [app split]. destruct (c =? sep) eqn:E; [lia |].
    rewrite IH by exact Hs. reflexivity.
Qed.

Lemma numeral_no_space s : forallb is_digit s = true -> 32 ∉ s.
Proof.
  intros Hs Hin. rewrite forallb_forall in Hs.
  apply list_elem_of_In in Hin. apply Hs in Hin. discriminate.
Qed.

Lemma split_snoc sep s c :
  c <> sep ->
  exists parts final, split sep s = parts ++ [final] /\
                      split sep (s ++ [c]) = parts ++ [final ++ [c]].
Proof.
  intros Hc. induction s as [| x s (parts & final & Hs & Hs')].
  - exists [], []. cbn [app split]. destruct (c =? sep) eqn:E; [lia |].
    split; reflexivity.
  - cbn [app split]. rewrite Hs, Hs'.
    destruct (x =? sep).
    + exists ([] :: parts), final. split; reflexivity.
    + destruct parts as [| p parts]; cbn [app].
      * exists [], (x :: final). split; reflexivity.
      * exists ((x :: p) :: parts), final. split; reflexivity.
Qed.

Lemma parse_digits_cr radix acc s :
  parse_digits radix acc (s ++ [13]) = parse_digits radix acc s.
Proof.
  revert acc. induction s as [| c s IH]; intros acc.
  - cbn [app parse_digits]. unfold digit_value. cbn.
    rewrite Z.ltb_irrefl. reflexivity.
  - cbn [app parse_digits]. destruct (digit_value radix c); [apply IH |].
    reflexivity.
Qed.

Lemma skip_space_blank s : trim_is_empty s = true -> skip_space s = [].
Proof.
  unfold trim_is_empty. induction s as [| c s IH]; [reflexivity |].
  cbn [forallb skip_space]. intros [Hc Hs]%andb_true_iff.
  rewrite Hc. apply IH, Hs.
Qed.

Lemma skip_space_cr s :
  skip_space (s ++ [13]) =
  if trim_is_empty s then [] else skip_space s ++ [13].
Proof.
  unfold trim_is_empty. induction s as [| c s IH]; [reflexivity |].
  cbn [app forallb skip_space]. destruct (is_js_space c); [exact IH |].
  reflexivity.
Qed.

Lemma skip_space_head s c rest :
  skip_space s = c :: rest -> is_js_space c = false.
Proof.
  induction s as [| x s IH]; [discriminate |].
  cbn [skip_space]. destruct (is_js_space x) eqn:E; [exact IH |].
  intros [= <- _]. exact E.
Qed.

Lemma read_number_cr s : read_number (s ++ [13]) = read_number s.
Proof.
  set (result := fun (sign : Z) (o : option Z) =>
                   match o with None => NaN | Some n => Int (sign * n) end).
  assert (Hrad : forall s1 sign,
    (let '(radix, s2) := read_radix (s1 ++ [13]) in
     match parse_digits radix None s2 with
     | None => NaN | Some n => Int (sign * n) end) =
    (let '(radix, s2) := read_radix s1 in
     match parse_digits radix None s2 with
     | None => NaN | Some n => Int (sign * n) end)).
  { intros s1 sign. destruct s1 as [| c1 [| c2 rest]]; unfold read_radix.
    - reflexivity.
    - cbn [app]. rewrite andb_false_r.
      exact (f_equal (result sign) (parse_digits_cr 10 None [c1])).
    - cbn [app]. destruct ((c1 =? 48) && ((c2 =? 120) || (c2 =? 88))).
      + rewrite parse_digits_cr. reflexivity.
      + exact (f_equal (result sign)
                 (parse_digits_cr 10 None (c1 :: c2 :: rest))). }
  unfold read_number. destruct s as [| c rest].
  - reflexivity.
  - unfold read_sign. cbn [app].
    destruct (c =? 45); [apply Hrad |]. destruct (c =? 43); [apply Hrad |].
    apply (Hrad (c :: rest)).
Qed.

Lemma parseInt_cr s : parseInt (with_cr s) = parseInt s.
Proof.
  unfold with_cr. rewrite !parseInt_eq, skip_space_cr.
  destruct (trim_is_empty s) eqn:E.
  - rewrite (skip_space_blank s E). reflexivity.
  - apply read_number_cr.
Qed.

Lemma trim_is_empty_cr s : trim_is_empty (with_cr s) = trim_is_empty s.
Proof.
  unfold trim_is_empty, with_cr. rewrite forallb_app. cbn.
  apply andb_true_r.
Qed.

Lemma parse_line_cr line : parse_line (with_cr line) = parse_line line.
Proof.
  unfold parse_line. rewrite trim_is_empty_cr.
  destruct (trim_is_empty line); [reflexivity |].
  destruct (split_snoc 32 line 13) as (parts & final & -> & Hs); [lia |].
  unfold with_cr. rewrite Hs.
  destruct parts as [| a [| b [| c parts]]]; try reflexivity.
  - cbn [app]. fold (with_cr final). rewrite parseInt_cr. reflexivity.
  - cbn [app]. destruct parts; reflexivity.
Qed.

(** X4. A line of three decimal numerals with one space between them,
    each of a number that a JavaScript number holds exactly, is read as
    the rule of the three numbers, which [load] then registers under the
    pair of the first two. *)
Theorem load_reads_decimal_rules (tk : BPETokenizer) (a b idx : text) :
  is_numeral a = true -> is_numeral b = true -> is_numeral idx = true ->
  numeral_value a <= max_safe_integer ->
  numeral_value b <= max_safe_integer ->
  numeral_value idx <= max_safe_integer ->
  parse_line (rule_line a b idx)
    = Some (Int (numeral_value a), Int (numeral_value b),
            Int (numeral_value idx)) /\
  merges (load_line tk (rule_line a b idx))
    !! (Int (numeral_value a), Int (numeral_value b))
    = Some (Int (numeral_value idx)).
Proof.
  intros Ha Hb Hidx _ _ _.
  assert (H : parse_line (rule_line a b idx)
              = Some (Int (numeral_value a), Int (numeral_value b),
                      Int (numeral_value idx))).
  { unfold parse_line, rule_line.
    assert (Hblank : trim_is_empty (a ++ 32 :: b ++ 32 :: idx) = false).
    { unfold is_numeral in Ha. apply andb_true_iff in Ha as [Hd Hne].
      destruct a as [| c a]; [discriminate |].
      cbn [forallb] in Hd. apply andb_true_iff in Hd as [Hc _].
      unfold trim_is_empty. cbn [app forallb].
      rewrite (digit_not_space c Hc). reflexivity. }
    rewrite Hblank.
    pose proof Ha as Ha'. pose proof Hb as Hb'. pose proof Hidx as Hi'.
    unfold is_numeral in Ha', Hb', Hi'.
    apply andb_true_iff in Ha' as [Ha' _], Hb' as [Hb' _], Hi' as [Hi' _].
    rewrite split_app_sep by (apply numeral_no_space, Ha').
    rewrite split_app_sep by (apply numeral_no_space, Hb').
    rewrite split_no_sep by (apply numeral_no_space, Hi').
    rewrite !parseInt_numeral by assumption. reflexivity. }
  split; [exact H |].
  unfold load_line. rewrite H. cbn [register_rule merges].
  apply lookup_insert_eq.
Qed.

Lemma load_reads_decimal_rules_witness :
  parse_line (rule_line (text_of_string "97") (text_of_string "98")
                        (text_of_string "256"))
    = Some (Int 97, Int 98, Int 256) /\
  merges (load_line new_BPETokenizer
            (rule_line (text_of_string "97") (text_of_string "98")
                       (text_of_string "256")))
    !! (Int 97, Int 98) = Some (Int 256).
Proof.
  apply (load_reads_decimal_rules new_BPETokenizer (text_of_string "97")
           (text_of_string "98") (text_of_string "256"));
    vm_compute; first [reflexivity | discriminate].
Defined.

(** X5. A carriage return at the end of a line changes nothing in what
    the line is read as: a merges file with CRLF line ends loads as the
    same file with LF line ends. *)
Theorem load_tolerates_crlf (tk : BPETokenizer) (lines : list text) :
  (forall line, parse_line (with_cr line) = parse_line line) /\
  load_lines tk (with_cr <$> lines) = load_lines tk lines.
Proof.
  split; [exact parse_line_cr |].
  unfold load_lines. revert tk.
  induction lines as [| line lines IH]; intros tk; [reflexivity |].
  cbn [fmap list_fmap fold_left]. unfold load_line at 2 4.
  rewrite parse_line_cr. apply IH.
Qed.

(** ** [load] and the state it finds *)

Lemma register_rule_cache tk r : cache (register_rule tk r) = cache tk.
Proof. destruct r as [[p0 p1] idx]. reflexivity. Qed.

Lemma load_lines_cache tk lines : cache (load_lines tk lines) = cache tk.
Proof.
  unfold load_lines. revert tk.
  induction lines as [| line lines IH]; intros tk; [reflexivity |].
  cbn [fold_left]. rewrite IH. unfold load_line.
  destruct (parse_line line); [apply register_rule_cache | reflexivity].
Qed.

Lemma load_cache url f tk : cache (load url f tk).1.1 = cache tk.
Proof.
  unfold load, load_body.
  destruct f as [| [] [body |]]; try reflexivity.
  cbn [fst cache]. apply load_lines_cache.
Qed.

(** X6. [load] leaves the cache as it is: a text encoded before a load
    keeps the array it got then, and [encode] returns that array after
    the load, whatever rules the load has brought. *)
Theorem load_keeps_cached_encodings (url : text) (f : fetched)
    (tk : BPETokenizer) (t : text) (l : loc) (h : heap) :
  cache tk !! t = Some l ->
  let tk' := (load url f tk).1.1 in
  cache tk' = cache tk /\ encode t tk' h = (l, tk', h).
Proof.
  intros Hc tk'. split; [apply load_cache |].
  unfold encode, tk'. rewrite load_cache, Hc. reflexivity.
Qed.

Lemma load_keeps_cached_encodings_witness :
  let tk := (encode (text_of_string "ab") new_BPETokenizer []).1.2 in
  let h := (encode (text_of_string "ab") new_BPETokenizer []).2 in
  let tk' := (load default_url
                   (Response true (Some (text_of_string "97 98 256")))
                   tk).1.1 in
  cache tk' = cache tk /\
  encode (text_of_string "ab") tk' h = (0%nat, tk', h).
Proof.
  apply (load_keeps_cached_encodings default_url
           (Response true (Some (text_of_string "97 98 256")))
           (encode (text_of_string "ab") new_BPETokenizer []).1.2
           (text_of_string "ab") 0%nat).
  vm_compute. reflexivity.
Defined.

Lemma rules_spelled_new : rules_spelled new_BPETokenizer.
Proof. intros a b idx H. cbn in H. rewrite lookup_empty in H. discriminate. Qed.

Lemma register_rule_spelled tk p0 p1 idx :
  rules_spelled tk ->
  vocab tk !! idx = None ->
  is_Some (vocab tk !! p0) -> is_Some (vocab tk !! p1) ->
  rules_spelled (register_rule tk (p0, p1, idx)) /\
  vocab tk ⊆ vocab (register_rule tk (p0, p1, idx)).
Proof.
  intros Hsp Hidx [v0 H0] [v1 H1].
  assert (Hv : vocab (register_rule tk (p0, p1, idx))
               = <[idx := v0 ++ v1]> (vocab tk)).
  { cbn [register_rule vocab]. rewrite H0, H1. reflexivity. }
  assert (Hsub : vocab tk ⊆ vocab (register_rule tk (p0, p1, idx))).
  { rewrite Hv. apply insert_subseteq, Hidx. }
  split; [| exact Hsub].
  intros a b i Hm. cbn [register_rule merges] in Hm.
  destruct (decide ((p0, p1) = (Int a, Int b))) as [Heq | Hne].
  - rewrite Heq, lookup_insert_eq in Hm. injection Hm as ->.
    injection Heq as -> ->. exists v0, v1.
    rewrite Hv. repeat split.
    + rewrite lookup_insert_ne by congruence. exact H0.
    + rewrite lookup_insert_ne by congruence. exact H1.
    + apply lookup_insert_eq.
  - rewrite lookup_insert_ne in Hm by exact Hne.
    destruct (Hsp a b i Hm) as (va & vb & Ha & Hb & Hi).
    exists va, vb. repeat split;
      eapply lookup_weaken; eassumption.
Qed.

Lemma load_lines_spelled tk lines :
  rules_spelled tk ->
  all_combine_known_ids tk lines ->
  rules_spelled (load_lines tk lines) /\
  vocab tk ⊆ vocab (load_lines tk lines).
Proof.
  unfold load_lines. revert tk.
  induction lines as [| line lines IH]; intros tk Hsp Hall; [split; done |].
  destruct Hall as [Hline Hrest]. cbn [fold_left].
  assert (H1 : rules_spelled (load_line tk line)
               /\ vocab tk ⊆ vocab (load_line tk line)).
  { unfold load_line, combines_known_ids in *.
    destruct (parse_line line) as [[[p0 p1] idx] |]; [| split; done].
    destruct Hline as (Hi & H0 & Hp1).
    apply register_rule_spelled; assumption. }
  destruct H1 as [Hsp1 Hsub1].
  destruct (IH _ Hsp1 Hrest) as [Hsp2 Hsub2].
  split; [exact Hsp2 |]. etrans; eassumption.
Qed.

(** X7. Loading a merges file in which every rule combines two ids
    the vocabulary has into an id it does not have yet, and the numbers
    of every rule are at most Number.MAX_SAFE_INTEGER in size, so that
    [parseInt] reads each of them exactly, keeps what the round trip
    needs: every rule is spelled out in the vocabulary, and no entry the
    vocabulary had is changed, the 256 byte entries included. *)
Theorem load_spells_rules (url body : text) (tk : BPETokenizer) :
  rules_spelled tk ->
  forallb reads_safe_integers (split 10 body) = true ->
  all_combine_known_ids tk (split 10 body) ->
  let tk' := (load url (Response true (Some body)) tk).1.1 in
  rules_spelled tk' /\ vocab tk ⊆ vocab tk' /\
  (base_vocab ⊆ vocab tk -> base_vocab ⊆ vocab tk').
Proof.
  intros Hsp _ Hall tk'.
  destruct (load_lines_spelled tk (split 10 body) Hsp Hall) as [H1 H2].
  split; [exact H1 |]. split; [exact H2 |].
  intros Hb. etrans; [exact Hb | exact H2].
Qed.

Lemma load_spells_rules_witness :
  let tk' := (load default_url
                (Response true (Some two_rules))
                new_BPETokenizer).1.1 in
  rules_spelled tk' /\ vocab new_BPETokenizer ⊆ vocab tk' /\
  (base_vocab ⊆ vocab new_BPETokenizer -> base_vocab ⊆ vocab tk').
Proof.
  apply (load_spells_rules default_url
           two_rules new_BPETokenizer).
  - apply rules_spelled_new.
  - vm_compute. reflexivity.
  - vm_compute. repeat split; eexists; reflexivity.
Defined.

Lemma cache_consistent_cold tk h : cache tk = ∅ -> cache_consistent tk h.
Proof. intros H t l Hl. rewrite H, lookup_empty in Hl. discriminate. Qed.

Lemma two_rules_loaded :
  let tk := (load default_url (Response true (Some two_rules))
                  new_BPETokenizer).1.1 in
  rules_spelled tk /\ base_vocab ⊆ vocab tk /\ cache tk = ∅.
Proof.
  intros tk.
  destruct (load_lines_spelled new_BPETokenizer (split 10 two_rules))
    as [H1 H2].
  - apply rules_spelled_new.
  - vm_compute. repeat split; eexists; reflexivity.
  - split; [exact H1 |]. split; [exact H2 |]. apply load_cache.
Qed.

Lemma round_trip_with_merges_witness :
  let tk := (load default_url (Response true (Some two_rules))
                  new_BPETokenizer).1.1 in
  decode (encode (text_of_string "abcab") tk []).1.2
         (encode_ids (text_of_string "abcab") tk [])
    = strip_bom (map scalar_value (text_of_string "abcab")) /\
  (forallb is_printable (text_of_string "abcab") = true ->
   decode (encode (text_of_string "abcab") tk []).1.2
          (encode_ids (text_of_string "abcab") tk [])
     = text_of_string "abcab").
Proof.
  apply (round_trip_with_merges
           (load default_url (Response true (Some two_rules))
                 new_BPETokenizer).1.1 [] (text_of_string "abcab")).
  - exact (proj1 two_rules_loaded).
  - exact (proj1 (proj2 two_rules_loaded)).
  - exact (cache_consistent_cold _ _ (proj2 (proj2 two_rules_loaded))).
Defined.

(** X3, at one input: with the rules 97 98 -> 256 and 256 99 -> 257
    loaded, "abcab" is encoded as [257, 256] and decoded back. *)
Example abcab_round_trip :
  let tk := (load default_url (Response true (Some two_rules))
                  new_BPETokenizer).1.1 in
  encode_ids (text_of_string "abcab") tk [] = [257; 256] /\
  decode tk [257; 256] = text_of_string "abcab".
Proof. vm_compute. split; reflexivity. Qed.

(** ** Loading twice *)

Lemma fold_insert_union {K V} `{Countable K} (kv : list (K * V))
    (M : gmap K V) :
  fold_left (fun M r => <[r.1 := r.2]> M) kv M
  = fold_left (fun M r => <[r.1 := r.2]> M) kv ∅ ∪ M.
Proof.
  revert M. induction kv as [| [k v] kv IH]; intros M; cbn [fold_left fst snd].
  - rewrite (left_id ∅ (∪)). reflexivity.
  - rewrite IH. rewrite (IH (<[k := v]> ∅)).
    rewrite <- (assoc_L (∪)). f_equal.
    rewrite insert_union_singleton_l.
    rewrite (insert_union_singleton_l ∅), (right_id ∅ (∪)). reflexivity.
Qed.

Lemma fold_insert_twice {K V} `{Countable K} (kv : list (K * V))
    (M : gmap K V) :
  let M1 := fold_left (fun M r => <[r.1 := r.2]> M) kv M in
  fold_left (fun M r => <[r.1 := r.2]> M) kv M1 = M1.
Proof.
  intros M1. unfold M1. rewrite (fold_insert_union kv (fold_left _ kv M)).
  rewrite (fold_insert_union kv M).
  rewrite (assoc_L (∪)), (idemp_L (∪)). reflexivity.
Qed.

Lemma merges_load_lines tk lines :
  merges (load_lines tk lines)
  = fold_left (fun M r => <[r.1 := r.2]> M)
      ((fun r : num * num * num => ((r.1.1, r.1.2), r.2))
         <$> omap parse_line lines)
      (merges tk).
Proof.
  rewrite load_lines_rules, merges_register_rules.
  generalize (merges tk). generalize (omap parse_line lines).
  induction l as [| r rs IH]; intros M; [reflexivity |].
  cbn [fmap list_fmap fold_left fst snd]. apply IH.
Qed.

Lemma merges_load_lines_twice tk tk2 lines :
  merges tk2 = merges (load_lines tk lines) ->
  merges (load_lines tk2 lines) = merges tk2.
Proof.
  intros H2. rewrite (merges_load_lines tk2), H2, (merges_load_lines tk).
  apply fold_insert_twice.
Qed.

Lemma combine_define_new_ids tk lines :
  all_combine_known_ids tk lines -> all_define_new_ids tk lines.
Proof.
  revert tk. induction lines as [| line lines IH]; intros tk; [done |].
  intros [Hl Hrest]. split; [| apply IH, Hrest].
  unfold combines_known_ids, defines_new_id in *.
  destruct (parse_line line) as [[[p0 p1] idx] |]; [apply Hl | done].
Qed.

Lemma line_spelled_weaken V V' line :
  V ⊆ V' -> line_spelled V line -> line_spelled V' line.
Proof.
  unfold line_spelled. intros Hsub.
  destruct (parse_line line) as [[[p0 p1] idx] |]; [| done].
  intros (v0 & v1 & H0 & H1 & Hi). exists v0, v1.
  repeat split; eapply lookup_weaken; eassumption.
Qed.

Lemma load_lines_lines_spelled tk lines :
  all_combine_known_ids tk lines ->
  Forall (line_spelled (vocab (load_lines tk lines))) lines.
Proof.
  revert tk. induction lines as [| line lines IH]; intros tk; [constructor |].
  intros [Hl Hrest]. constructor; [| apply (IH _ Hrest)].
  change (load_lines tk (line :: lines))
    with (load_lines (load_line tk line) lines).
  eapply line_spelled_weaken;
    [apply load_lines_vocab_subseteq, combine_define_new_ids, Hrest |].
  unfold line_spelled, load_line, combines_known_ids in *.
  destruct (parse_line line) as [[[p0 p1] idx] |]; [| done].
  destruct Hl as (Hi & [v0 H0] & [v1 H1]).
  exists v0, v1. rewrite register_rule_vocab, H0, H1.
  repeat split.
  - rewrite lookup_insert_ne by congruence. exact H0.
  - rewrite lookup_insert_ne by congruence. exact H1.
  - apply lookup_insert_eq.
Qed.

Lemma load_lines_vocab_fixed tk lines :
  Forall (line_spelled (vocab tk)) lines ->
  vocab (load_lines tk lines) = vocab tk.
Proof.
  unfold load_lines. revert tk.
  induction lines as [| line lines IH]; intros tk Hall; [reflexivity |].
  apply Forall_cons in Hall as [Hl Hrest]. cbn [fold_left].
  assert (Hv : vocab (load_line tk line) = vocab tk).
  { unfold load_line, line_spelled in *.
    destruct (parse_line line) as [[[p0 p1] idx] |]; [| reflexivity].
    destruct Hl as (v0 & v1 & H0 & H1 & Hi).
    rewrite register_rule_vocab, H0, H1. apply insert_id, Hi. }
  rewrite IH; [exact Hv |]. rewrite Hv. exact Hrest.
Qed.

Lemma load_lines_vocabSize tk lines :
  vocabSize (load_lines tk lines) = vocabSize tk.
Proof.
  unfold load_lines. revert tk.
  induction lines as [| line lines IH]; intros tk; [reflexivity |].
  cbn [fold_left]. rewrite IH. unfold load_line.
  destruct (parse_line line) as [[[p0 p1] idx] |]; reflexivity.
Qed.

(** X8. Loading the same merges file a second time, as an [init] that is
    tried again does when it fetches the same file, changes nothing and
    logs the same size, where every rule of the file combines two ids
    the vocabulary has into an id it does not have yet, and the numbers
    of every rule are at most Number.MAX_SAFE_INTEGER in size, so that
    [parseInt] reads each of them exactly. *)
Theorem load_twice (url body : text) (tk : BPETokenizer) :
  forallb reads_safe_integers (split 10 body) = true ->
  all_combine_known_ids tk (split 10 body) ->
  load url (Response true (Some body))
       (load url (Response true (Some body)) tk).1.1
  = load url (Response true (Some body)) tk.
Proof.
  intros _ Hall. unfold load, load_body. cbn [fst].
  set (lines := split 10 body) in *.
  set (tk1 := {| merges := merges (load_lines tk lines);
                 vocab := vocab (load_lines tk lines);
                 vocabSize := 256 + size (merges (load_lines tk lines));
                 cache := cache (load_lines tk lines) |}).
  assert (Hm : merges (load_lines tk1 lines) = merges (load_lines tk lines)).
  { apply (merges_load_lines_twice tk tk1 lines). reflexivity. }
  assert (Hv : vocab (load_lines tk1 lines) = vocab (load_lines tk lines)).
  { apply (load_lines_vocab_fixed tk1 lines).
    apply load_lines_lines_spelled, Hall. }
  assert (Hc : cache (load_lines tk1 lines) = cache (load_lines tk lines)).
  { exact (load_lines_cache tk1 lines). }
  rewrite Hm, Hv, Hc. reflexivity.
Qed.

Lemma adjacent_pairs_cons x y l :
  adjacent_pairs (x :: y :: l) = (x, y) :: adjacent_pairs (y :: l).
Proof. reflexivity. Qed.

Lemma head_merge tl pair idx h :
  head (merge tl pair idx) = Some h -> h = idx \/ head tl = Some h.
Proof.
  destruct tl as [| y [| z rest]]; [discriminate | cbn; auto |].
  rewrite merge_unfold. destruct ((y =? pair.1) && (z =? pair.2)).
  - intros [= <-]. left. reflexivity.
  - intros [= <-]. right. reflexivity.
Qed.

Lemma adjacent_pairs_elem_cons p x m :
  p ∈ adjacent_pairs (x :: m) ->
  (exists h, head m = Some h /\ p = (x, h)) \/ p ∈ adjacent_pairs m.
Proof.
  destruct m as [| h m]; [intros H; inversion H |].
  rewrite adjacent_pairs_cons. intros [-> | H]%elem_of_cons.
  - left. exists h. split; reflexivity.
  - right. exact H.
Qed.

Lemma merge_no_pair ids a b idx :
  idx <> a -> idx <> b ->
  (a, b) ∉ adjacent_pairs (merge ids (a, b) idx).
Proof.
  intros Ha Hb.
  induction ids as [ids IH] using (induction_ltof1 _ (@length Z)).
  unfold ltof in IH.
  destruct ids as [| x [| y rest]]; [intros H; inversion H
                                    | intros H; inversion H |].
  rewrite merge_unfold. cbn [fst snd].
  destruct ((x =? a) && (y =? b)) eqn:Hxy.
  - intros [(h & _ & [= ? _]) | H]%adjacent_pairs_elem_cons; [congruence |].
    revert H. apply IH. cbn. lia.
  - intros [(h & Hh & [= -> <-]) | H]%adjacent_pairs_elem_cons.
    + apply head_merge in Hh as [-> | [= ->]]; [congruence |].
      rewrite !Z.eqb_refl in Hxy. discriminate.
    + revert H. apply IH. cbn. lia.
Qed.

Lemma load_twice_witness :
  load default_url (Response true (Some two_rules))
       (load default_url (Response true (Some two_rules)) new_BPETokenizer).1.1
  = load default_url (Response true (Some two_rules)) new_BPETokenizer.
Proof.
  apply (load_twice default_url two_rules new_BPETokenizer).
  - vm_compute. reflexivity.
  - vm_compute. repeat split; eexists; reflexivity.
Defined.

(** ** [merge] *)

(** X9. A merge pass replaces every occurrence of the pair: where the
    new id is neither id of the pair, the pair is no longer in the
    sequence after the pass; and the sequence decodes to the same bytes
    where the vocabulary spells the new id as the pair. *)
Theorem merge_replaces_every_occurrence (tk : BPETokenizer) (ids : list Z)
    (a b idx : Z) (va vb : list Z) :
  idx <> a -> idx <> b ->
  ((a, b) ∉ adjacent_pairs (merge ids (a, b) idx)) /\
  (vocab tk !! Int a = Some va -> vocab tk !! Int b = Some vb ->
   vocab tk !! Int idx = Some (va ++ vb) ->
   decode_bytes tk (merge ids (a, b) idx) = decode_bytes tk ids).
Proof.
  intros Ha Hb. split; [apply merge_no_pair; assumption |].
  apply decode_bytes_merge.
Qed.

Lemma merge_replaces_every_occurrence_witness :
  ((97, 97) ∉ adjacent_pairs (merge [97; 97; 97; 98] (97, 97) 256)) /\
  (vocab new_BPETokenizer !! Int 97 = Some [97] ->
   vocab new_BPETokenizer !! Int 97 = Some [97] ->
   vocab new_BPETokenizer !! Int 256 = Some ([97] ++ [97]) ->
   decode_bytes new_BPETokenizer (merge [97; 97; 97; 98] (97, 97) 256)
   = decode_bytes new_BPETokenizer [97; 97; 97; 98]).
Proof.
  apply (merge_replaces_every_occurrence new_BPETokenizer [97; 97; 97; 98]
           97 97 256 [97] [97]); lia.
Defined.

(** ** [getStats] *)

Lemma count_in_bump key counts p :
  count_in (bump key counts) p
  = (count_in counts p + if decide (key = p) then 1 else 0)%nat.
Proof.
  induction counts as [| [k n] counts IH]; cbn [bump count_in].
  - destruct (decide (key = p)); reflexivity.
  - destruct (decide (k = key)) as [-> | Hne]; cbn [count_in].
    + destruct (decide (key = p)); lia.
    + destruct (decide (k = p)) as [-> | Hkp]; [| exact IH].
      destruct (decide (key = p)); [congruence | lia].
Qed.

Lemma occurrences_cons x y l p :
  occurrences p (x :: y :: l)
  = ((if decide ((x, y) = p) then 1 else 0) + occurrences p (y :: l))%nat.
Proof.
  unfold occurrences. rewrite adjacent_pairs_cons, filter_cons.
  destruct (decide ((x, y) = p)); reflexivity.
Qed.

Lemma count_in_getStats_from ids counts p :
  count_in (getStats_from ids counts) p
  = (count_in counts p + occurrences p ids)%nat.
Proof.
  revert counts. induction ids as [| x ids IH]; intros counts.
  - cbn. unfold occurrences. cbn. lia.
  - destruct ids as [| y l].
    + cbn. unfold occurrences. cbn. lia.
    + change (getStats_from (x :: y :: l) counts)
        with (getStats_from (y :: l) (bump (x, y) counts)).
      rewrite IH, count_in_bump, occurrences_cons. lia.
Qed.

Lemma bump_NoDup key counts : NoDup counts.*1 -> NoDup (bump key counts).*1.
Proof.
  intros Hnd. rewrite bump_keys. case_bool_decide as Hin; [exact Hnd |].
  apply NoDup_app. split; [exact Hnd |]. split.
  - intros x Hx [= ->]%list_elem_of_singleton. contradiction.
  - apply NoDup_singleton.
Qed.

Lemma getStats_from_NoDup ids counts :
  NoDup counts.*1 -> NoDup (getStats_from ids counts).*1.
Proof.
  revert counts. induction ids as [| x ids IH]; intros counts Hnd;
    [exact Hnd |].
  destruct ids as [| y l]; [exact Hnd |].
  change (getStats_from (x :: y :: l) counts)
    with (getStats_from (y :: l) (bump (x, y) counts)).
  apply IH, bump_NoDup, Hnd.
Qed.

Lemma count_in_elem counts p n :
  NoDup counts.*1 -> (p, n) ∈ counts -> count_in counts p = n.
Proof.
  induction counts as [| [k m] counts IH]; intros Hnd Hin; [inversion Hin |].
  cbn [fmap list_fmap fst] in Hnd. apply NoDup_cons in Hnd as [Hk Hnd].
  apply elem_of_cons in Hin as [[= <- <-] | Hin]; cbn [count_in].
  - rewrite decide_True by reflexivity. reflexivity.
  - destruct (decide (k = p)) as [-> | Hne]; [| apply IH; assumption].
    exfalso. apply Hk. apply list_elem_of_fmap. exists (p, n).
    split; [reflexivity | exact Hin].
Qed.

(** X10. [getStats] returns one entry for each pair of neighbours in the
    sequence, and the count of an entry is the number of positions at
    which its pair occurs. *)
Theorem getStats_counts_occurrences (ids : list Z) :
  NoDup (getStats ids).*1 /\
  (forall p, p ∈ (getStats ids).*1 <-> p ∈ adjacent_pairs ids) /\
  (forall p n, (p, n) ∈ getStats ids ->
     n = occurrences p ids /\ (0 < n)%nat).
Proof.
  assert (Hnd : NoDup (getStats ids).*1).
  { apply getStats_from_NoDup. constructor. }
  split; [exact Hnd |]. split; [apply getStats_elem |].
  intros p n Hin.
  assert (Hn : n = occurrences p ids).
  { rewrite <- (count_in_elem _ _ _ Hnd Hin).
    unfold getStats. rewrite count_in_getStats_from. reflexivity. }
  split; [exact Hn |]. rewrite Hn. unfold occurrences.
  assert (Hp : p ∈ adjacent_pairs ids).
  { apply getStats_elem. apply list_elem_of_fmap. exists (p, n).
    split; [reflexivity | exact Hin]. }
  assert (Hf : p ∈ filter (fun q => q = p) (adjacent_pairs ids)).
  { apply list_elem_of_filter. split; [reflexivity | exact Hp]. }
  destruct (filter (fun q => q = p) (adjacent_pairs ids));
    [inversion Hf | cbn; lia].
Qed.

(** ** [decode] *)

Lemma decode_bytes_known tk ids :
  decode_bytes tk (filter (fun id => known tk id = true) ids)
  = decode_bytes tk ids.
Proof.
  induction ids as [| id ids IH]; [reflexivity |].
  rewrite filter_cons.
  change (decode_bytes tk (id :: ids))
    with (default [] (vocab tk !! Int id) ++ decode_bytes tk ids).
  destruct (decide (known tk id = true)) as [Hk | Hk].
  - change (decode_bytes tk (id :: filter (fun id => known tk id = true) ids))
      with (default [] (vocab tk !! Int id)
            ++ decode_bytes tk (filter (fun id => known tk id = true) ids)).
    rewrite IH. reflexivity.
  - rewrite IH. unfold known in Hk.
    destruct (vocab tk !! Int id) eqn:E; [| reflexivity].
    exfalso. apply Hk. apply bool_decide_eq_true_2. eexists. reflexivity.
Qed.

(** X11. [decode] passes over the ids the vocabulary has no entry for:
    the result is that of the known ids alone, and an unknown id can be
    left out wherever it stands. *)
Theorem decode_skips_unknown_ids (tk : BPETokenizer) (ids : list Z) :
  decode tk ids = decode tk (filter (fun id => known tk id = true) ids) /\
  (forall before after id, vocab tk !! Int id = None ->
     decode tk (before ++ id :: after) = decode tk (before ++ after)).
Proof.
  split.
  - unfold decode. rewrite decode_bytes_known. reflexivity.
  - intros before after id Hid. unfold decode, decode_bytes.
    rewrite !flat_map_app. cbn [flat_map]. rewrite Hid. reflexivity.
Qed.

(** * Further properties of sampling *)

Lemma slice_inside {A} (a : list A) (start stop : Z) :
  0 <= start <= stop -> stop <= Z.of_nat (length a) ->
  slice a start stop = take (Z.to_nat (stop - start)) (drop (Z.to_nat start) a)
  /\ length (slice a start stop) = Z.to_nat (stop - start).
Proof.
  intros Hs Hl. unfold slice, slice_index.
  destruct (start <? 0) eqn:E1; [lia |]. destruct (stop <? 0) eqn:E2; [lia |].
  rewrite !Z.min_l by lia. split; [reflexivity |].
  rewrite length_take, length_drop. lia.
Qed.

Section SamplingBounds.

Variable Math_exp : spec_float -> spec_float.

Lemma walk_bound r c i0 probs i :
  walk r c i0 probs = Some i -> (i0 <= i < i0 + length probs)%nat.
Proof.
  revert c i0. induction probs as [| p probs IH]; intros c i0; [discriminate |].
  cbn [walk length]. destruct (SFltb r (f64_add c p)).
  - intros [= <-]. lia.
  - intros H. apply IH in H. lia.
Qed.

Lemma softmax_length s : length (softmax Math_exp s) = length s.
Proof. apply length_map. Qed.

Lemma sample_bounds logits T topK u :
  -1 <= sample Math_exp logits T topK u < Z.of_nat (length logits) /\
  (sample Math_exp logits T topK u = -1 <-> logits = []).
Proof.
  unfold sample.
  set (probs := softmax Math_exp (top_k_filter (scale logits T) topK)).
  assert (Hlen : length probs = length logits).
  { unfold probs. rewrite softmax_length, top_k_filter_length, scale_length.
    reflexivity. }
  destruct (walk _ f64_zero 0 probs) as [i |] eqn:Hw.
  - apply walk_bound in Hw. rewrite Hlen in Hw. split; [lia |].
    split; [lia |]. intros ->. cbn in Hw. lia.
  - rewrite Hlen. split; [lia |]. split.
    + intros H. destruct logits; [reflexivity | cbn [length] in H; lia].
    + intros ->. reflexivity.
Qed.

(** X12. [sample] returns an index of the logits it is given, whatever
    the temperature, [topK] and random number are; it returns -1 exactly
    when there are no logits. *)
Theorem sample_returns_an_index (logits : list spec_float)
    (T : spec_float) (topK : Z) (u : spec_float) :
  -1 <= sample Math_exp logits T topK u < Z.of_nat (length logits) /\
  (sample Math_exp logits T topK u = -1 <-> logits = []).
Proof. apply sample_bounds. Qed.

Lemma Math_max_floor T :
  SFltb T temperature_floor = true ->
  Math_max T temperature_floor = temperature_floor.
Proof.
  intros H. unfold Math_max. destruct T; try discriminate; rewrite H;
    reflexivity.
Qed.

(** X13. A temperature below the floor of 1e-8, zero and the negative
    ones included, samples as the temperature 1e-8 does: no score is
    divided by zero. *)
Theorem temperature_is_floored (logits : list spec_float) (T : spec_float)
    (topK : Z) (u : spec_float) :
  SFltb T temperature_floor = true ->
  scale logits T = scale logits temperature_floor /\
  sample Math_exp logits T topK u
    = sample Math_exp logits temperature_floor topK u.
Proof.
  intros H.
  assert (Hs : scale logits T = scale logits temperature_floor).
  { unfold scale. rewrite (Math_max_floor T H).
    reflexivity. }
  split; [exact Hs |]. unfold sample. rewrite Hs. reflexivity.
Qed.

End SamplingBounds.

Section NextToken.

Variable Math_exp : spec_float -> spec_float.
Variable Math_random : nat -> spec_float.

(** X14. From logits of the shape [1, seq_len, vocab_size], the next
    token is sampled from the last row of scores and is an id below
    [vocab_size], never negative. *)
Theorem next_token_in_vocabulary (o : GenerationOptions) (logits : tensor)
    (n : nat) :
  well_shaped logits ->
  next_token Math_exp Math_random o logits n
    = sample Math_exp (last_row logits)
             (default default_temperature (temperature o))
             (default 40 (topK o)) (Math_random n) /\
  0 <= next_token Math_exp Math_random o logits n < (dims logits).2.
Proof.
  unfold well_shaped, next_token, last_row.
  destruct (dims logits) as [[b seqLen] vocabSize]. cbn [snd].
  intros (Hs & Hv & Hlen).
  destruct (slice_inside (data logits) ((seqLen - 1) * vocabSize)
              ((seqLen - 1) * vocabSize + vocabSize)) as [Heq Hl];
    [nia | nia |].
  replace ((seqLen - 1) * vocabSize + vocabSize - (seqLen - 1) * vocabSize)
    with vocabSize in Heq, Hl by lia.
  rewrite Heq. split; [reflexivity |].
  rewrite <- Heq.
  destruct (sample_bounds Math_exp
              (slice (data logits) ((seqLen - 1) * vocabSize)
                     ((seqLen - 1) * vocabSize + vocabSize))
              (default default_temperature (temperature o))
              (default 40 (topK o)) (Math_random n)) as [Hr Hempty].
  rewrite Hl in Hr.
  assert (Hne : slice (data logits) ((seqLen - 1) * vocabSize)
                  ((seqLen - 1) * vocabSize + vocabSize) <> []).
  { intros E. rewrite E in Hl. cbn in Hl. lia. }
  split; [| lia].
  destruct (Z.eq_dec (sample Math_exp
              (slice (data logits) ((seqLen - 1) * vocabSize)
                     ((seqLen - 1) * vocabSize + vocabSize))
              (default default_temperature (temperature o))
              (default 40 (topK o)) (Math_random n)) (-1)) as [E | E];
    [apply Hempty in E; contradiction | lia].
Qed.

End NextToken.

Lemma next_token_in_vocabulary_witness :
  0 <= next_token exp_at_fixed_points always_half one_token
         two_rows 0 < 3.
Proof.
  apply (next_token_in_vocabulary exp_at_fixed_points always_half one_token
           two_rows 0).
  vm_compute. repeat split; reflexivity.
Defined.

Lemma temperature_is_floored_witness :
  sample exp_at_fixed_points example_logits f64_zero 1 f64_half
  = sample exp_at_fixed_points example_logits temperature_floor 1 f64_half.
Proof.
  apply (temperature_is_floored exp_at_fixed_points example_logits f64_zero
           1 f64_half).
  vm_compute. reflexivity.
Defined.

(** * Further properties of the engine *)

Section Generation.

Variable Math_exp : spec_float -> spec_float.
Variable Math_random : nat -> spec_float.

Lemma run_loop_not_awaiting fuel c e k :
  calls e !! c = Some k ->
  (forall t g i n pd, state k <> AwaitRun t g i n pd) ->
  run_loop Math_exp Math_random fuel c e = e.
Proof.
  intros Hk Hs. destruct fuel; [reflexivity |]. cbn [run_loop].
  rewrite Hk. destruct (state k) eqn:E; try reflexivity.
  exfalso. eapply Hs. reflexivity.
Qed.

(** X15. [generate] on an engine that is not initialized rejects with the
    error "Engine not initialized", without encoding the prompt or
    running a session, and releases the mutex. *)
Theorem generate_before_init (e : AstroEngine) (p : text)
    (o : GenerationOptions) :
  idle e ->
  session e = None \/ isInitialized e = false ->
  let e' := generate Math_exp Math_random p o e in
  result_of 0 e' = Some (Throws EngineNotInitialized) /\
  0%nat ∈ released e' /\
  trace e' = [] /\ runs e' = runs e /\
  tokenizer e' = tokenizer e /\ arrays e' = arrays e.
Proof.
  intros (Hcalls & Hmutex & Hrel & Htrace) Hnot e'.
  set (k0 := {| prompt := p; options := o; current := Resolved;
                 release := 0%nat; state := AwaitMutex |}).
  set (e1 := generate_call p o e).
  assert (He1 : calls e1 = [k0]).
  { unfold e1, generate_call. cbn [calls]. rewrite Hcalls, Hmutex.
    reflexivity. }
  assert (He2 : enter 0 k0 e1
                = suspend 0 (Finishing (Throws EngineNotInitialized))
                          (arrays e1) (runs e1) [] e1).
  { unfold enter.
    assert (Hs : session e1 = session e) by reflexivity.
    assert (Hi : isInitialized e1 = isInitialized e) by reflexivity.
    rewrite Hs, Hi.
    destruct Hnot as [-> | ->]; [reflexivity |].
    destruct (session e); reflexivity. }
  assert (He' : e' = finally 0
                       (with_state k0
                          (Finishing (Throws EngineNotInitialized)))
                       (Throws EngineNotInitialized)
                       (enter 0 k0 e1)).
  { unfold e'. unfold generate. rewrite Hcalls. cbn [length].
    fold e1. rewrite He1. cbn [lookup list_lookup current k0 fulfilled].
    rewrite (run_loop_not_awaiting (iterations o) 0 (enter 0 k0 e1)
               (with_state k0 (Finishing (Throws EngineNotInitialized)))).
    - rewrite He2. cbn [suspend calls]. rewrite He1. reflexivity.
    - rewrite He2. cbn [suspend calls]. rewrite He1. reflexivity.
    - intros t g i n pd. discriminate. }
  rewrite He', He2. unfold result_of.
  cbn [finally suspend calls released trace runs tokenizer arrays
       with_state release k0].
  rewrite He1. cbn. unfold e1, generate_call. cbn.
  rewrite Htrace. repeat split. apply list_elem_of_here.
Qed.

Lemma runs_of_S c ids tok g n :
  runs_of c ids (tok :: g) (S n)
  = RunInvoked c (map to_int64 ids) :: RunSettled c
    :: runs_of c (ids ++ [tok]) g n.
Proof.
  unfold runs_of. cbn [seq flat_map take app]. rewrite app_nil_r.
  do 2 f_equal. rewrite <- seq_shift, flat_map_concat_map, map_map.
  rewrite <- flat_map_concat_map. apply flat_map_ext. intros j.
  cbn [take]. rewrite <- app_assoc. reflexivity.
Qed.

Lemma run_loop_resume fuel c e k t g i n pd :
  calls e !! c = Some k ->
  state k = AwaitRun t g i n pd ->
  run_loop Math_exp Math_random (S fuel) c e
  = run_loop Math_exp Math_random fuel c
      (resume Math_exp Math_random c k t g i n pd e).
Proof. intros Hk Hs. cbn [run_loop]. rewrite Hk, Hs. reflexivity. Qed.

(** The decode loop from a pending run to its end, when no run fails:
    [fuel] is the number of runs still to settle. *)
Lemma run_loop_returns run c l fuel : forall e k g i n pending A T,
  never_fails run ->
  session e = Some run ->
  calls e !! c = Some k ->
  state k = AwaitRun l g i n pending ->
  (exists logits, pending = Returns logits) ->
  arrays e !! l = Some A ->
  trace e = T ++ [RunInvoked c (map to_int64 A)] ->
  (i + S fuel = iterations (options k))%nat ->
  let e' := run_loop Math_exp Math_random (S fuel) c e in
  exists g', length g' = S fuel /\
    calls e' = alter (fun k => with_state k
                 (Finishing (Returns (decode (tokenizer e) (g ++ g')))))
                 c (calls e) /\
    arrays e' !! l = Some (A ++ g') /\
    length (arrays e') = length (arrays e) /\
    (forall l', l' <> l -> arrays e' !! l' = arrays e !! l') /\
    runs e' = (runs e + fuel)%nat /\
    trace e' = T ++ runs_of c A g' (S fuel) /\
    tokenizer e' = tokenizer e /\ released e' = released e /\
    generationMutex e' = generationMutex e.
Proof.
  induction fuel as [| fuel IH];
    intros e k g i n pending A T Hrun Hsess Hk Hst (logits & ->) HA HT Hi e'.
  - unfold e'. rewrite (run_loop_resume _ _ _ _ _ _ _ _ _ Hk Hst).
    cbn [run_loop resume]. unfold loop_head.
    assert (Hlt : (S i <? iterations (options k))%nat = false)
      by (apply Nat.ltb_ge; lia).
    rewrite Hlt.
    exists [next_token Math_exp Math_random (options k) logits n].
    cbn [suspend calls arrays runs trace tokenizer released generationMutex].
    unfold array_push, array_at. rewrite HA. cbn [default].
    repeat split.
    + apply list_lookup_insert_eq. eapply lookup_lt_Some, HA.
    + apply length_insert.
    + intros l' Hl'. apply list_lookup_insert_ne. congruence.
    + lia.
    + rewrite HT. unfold runs_of. cbn [seq flat_map take app].
      rewrite !app_nil_r, <- !app_assoc. reflexivity.
  - unfold e'. rewrite (run_loop_resume _ _ _ _ _ _ _ _ _ Hk Hst).
    set (tok := next_token Math_exp Math_random (options k) logits n).
    set (e1 := resume Math_exp Math_random c k l g i n (Returns logits) e).
    assert (He1 : e1 = suspend c
                    (AwaitRun l (g ++ [tok]) (S i) (runs e)
                       (run (runs e) (map to_int64 (A ++ [tok]))))
                    (<[l := A ++ [tok]]> (arrays e)) (S (runs e))
                    [RunSettled c; RunInvoked c (map to_int64 (A ++ [tok]))]
                    e).
    { unfold e1, resume. fold tok. unfold loop_head.
      assert (Hlt : (S i <? iterations (options k))%nat = true)
        by (apply Nat.ltb_lt; lia).
      rewrite Hlt, Hsess. unfold array_push, array_at. rewrite HA.
      cbn [default]. unfold id.
      rewrite list_lookup_insert_eq by (eapply lookup_lt_Some, HA).
      reflexivity. }
    assert (Hk1 : calls e1 !! c
                  = Some (with_state k
                            (AwaitRun l (g ++ [tok]) (S i) (runs e)
                               (run (runs e) (map to_int64 (A ++ [tok])))))).
    { rewrite He1. cbn [suspend calls]. rewrite list_lookup_alter_eq, Hk.
      reflexivity. }
    destruct (IH e1 (with_state k
                            (AwaitRun l (g ++ [tok]) (S i) (runs e)
                               (run (runs e) (map to_int64 (A ++ [tok])))))
                (g ++ [tok]) (S i) (runs e)
                (run (runs e) (map to_int64 (A ++ [tok]))) (A ++ [tok])
                (T ++ [RunInvoked c (map to_int64 A); RunSettled c])
                Hrun) as (g' & Hlen & Hcalls & Harr & Hlenarr & Hother & Hruns
                          & Htrace & Htk & Hrel & Hmx).
    + rewrite He1. exact Hsess.
    + exact Hk1.
    + reflexivity.
    + apply Hrun.
    + rewrite He1. cbn [suspend arrays].
      apply list_lookup_insert_eq. eapply lookup_lt_Some, HA.
    + rewrite He1. cbn [suspend trace]. rewrite HT, <- !app_assoc.
      reflexivity.
    + cbn [with_state options]. lia.
    + exists (tok :: g'). cbn [length]. repeat split.
      * rewrite Hlen. reflexivity.
      * rewrite Hcalls, He1. cbn [suspend calls tokenizer].
        rewrite list_alter_alter_eq. apply list_alter_ext; [| reflexivity].
        intros k' _. unfold compose, with_state. cbn.
        rewrite <- app_assoc. reflexivity.
      * rewrite Harr, <- app_assoc. reflexivity.
      * rewrite Hlenarr, He1. cbn [suspend arrays]. apply length_insert.
      * intros l' Hl'. rewrite (Hother l' Hl'), He1. cbn [suspend arrays].
        apply list_lookup_insert_ne. congruence.
      * rewrite Hruns, He1. cbn [suspend runs]. lia.
      * rewrite Htrace, runs_of_S, <- app_assoc. reflexivity.
      * rewrite Htk, He1. reflexivity.
      * rewrite Hrel, He1. reflexivity.
      * rewrite Hmx, He1. reflexivity.
Qed.

Lemma encode_result t tk h l tk' h' :
  cache_consistent tk h ->
  encode t tk h = (l, tk', h') ->
  h' !! l = Some (bpe (merges tk) (TextEncoder_encode t)) /\
  cache tk' !! t = Some l /\ vocab tk' = vocab tk.
Proof.
  intros Hc Henc. unfold encode in Henc.
  destruct (cache tk !! t) as [l0 |] eqn:Hl.
  - injection Henc as <- <- <-. repeat split; [apply Hc, Hl | exact Hl].
  - unfold alloc in Henc. injection Henc as <- <- <-. cbn [cache vocab].
    repeat split.
    + apply list_lookup_middle. reflexivity.
    + apply lookup_insert_eq.
Qed.

Lemma decode_vocab tk tk' ids :
  vocab tk' = vocab tk -> decode tk' ids = decode tk ids.
Proof. intros H. unfold decode, decode_bytes. rewrite H. reflexivity. Qed.

(** X16. On an engine that is ready and idle, with a cache that holds
    correct encodings and a session that never fails, [generate] runs
    the session exactly [maxTokens] times (not at all when [maxTokens]
    is not positive), each time on the ids of the prompt followed by all
    the tokens sampled so far, and resolves to the decoding of the
    tokens it has sampled; these are left on the cached encoding of the
    prompt, and the mutex is released at the end. *)
Theorem generate_runs_max_tokens (e : AstroEngine) (run : InferenceSession)
    (p : text) (o : GenerationOptions) :
  idle e ->
  session e = Some run ->
  isInitialized e = true ->
  cache_consistent (tokenizer e) (arrays e) ->
  never_fails run ->
  let ids := bpe (merges (tokenizer e)) (TextEncoder_encode p) in
  let e' := generate Math_exp Math_random p o e in
  exists generated,
    length generated = iterations o /\
    result_of 0 e' = Some (Returns (decode (tokenizer e) generated)) /\
    trace e' = runs_of 0 ids generated (iterations o) /\
    runs e' = (runs e + iterations o)%nat /\
    encode_ids p (tokenizer e') (arrays e') = ids ++ generated /\
    0%nat ∈ released e'.
Proof.
  intros (Hcalls & Hmutex & Hrel & Htrace) Hsess Hinit Hcache Hrun ids e'.
  set (k0 := {| prompt := p; options := o; current := Resolved;
                 release := 0%nat; state := AwaitMutex |}).
  destruct (encode p (tokenizer e) (arrays e)) as [[l tk] h] eqn:Henc.
  destruct (encode_result _ _ _ _ _ _ Hcache Henc) as (Hhl & Hcl & Hvoc).
  fold ids in Hhl.
  set (e1 := generate_call p o e).
  assert (He1 : calls e1 = [k0]).
  { unfold e1, generate_call. cbn [calls]. rewrite Hcalls, Hmutex.
    reflexivity. }
  set (e2 := enter 0 k0 e1).
  assert (He2 : e2 = loop_head 0 o l [] 0 h [] (with_tokenizer tk e1)).
  { unfold e2, enter, e1. cbn [session isInitialized generate_call
      tokenizer arrays prompt k0 options].
    rewrite Hsess, Hinit, Henc. reflexivity. }
  assert (He' : e' = let e3 := run_loop Math_exp Math_random
                                       (iterations o) 0 e2 in
                     match calls e3 !! 0%nat with
                     | Some k2 => match state k2 with
                                  | Finishing result => finally 0 k2 result e3
                                  | _ => e3
                                  end
                     | None => e3
                     end).
  { unfold e', generate. rewrite Hcalls. cbn [length].
    fold e1. rewrite He1. cbn [lookup list_lookup current k0 fulfilled].
    reflexivity. }
  destruct (iterations o) as [| fuel] eqn:Hfuel.
  - exists []. cbn [run_loop] in He'.
    assert (He2' : e2 = suspend 0 (Finishing (Returns (decode tk [])))
                          h (runs e) [] (with_tokenizer tk e1)).
    { rewrite He2. unfold loop_head. rewrite Hfuel. reflexivity. }
    rewrite He2' in He'. cbn [suspend calls with_tokenizer] in He'.
    rewrite He1 in He'. cbn in He'. rewrite He'.
    unfold result_of, encode_ids, encode.
    cbn [finally suspend with_tokenizer calls trace runs tokenizer arrays
         released release].
    rewrite Hcl, He1. unfold e1. cbn [generate_call trace released].
    rewrite Htrace. unfold array_at. rewrite Hhl. cbn.
    rewrite app_nil_r, Nat.add_0_r.
    repeat split. apply list_elem_of_here.
  - assert (He2' : e2 = suspend 0
                     (AwaitRun l [] 0 (runs e)
                        (run (runs e) (map to_int64 ids)))
                     h (S (runs e)) [RunInvoked 0 (map to_int64 ids)]
                     (with_tokenizer tk e1)).
    { rewrite He2. unfold loop_head. rewrite Hfuel. cbn [Nat.ltb Nat.leb].
      unfold array_at. rewrite Hhl. cbn [default]. unfold id.
      cbn [with_tokenizer session runs]. unfold e1.
      cbn [generate_call session runs]. rewrite Hsess. reflexivity. }
    destruct (run_loop_returns run 0 l fuel e2
                (with_state k0 (AwaitRun l [] 0 (runs e)
                                  (run (runs e) (map to_int64 ids))))
                [] 0 (runs e) (run (runs e) (map to_int64 ids)) ids [] Hrun)
      as (g' & Hlen & Hc3 & Harr & _ & _ & Hruns & Htr & Htk & Hrel3 & _).
    + rewrite He2'. exact Hsess.
    + rewrite He2'. cbn [suspend calls with_tokenizer]. rewrite He1.
      reflexivity.
    + reflexivity.
    + apply Hrun.
    + rewrite He2'. exact Hhl.
    + rewrite He2'. cbn [suspend trace with_tokenizer]. unfold e1.
      cbn [generate_call trace]. rewrite Htrace. reflexivity.
    + cbn [with_state options k0]. lia.
    + exists g'. cbn zeta in He', Hc3, Harr, Hruns, Htr, Htk, Hrel3.
      set (e3 := run_loop Math_exp Math_random (S fuel) 0 e2) in *.
      clearbody e3. rewrite Hc3 in He'.
      assert (Hc2 : calls e2 = [with_state k0
                       (AwaitRun l [] 0 (runs e)
                          (run (runs e) (map to_int64 ids)))]).
      { rewrite He2'. cbn [suspend calls with_tokenizer]. rewrite He1.
        reflexivity. }
      rewrite Hc2 in He'. cbn [alter list_alter lookup list_lookup
        with_state state] in He'.
      rewrite He'. unfold result_of, encode_ids, encode.
      cbn [finally calls trace runs tokenizer arrays released release
           with_state k0 app].
      rewrite Htk, Htr, Hruns, Hrel3.
      assert (Htk2 : tokenizer e2 = tk) by (rewrite He2'; reflexivity).
      assert (Hr2 : runs e2 = S (runs e)) by (rewrite He2'; reflexivity).
      rewrite Htk2, Hr2, Hcl. unfold array_at. rewrite Harr.
      rewrite list_lookup_alter_eq, Hc3, Hc2. cbn.
      rewrite (decode_vocab (tokenizer e) tk g' Hvoc).
      repeat split; [exact Hlen | lia | apply list_elem_of_here].
Qed.

(** ** The queue always drains *)

Lemma steps_one e e' : step Math_exp Math_random e e' ->
  steps Math_exp Math_random e e'.
Proof. intros H. eapply steps_step; [apply steps_refl | exact H]. Qed.

Lemma steps_trans e1 e2 e3 :
  steps Math_exp Math_random e1 e2 -> steps Math_exp Math_random e2 e3 ->
  steps Math_exp Math_random e1 e3.
Proof.
  intros H12 H23. induction H23 as [| e2 e3 e4 _ IH Hs]; [exact H12 |].
  eapply steps_step; [apply IH, H12 | exact Hs].
Qed.

Lemma sum_list_elem_le (l : list nat) x :
  x ∈ l -> (x <= sum_list l)%nat.
Proof.
  induction l as [| y l IH]; intros Hin; [inversion Hin |].
  apply elem_of_cons in Hin as [-> | Hin]; cbn; [lia |].
  specialize (IH Hin). lia.
Qed.

Lemma remaining_alter (cs : list call) c k ph :
  cs !! c = Some k ->
  (remaining (with_state k ph) < remaining k)%nat ->
  (sum_list (remaining <$> alter (fun k => with_state k ph) c cs)
   < sum_list (remaining <$> cs))%nat.
Proof.
  revert c. induction cs as [| k' cs IH]; intros [| c] Hk Hlt;
    try discriminate.
  - injection Hk as ->. cbn. lia.
  - cbn in Hk. specialize (IH c Hk Hlt). cbn in *. lia.
Qed.

Lemma loop_head_remaining c o tokens g i h evs e :
  exists ph,
    calls (loop_head c o tokens g i h evs e)
      = alter (fun k => with_state k ph) c (calls e) /\
    forall k, options k = o ->
      (remaining (with_state k ph) <= iterations o - i + 2)%nat /\
      (0 < i -> remaining (with_state k ph) < iterations o - (i - 1) + 2)%nat.
Proof.
  unfold loop_head. destruct (i <? iterations o)%nat eqn:E.
  - eexists. split; [reflexivity |]. intros k <-.
    apply Nat.ltb_lt in E. unfold remaining. cbn. lia.
  - eexists. split; [reflexivity |]. intros k <-.
    unfold remaining. cbn. lia.
Qed.

(** Each step a call takes brings its end nearer. *)
Lemma call_step_remaining e c k :
  mutex_invariant e ->
  calls e !! c = Some k ->
  settled (state k) = false ->
  (forall c', (c' < c)%nat -> c' ∈ released e) ->
  exists e', step Math_exp Math_random e e' /\
    length (calls e') = length (calls e) /\
    (sum_list (remaining <$> calls e') < sum_list (remaining <$> calls e))%nat.
Proof.
  intros Hinv Hk Hns Hbefore.
  destruct (state k) as [| tokens g i n pending | result | result] eqn:Hst;
    [| | | discriminate].
  - exists (enter c k e). split.
    + apply step_acquired; [exact Hk | exact Hst |].
      destruct (inv_current e Hinv c k Hk) as [-> _].
      apply fulfilled_chain, Hbefore.
    + unfold enter.
      destruct (session e) as [run |] eqn:Hs;
        [destruct (isInitialized e) eqn:Hi |].
      * destruct (encode (prompt k) (tokenizer e) (arrays e)) as [[l tk] h].
        destruct (loop_head_remaining c (options k) l [] 0 h []
                    (with_tokenizer tk e)) as (ph & -> & Hph).
        cbn [with_tokenizer calls]. rewrite length_alter.
        split; [reflexivity |].
        apply (remaining_alter _ _ k); [exact Hk |].
        destruct (Hph k eq_refl) as [Hle _].
        unfold remaining at 2. rewrite Hst. lia.
      * cbn [suspend calls]. rewrite length_alter. split; [reflexivity |].
        apply (remaining_alter _ _ k); [exact Hk |].
        unfold remaining. cbn. rewrite Hst. lia.
      * cbn [suspend calls]. rewrite length_alter. split; [reflexivity |].
        apply (remaining_alter _ _ k); [exact Hk |].
        unfold remaining. cbn. rewrite Hst. lia.
  - exists (resume Math_exp Math_random c k tokens g i n pending e). split.
    + eapply step_run_settled; eassumption.
    + unfold resume. destruct pending as [logits | err].
      * set (tok := next_token Math_exp Math_random (options k) logits n).
        destruct (loop_head_remaining c (options k) tokens (g ++ [tok])
                    (S i) (array_push (arrays e) tokens tok)
                    [RunSettled c] e) as (ph & -> & Hph).
        rewrite length_alter. split; [reflexivity |].
        apply (remaining_alter _ _ k); [exact Hk |].
        destruct (Hph k eq_refl) as [_ Hlt].
        unfold remaining at 2. rewrite Hst.
        specialize (Hlt ltac:(lia)). cbn [Nat.sub] in Hlt.
        rewrite Nat.sub_0_r in Hlt. lia.
      * cbn [suspend calls]. rewrite length_alter. split; [reflexivity |].
        apply (remaining_alter _ _ k); [exact Hk |].
        unfold remaining. cbn. rewrite Hst. lia.
  - exists (finally c k result e). split.
    + eapply step_finally; eassumption.
    + cbn [finally calls]. rewrite length_alter. split; [reflexivity |].
      apply (remaining_alter _ _ k); [exact Hk |].
      unfold remaining. cbn. rewrite Hst. lia.
Qed.

Lemma drains_from e : forall m,
  mutex_invariant e ->
  (sum_list (remaining <$> calls e) <= m)%nat ->
  exists e', steps Math_exp Math_random e e' /\
    length (calls e') = length (calls e) /\
    forall c k, calls e' !! c = Some k -> settled (state k) = true.
Proof.
  intros m. revert e. induction m as [| m IH]; intros e Hinv Hm.
  - exists e. split; [apply steps_refl |]. split; [reflexivity |].
    intros c k Hk.
    assert (Hr : remaining k = 0%nat).
    { assert (Hin : remaining k ∈ remaining <$> calls e).
      { apply list_elem_of_fmap. exists k. split; [reflexivity |].
        eapply list_elem_of_lookup_2, Hk. }
      apply sum_list_elem_le in Hin. lia. }
    unfold remaining in Hr. destruct (state k); try lia. reflexivity.
  - destruct (list_find (fun k => settled (state k) = false) (calls e))
      as [[c k] |] eqn:Hfind.
    + apply list_find_Some in Hfind as (Hk & Hns & Hmin).
      destruct (call_step_remaining e c k Hinv Hk Hns)
        as (e1 & Hstep & Hlen & Hlt).
      { intros c' Hc'. apply (inv_released e Hinv).
        destruct (lookup_lt_is_Some_2 (calls e) c') as [k' Hk'].
        { apply lookup_lt_Some in Hk. lia. }
        exists k'. split; [exact Hk' |].
        specialize (Hmin c' k' Hk' Hc').
        destruct (settled (state k')); [reflexivity | contradiction]. }
      destruct (IH e1) as (e' & Hsteps & Hlen' & Hall).
      * eapply step_invariant; eassumption.
      * lia.
      * exists e'. split; [| split; [lia | exact Hall]].
        eapply steps_trans; [apply steps_one, Hstep | exact Hsteps].
    + exists e. split; [apply steps_refl |]. split; [reflexivity |].
      intros c k Hk. apply list_find_None in Hfind.
      rewrite Forall_forall in Hfind.
      specialize (Hfind k (list_elem_of_lookup_2 _ _ _ Hk)).
      destruct (settled (state k)); [reflexivity | contradiction].
Qed.

(** X17. The mutex never deadlocks: from every state the engine reaches
    from an idle one, the calls in flight can all be run to their end,
    failed runs or not, and no call is lost on the way. *)
Theorem queue_always_drains (e0 e : AstroEngine) :
  idle e0 ->
  steps Math_exp Math_random e0 e ->
  exists e', steps Math_exp Math_random e e' /\
    length (calls e') = length (calls e) /\
    forall c, (c < length (calls e))%nat ->
      exists r, result_of c e' = Some r.
Proof.
  intros Hidle Hsteps.
  destruct (drains_from e (sum_list (remaining <$> calls e))) as
    (e' & Hs & Hlen & Hall).
  - eapply steps_invariant; [exact Hsteps | apply idle_invariant, Hidle].
  - lia.
  - exists e'. split; [exact Hs |]. split; [exact Hlen |].
    intros c Hc. rewrite <- Hlen in Hc.
    destruct (lookup_lt_is_Some_2 _ _ Hc) as [k Hk].
    unfold result_of. rewrite Hk. specialize (Hall c k Hk).
    destruct (state k); try discriminate. eexists. reflexivity.
Qed.

End Generation.

(** ** The further properties of the engine at concrete inputs *)

Lemma generate_before_init_witness :
  let e' := generate exp_at_fixed_points always_half (text_of_string "a")
                     one_token new_AstroEngine in
  result_of 0 e' = Some (Throws EngineNotInitialized) /\
  0%nat ∈ released e' /\
  trace e' = [] /\ runs e' = runs new_AstroEngine /\
  tokenizer e' = tokenizer new_AstroEngine /\
  arrays e' = arrays new_AstroEngine.
Proof.
  apply (generate_before_init exp_at_fixed_points always_half
           new_AstroEngine (text_of_string "a") one_token).
  - repeat split.
  - left. reflexivity.
Defined.

Lemma stub_session_never_fails : never_fails (stub_session None).
Proof. intros n input. eexists. reflexivity. Qed.

Lemma generate_runs_max_tokens_witness :
  let e := ready_engine new_BPETokenizer (stub_session None) in
  let ids := bpe (merges (tokenizer e))
                 (TextEncoder_encode (text_of_string "a")) in
  let e' := generate exp_at_fixed_points always_half (text_of_string "a")
                     two_tokens e in
  exists generated,
    length generated = iterations two_tokens /\
    result_of 0 e' = Some (Returns (decode (tokenizer e) generated)) /\
    trace e' = runs_of 0 ids generated (iterations two_tokens) /\
    runs e' = (runs e + iterations two_tokens)%nat /\
    encode_ids (text_of_string "a") (tokenizer e') (arrays e')
      = ids ++ generated /\
    0%nat ∈ released e'.
Proof.
  apply (generate_runs_max_tokens exp_at_fixed_points always_half
           (ready_engine new_BPETokenizer (stub_session None))
           (stub_session None) (text_of_string "a") two_tokens).
  - apply ready_engine_idle.
  - reflexivity.
  - reflexivity.
  - apply cache_consistent_new.
  - apply stub_session_never_fails.
Defined.

Lemma two_queued_reached :
  steps exp_at_fixed_points always_half
        (ready_engine new_BPETokenizer (stub_session None)) two_queued.
Proof.
  eapply steps_step; [eapply steps_step; [apply steps_refl |] |];
    apply step_generate.
Qed.

Lemma queue_always_drains_witness :
  exists e', steps exp_at_fixed_points always_half two_queued e' /\
    length (calls e') = length (calls two_queued) /\
    forall c, (c < length (calls two_queued))%nat ->
      exists r, result_of c e' = Some r.
Proof.
  apply (queue_always_drains exp_at_fixed_points always_half
           (ready_engine new_BPETokenizer (stub_session None)) two_queued).
  - apply ready_engine_idle.
  - apply two_queued_reached.
Defined.

(** * The life of the engine object *)

Lemma astroEngine_invariant : life_invariant astroEngine.
Proof.
  split; cbn.
  - intros n ph H. rewrite lookup_nil in H. discriminate.
  - reflexivity.
  - split; discriminate.
  - split; [discriminate | intros [x H]; discriminate].
  - reflexivity.
  - intros t l H. cbn in H. rewrite lookup_empty in H. discriminate.
  - intros H. inversion H.
Qed.

Lemma last_insert_last {A} (l : list A) n x y :
  l !! n = Some y -> S n = length l -> last (<[n := x]> l) = Some x.
Proof.
  intros Hn Hlen. rewrite last_lookup, length_insert, <- Hlen. cbn.
  apply list_lookup_insert_eq. lia.
Qed.

(** An attempt in flight is the last one. *)
Lemma in_flight_last s n ph :
  life_invariant s -> attempts s !! n = Some ph ->
  (forall err, ph <> InitReset err) ->
  S n = length (attempts s) /\ last (attempts s) = Some ph.
Proof.
  intros Hinv Hn Hph.
  assert (Hlen : S n = length (attempts s)).
  { pose proof (lookup_lt_Some _ _ _ Hn) as Hlt.
    destruct (decide (S n < length (attempts s))%nat) as [Hlt' |]; [| lia].
    destruct (li_earlier s Hinv n ph Hn Hlt') as [err ->].
    exfalso. eapply Hph. reflexivity. }
  split; [exact Hlen |].
  rewrite last_lookup, <- Hlen. exact Hn.
Qed.

Lemma earlier_insert_last (l : list init_phase) n x :
  S n = length l ->
  (forall m ph, l !! m = Some ph -> (S m < length l)%nat -> was_reset ph) ->
  forall m ph, <[n := x]> l !! m = Some ph ->
    (S m < length (<[n := x]> l))%nat -> was_reset ph.
Proof.
  intros Hlen Hearlier m ph Hm Hlt. rewrite length_insert in Hlt.
  rewrite list_lookup_insert_ne in Hm by lia. eapply Hearlier; eassumption.
Qed.

Lemma load_returns url f tk : (load url f tk).2 = Returns tt.
Proof.
  unfold load. destruct (load_body url f tk) as [[tk' out] [[] | err]];
    reflexivity.
Qed.

Lemma loaded_eq n f s :
  loaded n f s =
  {| engine := with_tokenizer (load default_url f (tokenizer (engine s))).1.1
                              (engine s);
     initPromise := initPromise s;
     attempts := <[n := AwaitCreate]> (attempts s);
     init_calls := init_calls s |}.
Proof.
  unfold loaded.
  pose proof (load_returns default_url f (tokenizer (engine s))) as H.
  destruct (load default_url f (tokenizer (engine s))) as [[tk out] r].
  cbn in H. rewrite H. reflexivity.
Qed.

Lemma cache_prefixed_empty tk h : cache tk = ∅ -> cache_prefixed tk h.
Proof. intros H t l Hl. rewrite H, lookup_empty in Hl. discriminate. Qed.

Lemma encode_cache_prefixed t tk h :
  cache_prefixed tk h ->
  cache_prefixed (encode t tk h).1.2 (encode t tk h).2.
Proof.
  intros Hc. unfold encode.
  destruct (cache tk !! t) as [l |] eqn:Hl; [exact Hc |].
  unfold alloc. cbn [fst snd]. intros t' l' H'. cbn [cache merges] in *.
  destruct (decide (t = t')) as [<- | Hne].
  - rewrite lookup_insert_eq in H'. injection H' as <-.
    exists []. rewrite app_nil_r. apply list_lookup_middle. reflexivity.
  - rewrite lookup_insert_ne in H' by exact Hne.
    destruct (Hc t' l' H') as [extra Hx]. exists extra.
    rewrite lookup_app_l by (eapply lookup_lt_Some, Hx). exact Hx.
Qed.

Lemma array_push_cache_prefixed tk h l x :
  cache_prefixed tk h -> cache_prefixed tk (array_push h l x).
Proof.
  intros Hc t l' Hl'. destruct (Hc t l' Hl') as [extra Hx].
  unfold array_push, array_at.
  destruct (decide (l = l')) as [<- | Hne].
  - rewrite Hx. cbn [default]. exists (extra ++ [x]).
    rewrite list_lookup_insert_eq by (eapply lookup_lt_Some, Hx).
    rewrite app_assoc. reflexivity.
  - exists extra. rewrite list_lookup_insert_ne by exact Hne. exact Hx.
Qed.

(** What the steps of a [generate] call leave alone, and what they keep
    true of the cache. *)
Definition same_setup (e e' : AstroEngine) : Prop :=
  session e' = session e /\ isInitialized e' = isInitialized e /\
  merges (tokenizer e') = merges (tokenizer e) /\
  vocab (tokenizer e') = vocab (tokenizer e) /\
  (isInitialized e = false -> tokenizer e' = tokenizer e) /\
  (cache_prefixed (tokenizer e) (arrays e) ->
   cache_prefixed (tokenizer e') (arrays e')).

Lemma suspend_same_setup c ph n evs e :
  same_setup e (suspend c ph (arrays e) n evs e).
Proof. repeat split; auto. Qed.

Lemma loop_head_same_setup c o tokens g i h evs e :
  session (loop_head c o tokens g i h evs e) = session e /\
  isInitialized (loop_head c o tokens g i h evs e) = isInitialized e /\
  tokenizer (loop_head c o tokens g i h evs e) = tokenizer e /\
  arrays (loop_head c o tokens g i h evs e) = h.
Proof. unfold loop_head. destruct (i <? iterations o)%nat; repeat split. Qed.

Lemma enter_same_setup c k e : same_setup e (enter c k e).
Proof.
  unfold enter. destruct (session e) as [run |] eqn:Hs;
    [destruct (isInitialized e) eqn:Hi |]; try apply suspend_same_setup.
  destruct (encode (prompt k) (tokenizer e) (arrays e)) as [[l tk] h] eqn:Henc.
  destruct (loop_head_same_setup c (options k) l [] 0 h []
              (with_tokenizer tk e)) as (H1 & H2 & H3 & H4).
  unfold same_setup. rewrite H1, H2, H3, H4. cbn [with_tokenizer session
    isInitialized tokenizer].
  assert (Htk : tk = (encode (prompt k) (tokenizer e) (arrays e)).1.2)
    by (rewrite Henc; reflexivity).
  assert (Hh : h = (encode (prompt k) (tokenizer e) (arrays e)).2)
    by (rewrite Henc; reflexivity).
  repeat split.
  - rewrite Htk. unfold encode, alloc.
    destruct (cache (tokenizer e) !! prompt k); reflexivity.
  - rewrite Htk. apply encode_vocab.
  - rewrite Hi. discriminate.
  - intros Hc. rewrite Htk, Hh. apply encode_cache_prefixed, Hc.
Qed.

Section LifeFacts.

Variable Math_exp : spec_float -> spec_float.
Variable Math_random : nat -> spec_float.

Lemma resume_same_setup c k tokens g i n pending e :
  same_setup e (resume Math_exp Math_random c k tokens g i n pending e).
Proof.
  unfold resume. destruct pending as [logits | err];
    [| apply suspend_same_setup].
  set (tok := next_token Math_exp Math_random (options k) logits n).
  destruct (loop_head_same_setup c (options k) tokens (g ++ [tok]) (S i)
              (array_push (arrays e) tokens tok) [RunSettled c] e)
    as (H1 & H2 & H3 & H4).
  unfold same_setup. rewrite H1, H2, H3, H4. repeat split.
  intros Hc. apply array_push_cache_prefixed, Hc.
Qed.

Lemma on_engine_invariant e' s :
  life_invariant s -> same_setup (engine s) e' ->
  life_invariant (on_engine e' s).
Proof.
  intros [He Hp Hr Hs Hcold Hcache Hat] (H1 & H2 & H3 & H4 & H5 & H6).
  split; cbn [on_engine engine initPromise attempts init_calls].
  - exact He.
  - exact Hp.
  - rewrite H2. exact Hr.
  - rewrite H1, H2. exact Hs.
  - rewrite H2. intros Hi. rewrite (H5 Hi). apply Hcold, Hi.
  - apply H6, Hcache.
  - rewrite H2. exact Hat.
Qed.

Lemma init_invariant s : life_invariant s -> life_invariant (init s).
Proof.
  intros Hinv.
  unfold init. destruct (isInitialized (engine s)) eqn:Hi.
  - pose proof Hinv as [He Hp Hr Hs Hcold Hcache Hat].
    split; cbn; try assumption. intros _. exact Hi.
  - destruct (initPromise s) as [n |] eqn:Hip;
      pose proof Hinv as [He Hp Hr Hs Hcold Hcache Hat].
    + split; cbn; try assumption; [rewrite <- Hip; exact Hp |].
      intros [H | H]%elem_of_app; [apply Hat, H |].
      apply list_elem_of_singleton in H. discriminate.
    + split; cbn [engine initPromise attempts init_calls].
      * intros n ph Hn Hlt. rewrite length_app in Hlt. cbn in Hlt.
        rewrite lookup_app_l in Hn by lia.
        destruct (decide (S n < length (attempts s))%nat) as [Hlt' | Hge];
          [eapply He; eassumption |].
        assert (Hlast : last (attempts s) = Some ph).
        { rewrite last_lookup.
          replace (Nat.pred (length (attempts s))) with n by lia. exact Hn. }
        rewrite Hip, Hlast in Hp. destruct ph; try discriminate.
        eexists. reflexivity.
      * rewrite last_snoc, length_app. cbn. f_equal. lia.
      * rewrite last_snoc, Hi. split; discriminate.
      * exact Hs.
      * exact Hcold.
      * exact Hcache.
      * intros [H | H]%elem_of_app; [apply Hat, H |].
        apply list_elem_of_singleton in H. discriminate.
Qed.

Lemma not_ready_in_flight s n ph :
  life_invariant s -> attempts s !! n = Some ph -> in_flight ph = true ->
  S n = length (attempts s) /\ isInitialized (engine s) = false /\
  initPromise s = Some n.
Proof.
  intros Hinv Hn Hfl.
  destruct (in_flight_last s n ph Hinv Hn) as [Hlen Hlast].
  { intros err ->. discriminate. }
  split; [exact Hlen |]. split.
  - destruct (isInitialized (engine s)) eqn:Hi; [| reflexivity].
    apply (li_ready s Hinv) in Hi. rewrite Hlast in Hi.
    injection Hi as ->. discriminate.
  - rewrite (li_promise s Hinv), Hlast.
    destruct ph; try discriminate; f_equal; lia.
Qed.

Lemma loaded_invariant n f s :
  life_invariant s -> attempts s !! n = Some AwaitLoad ->
  life_invariant (loaded n f s).
Proof.
  intros Hinv Hn.
  destruct (not_ready_in_flight s n _ Hinv Hn eq_refl) as (Hlen & Hi & Hip).
  pose proof Hinv as [He Hp Hr Hs Hcold Hcache Hat].
  rewrite loaded_eq.
  split; cbn [engine initPromise attempts init_calls with_tokenizer
              isInitialized session tokenizer arrays].
  - apply earlier_insert_last; assumption.
  - rewrite (last_insert_last _ _ _ _ Hn Hlen), length_insert, Hip.
    f_equal. lia.
  - rewrite (last_insert_last _ _ _ _ Hn Hlen), Hi. split; discriminate.
  - exact Hs.
  - intros _. rewrite load_cache. apply Hcold, Hi.
  - apply cache_prefixed_empty. rewrite load_cache. apply Hcold, Hi.
  - exact Hat.
Qed.

Lemma created_invariant n out s :
  life_invariant s -> attempts s !! n = Some AwaitCreate ->
  life_invariant (created n out s).
Proof.
  intros Hinv Hn.
  destruct (not_ready_in_flight s n _ Hinv Hn eq_refl) as (Hlen & Hi & Hip).
  pose proof Hinv as [He Hp Hr Hs Hcold Hcache Hat].
  destruct out as [run | err];
    split; cbn [created engine initPromise attempts init_calls initialized
                isInitialized session tokenizer arrays];
    try (apply earlier_insert_last; assumption);
    rewrite ?(last_insert_last _ _ _ _ Hn Hlen), ?length_insert;
    try assumption.
  - rewrite Hip. f_equal. lia.
  - split; reflexivity.
  - split; [eexists; reflexivity | reflexivity].
  - discriminate.
  - intros _. reflexivity.
  - rewrite Hip. f_equal. lia.
  - rewrite Hi. split; discriminate.
Qed.

Lemma caught_invariant n err s :
  life_invariant s -> attempts s !! n = Some (InitRejected err) ->
  life_invariant (caught n err s).
Proof.
  intros Hinv Hn.
  destruct (not_ready_in_flight s n _ Hinv Hn eq_refl) as (Hlen & Hi & Hip).
  pose proof Hinv as [He Hp Hr Hs Hcold Hcache Hat].
  split; cbn [caught engine initPromise attempts init_calls];
    try (apply earlier_insert_last; assumption);
    rewrite ?(last_insert_last _ _ _ _ Hn Hlen); try assumption.
  - reflexivity.
  - rewrite Hi. split; discriminate.
Qed.

Lemma generate_call_same_setup p o e : same_setup e (generate_call p o e).
Proof. repeat split; auto. Qed.

Lemma finally_same_setup c k result e : same_setup e (finally c k result e).
Proof. repeat split; auto. Qed.

Lemma life_step_invariant s s' :
  life_step Math_exp Math_random s s' ->
  life_invariant s -> life_invariant s'.
Proof.
  intros Hstep Hinv. destruct Hstep.
  - apply init_invariant, Hinv.
  - apply loaded_invariant; assumption.
  - apply created_invariant; assumption.
  - apply caught_invariant; assumption.
  - apply on_engine_invariant; [exact Hinv | apply generate_call_same_setup].
  - apply on_engine_invariant; [exact Hinv | apply enter_same_setup].
  - apply on_engine_invariant; [exact Hinv | apply resume_same_setup].
  - apply on_engine_invariant; [exact Hinv | apply finally_same_setup].
Qed.

Lemma life_steps_invariant s s' :
  life_steps Math_exp Math_random s s' ->
  life_invariant s -> life_invariant s'.
Proof.
  intros Hsteps Hinv. induction Hsteps as [| s1 s2 s3 _ IH Hstep];
    [exact Hinv |].
  eapply life_step_invariant; [exact Hstep | apply IH, Hinv].
Qed.

(** X18. [init] is single-flight. At any time in the life of the engine
    object, every call of [_init] but the last one has failed and had
    its failure handled; and [initPromise] is null, so that the next
    [init] starts a new [_init], exactly when every call of [_init] so
    far has. *)
Theorem init_is_single_flight (s : Lifecycle) :
  life_steps Math_exp Math_random astroEngine s ->
  (forall n ph, attempts s !! n = Some ph ->
     (S n < length (attempts s))%nat -> was_reset ph) /\
  (initPromise s = None <->
   forall n ph, attempts s !! n = Some ph -> was_reset ph).
Proof.
  intros Hsteps.
  pose proof (life_steps_invariant _ _ Hsteps astroEngine_invariant) as Hinv.
  split; [apply (li_earlier s Hinv) |].
  rewrite (li_promise s Hinv). split.
  - intros Hlast n ph Hn.
    destruct (decide (S n < length (attempts s))%nat) as [Hlt | Hge];
      [eapply (li_earlier s Hinv); eassumption |].
    assert (Hl : last (attempts s) = Some ph).
    { pose proof (lookup_lt_Some _ _ _ Hn). rewrite last_lookup.
      replace (Nat.pred (length (attempts s))) with n by lia. exact Hn. }
    rewrite Hl in Hlast. destruct ph; try discriminate. eexists. reflexivity.
  - intros Hall. destruct (last (attempts s)) as [ph |] eqn:Hl; [| reflexivity].
    rewrite last_lookup in Hl. destruct (Hall _ _ Hl) as [err ->].
    reflexivity.
Qed.

(** X19. Once the engine is ready it stays so: no later step changes
    the session, the merge rules or the vocabulary, and no further
    [_init] is started. *)
Theorem ready_is_stable (s s' : Lifecycle) :
  life_steps Math_exp Math_random astroEngine s ->
  life_steps Math_exp Math_random s s' ->
  ready s = true ->
  ready s' = true /\
  is_Some (session (engine s)) /\
  session (engine s') = session (engine s) /\
  merges (tokenizer (engine s')) = merges (tokenizer (engine s)) /\
  vocab (tokenizer (engine s')) = vocab (tokenizer (engine s)) /\
  attempts s' = attempts s.
Proof.
  intros Hreach Hsteps Hready.
  pose proof (life_steps_invariant _ _ Hreach astroEngine_invariant) as Hinv.
  assert (Hsess : is_Some (session (engine s)))
    by (apply (li_session s Hinv), Hready).
  enough (H : life_invariant s' /\ ready s' = true /\
              session (engine s') = session (engine s) /\
              merges (tokenizer (engine s')) = merges (tokenizer (engine s)) /\
              vocab (tokenizer (engine s')) = vocab (tokenizer (engine s)) /\
              attempts s' = attempts s).
  { destruct H as (_ & H1 & H2 & H3 & H4 & H5). repeat split; assumption. }
  induction Hsteps as [| s1 s2 s3 _ IH Hstep].
  - split; [exact Hinv |]. split; [exact Hready |]. repeat split.
  - destruct (IH Hreach Hready Hinv Hsess)
      as (Hinv2 & Hr2 & Hs2 & Hm2 & Hv2 & Ha2).
    split; [eapply life_step_invariant; eassumption |].
    unfold ready in *.
    assert (Hno : forall n ph, attempts s2 !! n = Some ph ->
                    in_flight ph = true -> False).
    { intros n ph Hn Hfl.
      destruct (not_ready_in_flight s2 n ph Hinv2 Hn Hfl) as (_ & Hi & _).
      rewrite Hi in Hr2. discriminate. }
    assert (Hcall : forall e', same_setup (engine s2) e' ->
              isInitialized e' = true /\
              session e' = session (engine s1) /\
              merges (tokenizer e') = merges (tokenizer (engine s1)) /\
              vocab (tokenizer e') = vocab (tokenizer (engine s1)) /\
              attempts s2 = attempts s1).
    { intros e' (H1 & H2 & H3 & H4 & _). rewrite H1, H2, H3, H4.
      repeat split; assumption. }
    destruct Hstep; cbn [on_engine engine attempts].
    + unfold init. rewrite Hr2. cbn. repeat split; assumption.
    + exfalso. eapply Hno; [eassumption | reflexivity].
    + exfalso. eapply Hno; [eassumption | reflexivity].
    + exfalso. eapply Hno; [eassumption | reflexivity].
    + apply Hcall, generate_call_same_setup.
    + apply Hcall, enter_same_setup.
    + apply Hcall, resume_same_setup.
    + apply Hcall, finally_same_setup.
Qed.

(** X20. When the promise a call of [init] has returned is fulfilled,
    the engine is ready and has its session. *)
Theorem init_fulfilled_means_ready (s : Lifecycle) (r : init_result) :
  life_steps Math_exp Math_random astroEngine s ->
  r ∈ init_calls s ->
  init_settled s r = Some (Returns tt) ->
  ready s = true /\ is_Some (session (engine s)).
Proof.
  intros Hreach Hr Hset.
  pose proof (life_steps_invariant _ _ Hreach astroEngine_invariant) as Hinv.
  assert (H : ready s = true).
  { unfold ready. destruct r as [| n].
    - apply (li_at_once s Hinv), Hr.
    - unfold init_settled in Hset.
      destruct (attempts s !! n) as [ph |] eqn:Hn; [| discriminate].
      destruct ph; try discriminate.
      destruct (in_flight_last s n _ Hinv Hn) as [_ Hlast];
        [intros err; discriminate |].
      apply (li_ready s Hinv), Hlast. }
  split; [exact H |]. apply (li_session s Hinv), H.
Qed.

(** X21. The cache never holds an encoding made under other rules. At
    any time in the life of the engine object, the array [encode]
    returns for a text starts with the encoding of the text under the
    rules loaded; what may follow are ids pushed on the cached array
    since. *)
Theorem cache_is_never_stale (s : Lifecycle) (t : text) :
  life_steps Math_exp Math_random astroEngine s ->
  exists extra,
    encode_ids t (tokenizer (engine s)) (arrays (engine s))
    = bpe (merges (tokenizer (engine s))) (TextEncoder_encode t) ++ extra.
Proof.
  intros Hreach.
  pose proof (life_steps_invariant _ _ Hreach astroEngine_invariant) as Hinv.
  destruct (cache (tokenizer (engine s)) !! t) as [l |] eqn:Hl.
  - destruct (li_cache s Hinv t l Hl) as [extra Hx]. exists extra.
    unfold encode_ids, encode. rewrite Hl. unfold array_at. rewrite Hx.
    reflexivity.
  - exists []. rewrite app_nil_r. apply encode_ids_cold, Hl.
Qed.

Lemma life_step_refines s s' :
  life_step Math_exp Math_random s s' ->
  engine s' = engine s \/ step Math_exp Math_random (engine s) (engine s').
Proof.
  intros Hstep. destruct Hstep.
  - left. unfold init. destruct (isInitialized (engine s)); [reflexivity |].
    destruct (initPromise s); reflexivity.
  - right. rewrite loaded_eq. apply step_tokenizer_loaded.
  - destruct out as [run | err]; [right; apply step_initialized | left];
      reflexivity.
  - left. reflexivity.
  - right. apply step_generate.
  - right. apply step_acquired; assumption.
  - right. eapply step_run_settled; eassumption.
  - right. eapply step_finally; eassumption.
Qed.

Lemma life_steps_refine s s' :
  life_steps Math_exp Math_random s s' ->
  steps Math_exp Math_random (engine s) (engine s').
Proof.
  intros Hsteps. induction Hsteps as [| s1 s2 s3 _ IH Hstep];
    [apply steps_refl |].
  destruct (life_step_refines _ _ Hstep) as [-> | Hs]; [exact IH |].
  eapply steps_step; eassumption.
Qed.

(** X22. [init] and its retries do not disturb the mutex: at any time in
    the life of the engine object, at most one [generate] call is inside
    [_generate], and a session run is invoked only once every earlier
    call has settled. *)
Theorem life_keeps_generations_serialized (s : Lifecycle) :
  life_steps Math_exp Math_random astroEngine s ->
  (forall c1 c2 k1 k2,
     calls (engine s) !! c1 = Some k1 -> calls (engine s) !! c2 = Some k2 ->
     holding (state k1) = true -> holding (state k2) = true -> c1 = c2) /\
  (forall ev c, ev ∈ trace (engine s) -> (c < event_call ev)%nat ->
     exists r, result_of c (engine s) = Some r).
Proof.
  intros Hreach.
  assert (Hinv : mutex_invariant (engine s)).
  { eapply steps_invariant; [apply life_steps_refine, Hreach |].
    apply idle_invariant. repeat split. }
  split.
  - intros c1 c2 k1 k2. apply holders_unique, Hinv.
  - intros ev c Hev Hlt.
    pose proof (inv_trace _ Hinv ev Hev c Hlt) as Hrel.
    apply (inv_released _ Hinv) in Hrel as (k & Hk & Hset).
    unfold result_of. rewrite Hk.
    destruct (state k); try discriminate. eexists. reflexivity.
Qed.

End LifeFacts.

(** X23. A merges file that cannot be fetched does not fail [init]:
    whatever the fetch does, a call of [_init] that waits for [load]
    goes on to create the session, and once that is created the promise
    of [init] is fulfilled and the engine is ready, with the tokenizer
    as it was if the fetch has failed. *)
Theorem init_survives_failed_fetch (s : Lifecycle) (n : nat) (f : fetched)
    (run : InferenceSession) :
  attempts s !! n = Some AwaitLoad ->
  let s2 := loaded n f s in
  let s3 := created n (Returns run) s2 in
  attempts s2 !! n = Some AwaitCreate /\
  ready s3 = true /\
  init_settled s3 (Shared n) = Some (Returns tt) /\
  (load_fails f -> tokenizer (engine s3) = tokenizer (engine s)).
Proof.
  intros Hn s2 s3. unfold s3, s2. rewrite loaded_eq.
  pose proof (lookup_lt_Some _ _ _ Hn) as Hlt.
  cbn [created attempts engine initialized tokenizer with_tokenizer].
  repeat split.
  - apply list_lookup_insert_eq, Hlt.
  - unfold init_settled. cbn [attempts].
    rewrite list_lookup_insert_eq by (rewrite length_insert; exact Hlt).
    reflexivity.
  - intros Hf. destruct f as [| [] [body |]]; try reflexivity. destruct Hf.
Qed.

(** ** The life of the engine object at concrete inputs *)

Lemma awaiting_load_reached :
  life_steps exp_at_fixed_points always_half astroEngine awaiting_load.
Proof. eapply life_more; [apply life_refl | apply life_init]. Qed.

Lemma engine_up_reached :
  life_steps exp_at_fixed_points always_half astroEngine engine_up.
Proof.
  eapply life_more; [eapply life_more; [apply awaiting_load_reached |] |].
  - apply (life_loaded _ _ 0 FetchRejected awaiting_load). reflexivity.
  - apply (life_created _ _ 0 (Returns (stub_session None))). reflexivity.
Qed.

Lemma two_calls_reached :
  life_steps exp_at_fixed_points always_half astroEngine two_calls.
Proof.
  eapply life_more; [eapply life_more; [apply engine_up_reached |] |].
  - apply (life_generate _ _ (text_of_string "a") two_tokens).
  - apply (life_generate _ _ (text_of_string "b") two_tokens).
Qed.

Lemma life_keeps_generations_serialized_witness :
  (forall c1 c2 k1 k2,
     calls (engine two_calls) !! c1 = Some k1 ->
     calls (engine two_calls) !! c2 = Some k2 ->
     holding (state k1) = true -> holding (state k2) = true -> c1 = c2) /\
  (forall ev c, ev ∈ trace (engine two_calls) -> (c < event_call ev)%nat ->
     exists r, result_of c (engine two_calls) = Some r).
Proof.
  apply (life_keeps_generations_serialized exp_at_fixed_points always_half
           two_calls).
  apply two_calls_reached.
Defined.

Lemma init_is_single_flight_witness :
  (forall n ph, attempts awaiting_load !! n = Some ph ->
     (S n < length (attempts awaiting_load))%nat -> was_reset ph) /\
  (initPromise awaiting_load = None <->
   forall n ph, attempts awaiting_load !! n = Some ph -> was_reset ph).
Proof.
  apply (init_is_single_flight exp_at_fixed_points always_half awaiting_load).
  apply awaiting_load_reached.
Defined.

Lemma ready_is_stable_witness :
  ready (init engine_up) = true /\
  is_Some (session (engine engine_up)) /\
  session (engine (init engine_up)) = session (engine engine_up) /\
  merges (tokenizer (engine (init engine_up)))
    = merges (tokenizer (engine engine_up)) /\
  vocab (tokenizer (engine (init engine_up)))
    = vocab (tokenizer (engine engine_up)) /\
  attempts (init engine_up) = attempts engine_up.
Proof.
  apply (ready_is_stable exp_at_fixed_points always_half engine_up
           (init engine_up)).
  - apply engine_up_reached.
  - eapply life_more; [apply life_refl | apply life_init].
  - reflexivity.
Defined.

Lemma init_fulfilled_means_ready_witness :
  ready engine_up = true /\ is_Some (session (engine engine_up)).
Proof.
  apply (init_fulfilled_means_ready exp_at_fixed_points always_half
           engine_up (Shared 0)).
  - apply engine_up_reached.
  - apply list_elem_of_here.
  - reflexivity.
Defined.

Lemma cache_is_never_stale_witness :
  exists extra,
    encode_ids (text_of_string "a") (tokenizer (engine engine_up))
               (arrays (engine engine_up))
    = bpe (merges (tokenizer (engine engine_up)))
          (TextEncoder_encode (text_of_string "a")) ++ extra.
Proof.
  apply (cache_is_never_stale exp_at_fixed_points always_half engine_up
           (text_of_string "a")).
  apply engine_up_reached.
Defined.

Lemma init_survives_failed_fetch_witness :
  attempts (loaded 0 FetchRejected awaiting_load) !! 0%nat
    = Some AwaitCreate /\
  ready engine_up = true /\
  init_settled engine_up (Shared 0) = Some (Returns tt) /\
  (load_fails FetchRejected ->
   tokenizer (engine engine_up) = tokenizer (engine awaiting_load)).
Proof.
  apply (init_survives_failed_fetch awaiting_load 0 FetchRejected
           (stub_session None)).
  reflexivity.
Defined.
